(** * Trajectory & Graph Engine of the PCK assistant

    A shallow embedding of the core of [api/src/services]:
    - [trajectory.ts]   the TrajectoryEngine (walk lifecycle and graph mutation),
    - [graph-reasoner.ts] the GraphReasoner (simulate, counterfactual),
    - [agent.ts]        tag extraction and the unary chat turn.

    Modelling conventions.
    - SQL tables are lists of rows in insertion order; [insert] appends,
      [update ... where] maps over the rows, [select ... limit 1] is the head
      of the filtered table.
    - JavaScript strings are [string]s whose characters are read as Latin-1
      code units (so [toLowerCase] and [trim] are the Latin-1 restrictions of
      the JavaScript ones).
    - Integer columns that hold counters are [nat].
    - [nanoid()] and [new Date()] are oracles carried by the world: the k-th
      draw returns [nanoid w k], the k-th clock read returns [clock w k].
    - Probabilities, which the source computes as quotients of integers, are
      exact rationals [Q]; the double that the source holds for such a
      quotient is [ratioDouble].
    - The store checks the foreign keys of the schema.  [insertRow] is the
      insert of a row that the store accepts, and an operation is the call
      whose inserts are accepted; [hasConversation], [hasTrajectory] and
      [hasEntity] say when the store accepts a reference, and [logEventCall]
      is [logEvent] together with the call that throws. *)

From stdpp Require Import gmap strings.
From Stdlib Require Import QArith Qabs Qround Sorting.Sorted Sorting.Permutation.
From Stdlib Require Import Strings.Ascii Strings.String DecimalString.
From Stdlib Require Import ZArith Lia Lqa.
From Stdlib Require Floats.PrimFloat Numbers.Cyclic.Int63.Uint63.
Import ListNotations.

Set Warnings "-register-all".

Local Open Scope string_scope.
Local Open Scope list_scope.
Local Open Scope nat_scope.

(* ===================================================================== *)
(** ** JavaScript string primitives *)
(* ===================================================================== *)

Module Js.

Definition code (c : ascii) : nat := nat_of_ascii c.

Definition between (lo hi n : nat) : bool := (lo <=? n) && (n <=? hi).

(** [\w] of a regular expression without the unicode flag. *)
Definition isWord (c : ascii) : bool :=
  let n := code c in
  between 48 57 n || between 65 90 n || between 97 122 n || (n =? 95).

(** White space and line terminators stripped by [String.prototype.trim]
    (the ones below U+0100). *)
Definition isSpace (c : ascii) : bool :=
  let n := code c in
  between 9 13 n || (n =? 32) || (n =? 160).

(** [toLowerCase] on one Latin-1 code unit. *)
Definition lowerChar (c : ascii) : ascii :=
  let n := code c in
  if between 65 90 n then ascii_of_nat (n + 32)
  else if between 192 222 n && negb (n =? 215) then ascii_of_nat (n + 32)
  else c.

Fixpoint toLowerCase (s : string) : string :=
  match s with
  | EmptyString => EmptyString
  | String c r => String (lowerChar c) (toLowerCase r)
  end.

Fixpoint trimStart (s : string) : string :=
  match s with
  | EmptyString => EmptyString
  | String c r => if isSpace c then trimStart r else s
  end.

(** Drops the trailing white space: a character is kept when it is not a
    space or when something is kept after it. *)
Fixpoint trimEnd (s : string) : string :=
  match s with
  | EmptyString => EmptyString
  | String c r =>
      match trimEnd r with
      | EmptyString => if isSpace c then EmptyString else String c EmptyString
      | r' => String c r'
      end
  end.

Definition trim (s : string) : string := trimEnd (trimStart s).

(** [s.startsWith(sub)] *)
Fixpoint startsWith (s sub : string) {struct sub} : bool :=
  match sub with
  | EmptyString => true
  | String a sub' =>
      match s with
      | EmptyString => false
      | String b s' => Ascii.eqb a b && startsWith s' sub'
      end
  end.

(** [s.includes(sub)] *)
Fixpoint includes (s sub : string) : bool :=
  startsWith s sub ||
  match s with
  | EmptyString => false
  | String _ r => includes r sub
  end.

(** A JavaScript value used as a condition: [undefined], [null] and the
    empty string are falsy. *)
Definition truthy (o : option string) : bool :=
  match o with
  | Some s => negb (String.eqb s EmptyString)
  | None => false
  end.

Definition optEqb (a b : option string) : bool :=
  match a, b with
  | Some x, Some y => String.eqb x y
  | None, None => true
  | _, _ => false
  end.

(** [[...new Set(xs)]]: the distinct elements in order of first occurrence. *)
Fixpoint uniqueFrom (seen xs : list string) : list string :=
  match xs with
  | [] => []
  | x :: r =>
      if existsb (String.eqb x) seen then uniqueFrom seen r
      else x :: uniqueFrom (x :: seen) r
  end.

Definition unique (xs : list string) : list string := uniqueFrom [] xs.

(** Stable insertion of [x], which came before every element of [l] in the
    original array: [x] passes only the elements that are strictly before it. *)
Fixpoint insertBy {A} (before : A -> A -> bool) (x : A) (l : list A) : list A :=
  match l with
  | [] => [x]
  | y :: r => if before y x then y :: insertBy before x r else x :: l
  end.

(** [Array.prototype.sort] with a consistent comparator is a stable sort;
    [before a b] says that the comparator puts [a] strictly before [b]. *)
Definition sortBy {A} (before : A -> A -> bool) (l : list A) : list A :=
  fold_right (fun x acc => insertBy before x acc) [] l.

End Js.

(* ===================================================================== *)
(** ** Persisted state ([db/schema.ts]) *)
(* ===================================================================== *)

Definition Id := string.
Definition Timestamp := nat.

Inductive Role := RoleUser | RoleAssistant | RoleSystem.

Record Conversation := {
  conv_id : Id;
  conv_nearAccountId : string;
  conv_title : option string;
  conv_createdAt : Timestamp;
  conv_updatedAt : Timestamp
}.

Record Message := {
  msg_id : Id;
  msg_conversationId : Id;
  msg_role : Role;
  msg_content : string;
  msg_trajectoryId : option Id;
  msg_createdAt : Timestamp
}.

Record Trajectory := {
  traj_id : Id;
  traj_nearAccountId : string;
  traj_conversationId : option Id;
  traj_inputText : string;
  traj_inputHash : string;
  traj_summary : option string;
  traj_startedAt : Timestamp;
  traj_completedAt : option Timestamp
}.

Inductive EventType := Touch | Reason | Decide | Discover.

Definition EventType_eqb (a b : EventType) : bool :=
  match a, b with
  | Touch, Touch | Reason, Reason | Decide, Decide | Discover, Discover => true
  | _, _ => false
  end.

(** The JSON payload of an event, kept as a value (the [data] column holds
    its [JSON.stringify] rendering). *)
Inductive Json :=
| JUndefined
| JNull
| JBool (b : bool)
| JNum (n : nat)
| JStr (s : string)
| JArr (l : list Json)
| JObj (fields : list (string * Json)).

Record Event := {
  ev_id : Id;
  ev_trajectoryId : Id;
  ev_sequenceNum : nat;
  ev_timestamp : Timestamp;
  ev_eventType : EventType;
  ev_entityId : option Id;
  ev_data : option Json
}.

Record Entity := {
  ent_id : Id;
  ent_name : string;
  ent_normalizedName : string;
  ent_entityType : option string;
  ent_description : option string;
  ent_touchCount : nat;
  ent_trajectoryCount : nat;
  ent_contributorCount : nat;
  ent_firstSeen : Timestamp;
  ent_lastSeen : Timestamp
}.

Record EntityContribution := {
  ctb_id : Id;
  ctb_entityId : Id;
  ctb_nearAccountId : string;
  ctb_firstTrajectoryId : Id;
  ctb_touchCount : nat;
  ctb_trajectoryCount : nat;
  ctb_firstSeen : Timestamp;
  ctb_lastSeen : Timestamp
}.

Record Edge := {
  edge_id : Id;
  edge_sourceEntityId : Id;
  edge_targetEntityId : Id;
  edge_relationshipType : option string;
  edge_weight : nat;
  edge_trajectoryCount : nat;
  edge_contributorCount : nat;
  edge_positiveOutcomes : nat;
  edge_negativeOutcomes : nat;
  edge_mixedOutcomes : nat;
  edge_firstSeen : Timestamp;
  edge_lastSeen : Timestamp
}.

Record Cooccurrence := {
  cooc_id : Id;
  cooc_entityA : Id;
  cooc_entityB : Id;
  cooc_count : nat;
  cooc_windowCount : nat;
  cooc_trajectoryCount : nat;
  cooc_contributorCount : nat;
  cooc_lastUpdated : Timestamp
}.

(** The database, the engine's in-memory sequence counters, and the two
    oracles with the number of values already drawn from each. *)
Record World := {
  conversations : list Conversation;
  messages : list Message;
  trajectories : list Trajectory;
  events : list Event;
  entities : list Entity;
  contributions : list EntityContribution;
  edges : list Edge;
  cooccurrences : list Cooccurrence;
  sequenceCounters : gmap string nat;
  nanoid : nat -> Id;
  drawn : nat;
  clock : nat -> Timestamp;
  ticks : nat
}.

(** *** Table primitives *)

Definition insertRow {A} (row : A) (table : list A) : list A := table ++ [row].

Definition updateWhere {A} (p : A -> bool) (f : A -> A) (table : list A) : list A :=
  map (fun r => if p r then f r else r) table.

Definition selectWhere {A} (p : A -> bool) (table : list A) : list A :=
  List.filter p table.

Definition inArray (x : Id) (xs : list Id) : bool := existsb (String.eqb x) xs.

(** *** Setters for the tables of the world *)

Definition setConversations (f : list Conversation -> list Conversation) (w : World) : World :=
  {| conversations := f (conversations w); messages := messages w;
     trajectories := trajectories w; events := events w; entities := entities w;
     contributions := contributions w; edges := edges w;
     cooccurrences := cooccurrences w; sequenceCounters := sequenceCounters w;
     nanoid := nanoid w; drawn := drawn w; clock := clock w; ticks := ticks w |}.

Definition setMessages (f : list Message -> list Message) (w : World) : World :=
  {| conversations := conversations w; messages := f (messages w);
     trajectories := trajectories w; events := events w; entities := entities w;
     contributions := contributions w; edges := edges w;
     cooccurrences := cooccurrences w; sequenceCounters := sequenceCounters w;
     nanoid := nanoid w; drawn := drawn w; clock := clock w; ticks := ticks w |}.

Definition setTrajectories (f : list Trajectory -> list Trajectory) (w : World) : World :=
  {| conversations := conversations w; messages := messages w;
     trajectories := f (trajectories w); events := events w; entities := entities w;
     contributions := contributions w; edges := edges w;
     cooccurrences := cooccurrences w; sequenceCounters := sequenceCounters w;
     nanoid := nanoid w; drawn := drawn w; clock := clock w; ticks := ticks w |}.

Definition setEvents (f : list Event -> list Event) (w : World) : World :=
  {| conversations := conversations w; messages := messages w;
     trajectories := trajectories w; events := f (events w); entities := entities w;
     contributions := contributions w; edges := edges w;
     cooccurrences := cooccurrences w; sequenceCounters := sequenceCounters w;
     nanoid := nanoid w; drawn := drawn w; clock := clock w; ticks := ticks w |}.

Definition setEntities (f : list Entity -> list Entity) (w : World) : World :=
  {| conversations := conversations w; messages := messages w;
     trajectories := trajectories w; events := events w; entities := f (entities w);
     contributions := contributions w; edges := edges w;
     cooccurrences := cooccurrences w; sequenceCounters := sequenceCounters w;
     nanoid := nanoid w; drawn := drawn w; clock := clock w; ticks := ticks w |}.

Definition setContributions (f : list EntityContribution -> list EntityContribution)
    (w : World) : World :=
  {| conversations := conversations w; messages := messages w;
     trajectories := trajectories w; events := events w; entities := entities w;
     contributions := f (contributions w); edges := edges w;
     cooccurrences := cooccurrences w; sequenceCounters := sequenceCounters w;
     nanoid := nanoid w; drawn := drawn w; clock := clock w; ticks := ticks w |}.

Definition setEdges (f : list Edge -> list Edge) (w : World) : World :=
  {| conversations := conversations w; messages := messages w;
     trajectories := trajectories w; events := events w; entities := entities w;
     contributions := contributions w; edges := f (edges w);
     cooccurrences := cooccurrences w; sequenceCounters := sequenceCounters w;
     nanoid := nanoid w; drawn := drawn w; clock := clock w; ticks := ticks w |}.

Definition setCooccurrences (f : list Cooccurrence -> list Cooccurrence) (w : World) : World :=
  {| conversations := conversations w; messages := messages w;
     trajectories := trajectories w; events := events w; entities := entities w;
     contributions := contributions w; edges := edges w;
     cooccurrences := f (cooccurrences w); sequenceCounters := sequenceCounters w;
     nanoid := nanoid w; drawn := drawn w; clock := clock w; ticks := ticks w |}.

Definition setSequenceCounters (f : gmap string nat -> gmap string nat) (w : World) : World :=
  {| conversations := conversations w; messages := messages w;
     trajectories := trajectories w; events := events w; entities := entities w;
     contributions := contributions w; edges := edges w;
     cooccurrences := cooccurrences w; sequenceCounters := f (sequenceCounters w);
     nanoid := nanoid w; drawn := drawn w; clock := clock w; ticks := ticks w |}.

(** *** Foreign keys

    The schema declares references between the tables: [message] and
    [trajectory] refer to a conversation, [message], [event] and
    [entity_contribution] to a trajectory, [event], [entity_contribution],
    [edge] and [cooccurrence] to an entity.  The store rejects an insert whose
    reference has no row: the insert throws and nothing is written. *)

Definition hasConversation (id : Id) (w : World) : bool :=
  existsb (fun c => String.eqb (conv_id c) id) (conversations w).

Definition hasTrajectory (id : Id) (w : World) : bool :=
  existsb (fun t => String.eqb (traj_id t) id) (trajectories w).

Definition hasEntity (id : Id) (w : World) : bool :=
  existsb (fun e => String.eqb (ent_id e) id) (entities w).

(** A nullable reference: [null] refers to nothing and is accepted. *)
Definition refers (has : Id -> World -> bool) (ref : option Id) (w : World) : bool :=
  match ref with
  | Some id => has id w
  | None => true
  end.

(* ===================================================================== *)
(** ** The monad of store operations *)
(* ===================================================================== *)

Definition M (A : Type) : Type := World -> A * World.

Definition ret {A} (x : A) : M A := fun w => (x, w).

Definition bind {A B} (c : M A) (k : A -> M B) : M B :=
  fun w => let (x, w1) := c w in k x w1.

Definition modify (f : World -> World) : M unit := fun w => (tt, f w).

Definition gets {A} (f : World -> A) : M A := fun w => (f w, w).

Declare Scope store_scope.
Delimit Scope store_scope with store.
Notation "'do' x '<-' c ';' k" := (bind c (fun x => k))
  (at level 10, x name, c at level 100, k at level 200) : store_scope.
Notation "'run' c ';' k" := (bind c (fun _ => k))
  (at level 10, c at level 100, k at level 200) : store_scope.
Local Open Scope store_scope.

(** [for (const x of xs) body(x)] *)
Fixpoint forEach {A} (xs : list A) (body : A -> M unit) : M unit :=
  match xs with
  | [] => ret tt
  | x :: r => run body x; forEach r body
  end.

(** [for (const x of xs) acc = body(acc, x)] for a loop that grows local state. *)
Fixpoint foldM {A S} (xs : list A) (body : S -> A -> M S) (init : S) : M S :=
  match xs with
  | [] => ret init
  | x :: r => do s <- body init x; foldM r body s
  end.

(** [nanoid()] *)
Definition newId : M Id :=
  fun w =>
    (nanoid w (drawn w),
     {| conversations := conversations w; messages := messages w;
        trajectories := trajectories w; events := events w; entities := entities w;
        contributions := contributions w; edges := edges w;
        cooccurrences := cooccurrences w; sequenceCounters := sequenceCounters w;
        nanoid := nanoid w; drawn := S (drawn w); clock := clock w; ticks := ticks w |}).

(** [new Date()] *)
Definition newDate : M Timestamp :=
  fun w =>
    (clock w (ticks w),
     {| conversations := conversations w; messages := messages w;
        trajectories := trajectories w; events := events w; entities := entities w;
        contributions := contributions w; edges := edges w;
        cooccurrences := cooccurrences w; sequenceCounters := sequenceCounters w;
        nanoid := nanoid w; drawn := drawn w; clock := clock w; ticks := S (ticks w) |}).

(* ===================================================================== *)
(** ** TrajectoryEngine ([services/trajectory.ts]) *)
(* ===================================================================== *)

Module TrajectoryEngine.

(** *** hashInput *)

Definition toInt32 (z : Z) : Z :=
  let m := (z mod 4294967296)%Z in
  if (2147483648 <=? m)%Z then (m - 4294967296)%Z else m.

Definition hexDigit (n : N) : ascii :=
  if (n <? 10)%N then ascii_of_N (48 + n) else ascii_of_N (87 + n).

(** The hexadecimal digits of [n], most significant first; eight rounds cover
    every 32-bit magnitude. *)
Fixpoint hexDigits (rounds : nat) (n : N) (acc : string) : string :=
  match rounds with
  | O => acc
  | S k =>
      let acc' := String (hexDigit (n mod 16)%N) acc in
      if (n / 16 =? 0)%N then acc' else hexDigits k (n / 16)%N acc'
  end.

(** [hash.toString(16)] for a 32-bit integer. *)
Definition toString16 (z : Z) : string :=
  if (z <? 0)%Z then "-" +:+ hexDigits 8 (Z.to_N (- z)) EmptyString
  else hexDigits 8 (Z.to_N z) EmptyString.

Fixpoint hashLoop (input : string) (hash : Z) : Z :=
  match input with
  | EmptyString => hash
  | String c r =>
      let char := Z.of_nat (Js.code c) in
      hashLoop r (toInt32 (toInt32 (hash * 32) - hash + char))
  end.

Definition hashInput (input : string) : string := toString16 (hashLoop input 0%Z).

(** *** Interfaces *)

Definition DecisionContext := list (string * Json).

Record TrajectoryEvent := {
  te_type : EventType;
  te_entityId : option Id;
  te_data : option (list (string * Json));
  te_context : option DecisionContext
}.

Record EntityInfo := {
  ei_id : Id;
  ei_name : string;
  ei_entityType : option string;
  ei_description : option string;
  ei_touchCount : nat
}.

Record EdgeInfo := {
  gi_id : Id;
  gi_sourceEntityId : Id;
  gi_targetEntityId : Id;
  gi_relationshipType : option string;
  gi_weight : nat
}.

Record Completion := {
  entitiesDiscovered : list EntityInfo;
  entitiesTouched : list EntityInfo;
  edgesTraversed : list EdgeInfo
}.

(** [obj[key] = v] on an object given by its fields in insertion order. *)
Fixpoint setField (key : string) (v : Json) (fields : list (string * Json))
  : list (string * Json) :=
  match fields with
  | [] => [(key, v)]
  | (k, x) :: r =>
      if String.eqb k key then (k, v) :: r else (k, x) :: setField key v r
  end.

(** *** startTrajectory *)

(** The call returns when the store accepts the row: the conversation id is
    absent or the id of a conversation ([refers hasConversation]). *)
Definition startTrajectory (nearAccountId inputText : string)
    (conversationId : option Id) : M Id :=
  do id <- newId;
  do now <- newDate;
  run modify (setTrajectories (insertRow
        {| traj_id := id;
           traj_nearAccountId := nearAccountId;
           traj_conversationId := conversationId;
           traj_inputText := inputText;
           traj_inputHash := hashInput inputText;
           traj_summary := None;
           traj_startedAt := now;
           traj_completedAt := None |}));
  run modify (setSequenceCounters (fun m => <[id := 0]> m));
  ret id.

(** *** logEvent *)

Definition touchEntity (now : Timestamp) (e : Entity) : Entity :=
  {| ent_id := ent_id e; ent_name := ent_name e;
     ent_normalizedName := ent_normalizedName e;
     ent_entityType := ent_entityType e; ent_description := ent_description e;
     ent_touchCount := ent_touchCount e + 1;
     ent_trajectoryCount := ent_trajectoryCount e;
     ent_contributorCount := ent_contributorCount e;
     ent_firstSeen := ent_firstSeen e; ent_lastSeen := now |}.

(** [dataToStore]: a copy of [event.data] with the context merged in. *)
Definition dataToStore (event : TrajectoryEvent) : list (string * Json) :=
  let copy := match te_data event with Some d => d | None => [] end in
  match te_context event with
  | Some ctx => setField "_context" (JObj ctx) copy
  | None => copy
  end.

(** The entity touched by an event, when the event is a touch of one. *)
Definition touchedBy (event : TrajectoryEvent) : option Id :=
  match te_type event, te_entityId event with
  | Touch, Some entityId => if Js.truthy (Some entityId) then Some entityId else None
  | _, _ => None
  end.

(** The call whose row the store accepts ([acceptsEvent], below). *)
Definition logEvent (trajectoryId : Id) (event : TrajectoryEvent) : M Id :=
  do id <- newId;
  do now <- newDate;
  do counters <- gets sequenceCounters;
  let sequenceNum := default 0 (counters !! trajectoryId) in
  run modify (setSequenceCounters (fun m => <[trajectoryId := sequenceNum + 1]> m));
  run modify (setEvents (insertRow
        {| ev_id := id;
           ev_trajectoryId := trajectoryId;
           ev_sequenceNum := sequenceNum;
           ev_timestamp := now;
           ev_eventType := te_type event;
           ev_entityId := te_entityId event;
           ev_data := match dataToStore event with
                      | [] => None
                      | fields => Some (JObj fields)
                      end |}));
  run (match touchedBy event with
       | Some entityId =>
           modify (setEntities (updateWhere
             (fun e => String.eqb (ent_id e) entityId) (touchEntity now)))
       | None => ret tt
       end);
  ret id.



(** *** trackContribution *)

Definition bumpContributorCount (e : Entity) : Entity :=
  {| ent_id := ent_id e; ent_name := ent_name e;
     ent_normalizedName := ent_normalizedName e;
     ent_entityType := ent_entityType e; ent_description := ent_description e;
     ent_touchCount := ent_touchCount e;
     ent_trajectoryCount := ent_trajectoryCount e;
     ent_contributorCount := ent_contributorCount e + 1;
     ent_firstSeen := ent_firstSeen e; ent_lastSeen := ent_lastSeen e |}.

Definition contributionOf (entityId : Id) (nearAccountId : string)
    (c : EntityContribution) : bool :=
  String.eqb (ctb_entityId c) entityId && String.eqb (ctb_nearAccountId c) nearAccountId.

(** The insert of a new row is accepted when the entity and the trajectory
    have rows ([hasEntity], [hasTrajectory]). *)
Definition trackContribution (entityId : Id) (nearAccountId : string)
    (trajectoryId : Id) (timestamp : Timestamp) : M unit :=
  do rows <- gets (fun w => selectWhere (contributionOf entityId nearAccountId) (contributions w));
  match head rows with
  | Some existing =>
      modify (setContributions (updateWhere
        (fun c => String.eqb (ctb_id c) (ctb_id existing))
        (fun c =>
           {| ctb_id := ctb_id c; ctb_entityId := ctb_entityId c;
              ctb_nearAccountId := ctb_nearAccountId c;
              ctb_firstTrajectoryId := ctb_firstTrajectoryId c;
              ctb_touchCount := ctb_touchCount existing + 1;
              ctb_trajectoryCount := ctb_trajectoryCount c;
              ctb_firstSeen := ctb_firstSeen c;
              ctb_lastSeen := timestamp |})))
  | None =>
      do id <- newId;
      run modify (setContributions (insertRow
            {| ctb_id := id;
               ctb_entityId := entityId;
               ctb_nearAccountId := nearAccountId;
               ctb_firstTrajectoryId := trajectoryId;
               ctb_touchCount := 1;
               ctb_trajectoryCount := 1;
               ctb_firstSeen := timestamp;
               ctb_lastSeen := timestamp |}));
      modify (setEntities (updateWhere
        (fun e => String.eqb (ent_id e) entityId) bumpContributorCount))
  end.

(** *** findOrCreateEntity *)

(** The call returns when the contribution it records is accepted: the
    trajectory has a row ([hasTrajectory]). *)
Definition findOrCreateEntity (nearAccountId : string) (trajectoryId : Id)
    (name : string) (entityType description : option string) : M Id :=
  let normalizedName := Js.trim (Js.toLowerCase name) in
  do now <- newDate;
  do rows <- gets (fun w =>
       selectWhere (fun e => String.eqb (ent_normalizedName e) normalizedName) (entities w));
  do entityId <-
    match head rows with
    | Some existing =>
        let entityId := ent_id existing in
        run modify (setEntities (updateWhere
              (fun e => String.eqb (ent_id e) entityId)
              (fun e =>
                 {| ent_id := ent_id e; ent_name := ent_name e;
                    ent_normalizedName := ent_normalizedName e;
                    ent_entityType :=
                      if Js.truthy entityType && negb (Js.truthy (ent_entityType existing))
                      then entityType else ent_entityType e;
                    ent_description :=
                      if Js.truthy description && negb (Js.truthy (ent_description existing))
                      then description else ent_description e;
                    ent_touchCount := ent_touchCount e + 1;
                    ent_trajectoryCount := ent_trajectoryCount e;
                    ent_contributorCount := ent_contributorCount e;
                    ent_firstSeen := ent_firstSeen e;
                    ent_lastSeen := now |})));
        ret entityId
    | None =>
        do entityId <- newId;
        run modify (setEntities (insertRow
              {| ent_id := entityId;
                 ent_name := name;
                 ent_normalizedName := normalizedName;
                 ent_entityType := entityType;
                 ent_description := description;
                 ent_touchCount := 1;
                 ent_trajectoryCount := 1;
                 ent_contributorCount := 1;
                 ent_firstSeen := now;
                 ent_lastSeen := now |}));
        ret entityId
    end;
  run trackContribution entityId nearAccountId trajectoryId now;
  ret entityId.

(** *** updateCooccurrences *)

(** [for i ... for j = i + 1 ...] over the positions of an array. *)
Fixpoint forPairs (xs : list Id) (body : Id -> Id -> M unit) : M unit :=
  match xs with
  | [] => ret tt
  | x :: r => run forEach r (body x); forPairs r body
  end.

Definition edgeKey (a b : Id) : Id := a +:+ ":" +:+ b.

(** [[idI, idJ].sort()]: the default sort compares strings by code units. *)
Definition sortPair (idI idJ : Id) : Id * Id :=
  if String.ltb idJ idI then (idJ, idI) else (idI, idJ).

Definition bumpCooccurrence (existing : Cooccurrence) (timestamp : Timestamp)
    (c : Cooccurrence) : Cooccurrence :=
  {| cooc_id := cooc_id c; cooc_entityA := cooc_entityA c;
     cooc_entityB := cooc_entityB c;
     cooc_count := cooc_count existing + 1;
     cooc_windowCount := cooc_windowCount existing + 1;
     cooc_trajectoryCount := cooc_trajectoryCount existing + 1;
     cooc_contributorCount := cooc_contributorCount c;
     cooc_lastUpdated := timestamp |}.

Definition upsertCooccurrence (timestamp : Timestamp) (idI idJ : Id) : M unit :=
  if String.eqb idI EmptyString || String.eqb idJ EmptyString then ret tt
  else
    let (entityA, entityB) := sortPair idI idJ in
    let coocId := edgeKey entityA entityB in
    do rows <- gets (fun w =>
         selectWhere (fun c => String.eqb (cooc_id c) coocId) (cooccurrences w));
    match head rows with
    | Some existing =>
        modify (setCooccurrences (updateWhere
          (fun c => String.eqb (cooc_id c) coocId)
          (bumpCooccurrence existing timestamp)))
    | None =>
        modify (setCooccurrences (insertRow
          {| cooc_id := coocId;
             cooc_entityA := entityA;
             cooc_entityB := entityB;
             cooc_count := 1;
             cooc_windowCount := 1;
             cooc_trajectoryCount := 1;
             cooc_contributorCount := 1;
             cooc_lastUpdated := timestamp |}))
    end.

Definition updateCooccurrences (entityIds : list Id) (trajectoryId : Id)
    (nearAccountId : string) (timestamp : Timestamp) : M unit :=
  if List.length entityIds <? 2 then ret tt
  else forPairs entityIds (upsertCooccurrence timestamp).

(** *** strengthenEdges *)

Definition bumpEdge (existing : Edge) (timestamp : Timestamp) (e : Edge) : Edge :=
  {| edge_id := edge_id e; edge_sourceEntityId := edge_sourceEntityId e;
     edge_targetEntityId := edge_targetEntityId e;
     edge_relationshipType := edge_relationshipType e;
     edge_weight := edge_weight existing + 1;
     edge_trajectoryCount := edge_trajectoryCount existing + 1;
     edge_contributorCount := edge_contributorCount e;
     edge_positiveOutcomes := edge_positiveOutcomes e;
     edge_negativeOutcomes := edge_negativeOutcomes e;
     edge_mixedOutcomes := edge_mixedOutcomes e;
     edge_firstSeen := edge_firstSeen e; edge_lastSeen := timestamp |}.

Definition newEdge (edgeId sourceId targetId : Id) (relationshipType : option string)
    (timestamp : Timestamp) : Edge :=
  {| edge_id := edgeId;
     edge_sourceEntityId := sourceId;
     edge_targetEntityId := targetId;
     edge_relationshipType := relationshipType;
     edge_weight := 1;
     edge_trajectoryCount := 1;
     edge_contributorCount := 1;
     edge_positiveOutcomes := 0;
     edge_negativeOutcomes := 0;
     edge_mixedOutcomes := 0;
     edge_firstSeen := timestamp;
     edge_lastSeen := timestamp |}.

(** One iteration of the loop of [strengthenEdges]; returns the edges pushed. *)
Definition strengthenStep (timestamp : Timestamp) (sourceId targetId : Id)
  : M (list EdgeInfo) :=
  if String.eqb sourceId EmptyString || String.eqb targetId EmptyString || String.eqb sourceId targetId
  then ret []
  else
    let edgeId := edgeKey sourceId targetId in
    do rows <- gets (fun w =>
         selectWhere (fun e => String.eqb (edge_id e) edgeId) (edges w));
    match head rows with
    | Some existing =>
        run modify (setEdges (updateWhere
              (fun e => String.eqb (edge_id e) edgeId) (bumpEdge existing timestamp)));
        ret [ {| gi_id := edge_id existing;
                 gi_sourceEntityId := edge_sourceEntityId existing;
                 gi_targetEntityId := edge_targetEntityId existing;
                 gi_relationshipType := edge_relationshipType existing;
                 gi_weight := edge_weight existing + 1 |} ]
    | None =>
        run modify (setEdges (insertRow (newEdge edgeId sourceId targetId None timestamp)));
        ret [ {| gi_id := edgeId;
                 gi_sourceEntityId := sourceId;
                 gi_targetEntityId := targetId;
                 gi_relationshipType := None;
                 gi_weight := 1 |} ]
    end.

(** [for (i = 0; i < entityIds.length - 1; i++)] over consecutive positions. *)
Fixpoint strengthenLoop (timestamp : Timestamp) (entityIds : list Id)
  : M (list EdgeInfo) :=
  match entityIds with
  | sourceId :: ((targetId :: _) as rest) =>
      do pushed <- strengthenStep timestamp sourceId targetId;
      do more <- strengthenLoop timestamp rest;
      ret (pushed ++ more)
  | _ => ret []
  end.

Definition strengthenEdges (entityIds : list Id) (trajectoryId : Id)
    (nearAccountId : string) (timestamp : Timestamp) : M (list EdgeInfo) :=
  if List.length entityIds <? 2 then ret []
  else strengthenLoop timestamp entityIds.

(** *** trackOutcomes *)

Definition hasType (ty : string) (e : Entity) : bool :=
  Js.optEqb (ent_entityType e) (Some ty).

Definition upsertOutcomeEdge (timestamp : Timestamp) (strategy outcome : Entity) : M unit :=
  let edgeId := edgeKey (ent_id strategy) (ent_id outcome) in
  do rows <- gets (fun w =>
       selectWhere (fun e => String.eqb (edge_id e) edgeId) (edges w));
  match head rows with
  | Some existing =>
      modify (setEdges (updateWhere
        (fun e => String.eqb (edge_id e) edgeId) (bumpEdge existing timestamp)))
  | None =>
      modify (setEdges (insertRow
        (newEdge edgeId (ent_id strategy) (ent_id outcome) (Some "leads_to") timestamp)))
  end.

Definition trackOutcomes (entityIds : list Id) (timestamp : Timestamp) : M unit :=
  match entityIds with
  | [] => ret tt
  | _ =>
      do rows <- gets (fun w =>
           selectWhere (fun e => inArray (ent_id e) entityIds) (entities w));
      let outcomes := List.filter (hasType "outcome") rows in
      let strategies := List.filter (hasType "strategy") rows in
      match outcomes, strategies with
      | [], _ | _, [] => ret tt
      | _, _ =>
          forEach strategies (fun strategy =>
            forEach outcomes (fun outcome =>
              upsertOutcomeEdge timestamp strategy outcome))
      end
  end.

(** *** completeTrajectory *)

Definition entityIdsOf (ty : EventType) (evs : list Event) : list Id :=
  flat_map (fun e =>
    if EventType_eqb (ev_eventType e) ty && Js.truthy (ev_entityId e)
    then match ev_entityId e with Some i => [i] | None => [] end
    else []) evs.

Definition bumpTrajectoryCount (e : Entity) : Entity :=
  {| ent_id := ent_id e; ent_name := ent_name e;
     ent_normalizedName := ent_normalizedName e;
     ent_entityType := ent_entityType e; ent_description := ent_description e;
     ent_touchCount := ent_touchCount e;
     ent_trajectoryCount := ent_trajectoryCount e + 1;
     ent_contributorCount := ent_contributorCount e;
     ent_firstSeen := ent_firstSeen e; ent_lastSeen := ent_lastSeen e |}.

Definition bumpContributionTrajectoryCount (c : EntityContribution) : EntityContribution :=
  {| ctb_id := ctb_id c; ctb_entityId := ctb_entityId c;
     ctb_nearAccountId := ctb_nearAccountId c;
     ctb_firstTrajectoryId := ctb_firstTrajectoryId c;
     ctb_touchCount := ctb_touchCount c;
     ctb_trajectoryCount := ctb_trajectoryCount c + 1;
     ctb_firstSeen := ctb_firstSeen c; ctb_lastSeen := ctb_lastSeen c |}.

Definition entityInfo (e : Entity) : EntityInfo :=
  {| ei_id := ent_id e; ei_name := ent_name e; ei_entityType := ent_entityType e;
     ei_description := ent_description e; ei_touchCount := ent_touchCount e |}.

(** [new Map(rows.map(e => [e.id, e])).get(id)]: the last row wins. *)
Definition entityMapGet (rows : list Entity) (id : Id) : option Entity :=
  find (fun e => String.eqb (ent_id e) id) (rev rows).

Definition lookupInfos (rows : list Entity) (ids : list Id) : list EntityInfo :=
  flat_map (fun id =>
    match entityMapGet rows id with
    | Some e => [entityInfo e]
    | None => []
    end) ids.

(** The events of a walk as [completeTrajectory] reads them back, and the
    entity ids it collects from them. *)
Definition walkEvents (w : World) (trajectoryId : Id) : list Event :=
  Js.sortBy (fun a b => ev_sequenceNum a <? ev_sequenceNum b)
    (selectWhere (fun e => String.eqb (ev_trajectoryId e) trajectoryId) (events w)).

Definition touchedIds (w : World) (trajectoryId : Id) : list Id :=
  Js.unique (entityIdsOf Touch (walkEvents w trajectoryId)).

Definition discoveredIds (w : World) (trajectoryId : Id) : list Id :=
  Js.unique (entityIdsOf Discover (walkEvents w trajectoryId)).

Definition allIds (w : World) (trajectoryId : Id) : list Id :=
  Js.unique (touchedIds w trajectoryId ++ discoveredIds w trajectoryId).

Definition completeTrajectory (trajectoryId : Id) (nearAccountId : string)
    (summary : option string) : M Completion :=
  do now <- newDate;
  run modify (setTrajectories (updateWhere
        (fun t => String.eqb (traj_id t) trajectoryId)
        (fun t =>
           {| traj_id := traj_id t; traj_nearAccountId := traj_nearAccountId t;
              traj_conversationId := traj_conversationId t;
              traj_inputText := traj_inputText t; traj_inputHash := traj_inputHash t;
              traj_summary := summary;
              traj_startedAt := traj_startedAt t;
              traj_completedAt := Some now |})));
  do touchedEntityIds <- gets (fun w => touchedIds w trajectoryId);
  do discoveredEntityIds <- gets (fun w => discoveredIds w trajectoryId);
  do allEntityIds <- gets (fun w => allIds w trajectoryId);
  run (match allEntityIds with
       | [] => ret tt
       | _ => modify (setEntities (updateWhere
                (fun e => inArray (ent_id e) allEntityIds) bumpTrajectoryCount))
       end);
  run forEach allEntityIds (fun entityId =>
        modify (setContributions (updateWhere
          (contributionOf entityId nearAccountId) bumpContributionTrajectoryCount)));
  run updateCooccurrences allEntityIds trajectoryId nearAccountId now;
  do traversed <- strengthenEdges touchedEntityIds trajectoryId nearAccountId now;
  run trackOutcomes allEntityIds now;
  do rows <- gets (fun w =>
       match allEntityIds with
       | [] => []
       | _ => selectWhere (fun e => inArray (ent_id e) allEntityIds) (entities w)
       end);
  run modify (setSequenceCounters (fun m => delete trajectoryId m));
  ret {| entitiesDiscovered := lookupInfos rows discoveredEntityIds;
         entitiesTouched := lookupInfos rows touchedEntityIds;
         edgesTraversed := traversed |}.

(** *** getTrajectory and listTrajectories *)

Record TrajectoryInfo := {
  ti_id : Id;
  ti_inputText : string;
  ti_summary : option string;
  ti_startedAt : Timestamp;
  ti_completedAt : option Timestamp
}.

Record EventView := {
  view_id : Id;
  view_sequenceNum : nat;
  view_timestamp : Timestamp;
  view_eventType : EventType;
  view_entityId : option Id;
  view_data : option Json
}.

Record TrajectoryView := {
  tv_trajectory : TrajectoryInfo;
  tv_events : list EventView;
  tv_entitiesTouched : list EntityInfo
}.

Definition trajectoryInfo (t : Trajectory) : TrajectoryInfo :=
  {| ti_id := traj_id t; ti_inputText := traj_inputText t; ti_summary := traj_summary t;
     ti_startedAt := traj_startedAt t; ti_completedAt := traj_completedAt t |}.

(** [JSON.parse(JSON.stringify(v))] for a value inside an object or array:
    fields whose value is [undefined] are dropped, [undefined] array elements
    become [null]. *)
Fixpoint reparse (v : Json) : Json :=
  match v with
  | JArr l =>
      JArr (map (fun x => match x with JUndefined => JNull | _ => reparse x end) l)
  | JObj fields =>
      JObj ((fix dropUndefined (fs : list (string * Json)) : list (string * Json) :=
               match fs with
               | [] => []
               | (k, JUndefined) :: r => dropUndefined r
               | (k, x) :: r => (k, reparse x) :: dropUndefined r
               end) fields)
  | _ => v
  end.

Definition eventView (e : Event) : EventView :=
  {| view_id := ev_id e; view_sequenceNum := ev_sequenceNum e;
     view_timestamp := ev_timestamp e; view_eventType := ev_eventType e;
     view_entityId := ev_entityId e;
     view_data := match ev_data e with Some d => Some (reparse d) | None => None end |}.

Definition getTrajectory (w : World) (id : Id) : option TrajectoryView :=
  match head (selectWhere (fun t => String.eqb (traj_id t) id) (trajectories w)) with
  | None => None
  | Some trajectory =>
      let evs := walkEvents w id in
      let entityIds :=
        flat_map (fun e => if Js.truthy (ev_entityId e)
                           then match ev_entityId e with Some i => [i] | None => [] end
                           else []) evs in
      let rows :=
        match entityIds with
        | [] => []
        | _ => selectWhere (fun e => inArray (ent_id e) entityIds) (entities w)
        end in
      Some {| tv_trajectory := trajectoryInfo trajectory;
              tv_events := map eventView evs;
              tv_entitiesTouched := map entityInfo rows |}
  end.

Definition listTrajectories (w : World) (nearAccountId : string) (limit : nat)
    (conversationId : option Id) : list TrajectoryInfo :=
  map trajectoryInfo
    (firstn limit
       (Js.sortBy (fun a b => traj_startedAt b <? traj_startedAt a)
          (selectWhere
             (fun t => String.eqb (traj_nearAccountId t) nearAccountId
                       && (if Js.truthy conversationId
                           then Js.optEqb (traj_conversationId t) conversationId
                           else true))
             (trajectories w)))).

End TrajectoryEngine.

(* ===================================================================== *)
(** ** GraphReasoner ([services/graph-reasoner.ts]) *)
(* ===================================================================== *)

Module GraphReasoner.

Record EntityInput := {
  in_name : string;
  in_type : option string
}.

Record ResolvedEntity := {
  re_id : Id;
  re_name : string;
  re_entityType : option string;
  re_touchCount : nat;
  re_trajectoryCount : nat;
  re_contributorCount : nat
}.

Record Evidence := {
  evd_edgeWeight : nat;
  evd_positiveCount : nat;
  evd_negativeCount : nat;
  evd_mixedCount : nat;
  evd_contributorCount : nat
}.

Record OutcomeProjection := {
  op_outcome : string;
  op_outcomeId : Id;
  op_probability : Q;
  op_evidence : Evidence
}.

Inductive Effect := Improves | Reduces | Mixed.

Record Rate := {
  positiveRate : Q;
  rateWeight : nat
}.

Record OutcomeShift := {
  os_effect : Effect;
  os_magnitude : Q;
  os_withEntity : Rate;
  os_withoutEntity : Rate
}.

Record Differentiator := {
  df_entity : ResolvedEntity;
  df_role : option string;
  df_effect : Effect;
  df_magnitude : Q;
  df_cooccurrenceStrength : nat;
  df_outcomeShift : Rate * Rate
}.

Record SimulationResult := {
  sim_resolved : list ResolvedEntity;
  sim_unresolved : list string;
  sim_outcomes : list OutcomeProjection;
  sim_differentiators : list Differentiator;
  sim_totalObservations : nat;
  sim_outcomeCount : nat;
  sim_hasPatterns : bool
}.

Inductive NetEffect := Positive | Negative | Neutral | Uncertain.

Record ShiftRow := {
  sh_outcome : string;
  sh_originalProbability : Q;
  sh_alternativeProbability : Q;
  sh_delta : Q
}.

Record Comparison := {
  cmp_outcomeShifts : list ShiftRow;
  cmp_netEffect : NetEffect;
  cmp_recommendation : string
}.

Record Change := {
  change_from : EntityInput;
  change_to : EntityInput
}.

Record CounterfactualResult := {
  cf_original : SimulationResult;
  cf_alternative : SimulationResult;
  cf_change : Change;
  cf_comparison : Comparison
}.

Definition Qltb (x y : Q) : bool := negb (Qle_bool y x).

(** *** resolveEntities *)

(** ASCII case folding of SQLite's [LIKE]. *)
Definition likeFold (c : ascii) : ascii :=
  let n := Js.code c in
  if Js.between 65 90 n then ascii_of_nat (n + 32) else c.

(** [text LIKE pattern] with the wildcards [%] and [_]. *)
Fixpoint like (pattern text : string) : bool :=
  match pattern with
  | EmptyString => match text with EmptyString => true | _ => false end
  | String p rest =>
      if Ascii.eqb p "%" then
        (fix star (t : string) : bool :=
           like rest t ||
           match t with
           | EmptyString => false
           | String _ t' => star t'
           end) text
      else
        match text with
        | EmptyString => false
        | String c t' =>
            (Ascii.eqb p "_" || Ascii.eqb (likeFold p) (likeFold c)) && like rest t'
        end
  end.

Definition typeCondition (ty : option string) (e : Entity) : bool :=
  if Js.truthy ty then Js.optEqb (ent_entityType e) ty else true.

(** [ORDER BY touch_count DESC LIMIT 1] is the first row of the stable sort:
    among candidates of equal count the model takes the one inserted first,
    where the store is free to return any of them. *)
Definition resolveOne (w : World) (input : EntityInput) : option Entity :=
  let normalized := Js.trim (Js.toLowerCase (in_name input)) in
  match head (selectWhere
                (fun e => String.eqb (ent_normalizedName e) normalized
                          && typeCondition (in_type input) e)
                (entities w)) with
  | Some e => Some e
  | None =>
      head (Js.sortBy (fun a b => ent_touchCount b <? ent_touchCount a)
              (selectWhere
                 (fun e => like ("%" +:+ normalized +:+ "%") (ent_normalizedName e)
                           && typeCondition (in_type input) e)
                 (entities w)))
  end.

Definition resolvedOf (e : Entity) : ResolvedEntity :=
  {| re_id := ent_id e; re_name := ent_name e; re_entityType := ent_entityType e;
     re_touchCount := ent_touchCount e; re_trajectoryCount := ent_trajectoryCount e;
     re_contributorCount := ent_contributorCount e |}.

Fixpoint resolveEntities (w : World) (inputs : list EntityInput)
  : list ResolvedEntity * list string :=
  match inputs with
  | [] => ([], [])
  | input :: rest =>
      let (resolved, unresolved) := resolveEntities w rest in
      match resolveOne w input with
      | Some e => (resolvedOf e :: resolved, unresolved)
      | None => (resolved, in_name input :: unresolved)
      end
  end.

(** *** projectOutcomesFromEdges *)

(** [edge INNER JOIN entity ON key(edge) = entity.id], edge-major. *)
Definition joinEntity (key : Edge -> Id) (es : list Edge) (ents : list Entity)
  : list (Edge * Entity) :=
  flat_map (fun e =>
    map (fun o => (e, o)) (List.filter (fun o => String.eqb (key e) (ent_id o)) ents)) es.

Definition forwardOutcomeEdges (w : World) (inputEntityIds : list Id) : list (Edge * Entity) :=
  Js.sortBy (fun a b => edge_weight (fst b) <? edge_weight (fst a))
    (List.filter
       (fun r => inArray (edge_sourceEntityId (fst r)) inputEntityIds
                 && TrajectoryEngine.hasType "outcome" (snd r))
       (joinEntity edge_targetEntityId (edges w) (entities w))).

Definition reverseOutcomeEdges (w : World) (inputEntityIds : list Id) : list (Edge * Entity) :=
  List.filter
    (fun r => inArray (edge_targetEntityId (fst r)) inputEntityIds
              && TrajectoryEngine.hasType "outcome" (snd r))
    (joinEntity edge_sourceEntityId (edges w) (entities w)).

Record OutcomeAcc := {
  acc_outcome : Entity;
  acc_totalWeight : nat;
  acc_positiveCount : nat;
  acc_negativeCount : nat;
  acc_mixedCount : nat;
  acc_contributorCount : nat
}.

(** One iteration of the merge loop on the insertion-ordered [outcomeMap]. *)
Fixpoint mergeEdge (edge : Edge) (outcome : Entity) (m : list (Id * OutcomeAcc))
  : list (Id * OutcomeAcc) :=
  match m with
  | [] =>
      [(ent_id outcome,
        {| acc_outcome := outcome;
           acc_totalWeight := edge_weight edge;
           acc_positiveCount := edge_positiveOutcomes edge;
           acc_negativeCount := edge_negativeOutcomes edge;
           acc_mixedCount := edge_mixedOutcomes edge;
           acc_contributorCount := edge_contributorCount edge |})]
  | (k, existing) :: r =>
      if String.eqb k (ent_id outcome) then
        (k, {| acc_outcome := acc_outcome existing;
               acc_totalWeight := acc_totalWeight existing + edge_weight edge;
               acc_positiveCount := acc_positiveCount existing + edge_positiveOutcomes edge;
               acc_negativeCount := acc_negativeCount existing + edge_negativeOutcomes edge;
               acc_mixedCount := acc_mixedCount existing + edge_mixedOutcomes edge;
               acc_contributorCount :=
                 Nat.max (acc_contributorCount existing) (edge_contributorCount edge) |}) :: r
      else (k, existing) :: mergeEdge edge outcome r
  end.

Definition mergeOutcomes (allEdges : list (Edge * Entity)) : list (Id * OutcomeAcc) :=
  fold_left (fun m r => mergeEdge (fst r) (snd r) m) allEdges [].

Definition sumWeights (m : list (Id * OutcomeAcc)) : nat :=
  fold_left (fun sum o => sum + acc_totalWeight (snd o)) m 0.

(** [a / b] for two counters, as the exact quotient. *)
Definition ratio (a b : nat) : Q := inject_Z (Z.of_nat a) / inject_Z (Z.of_nat b).



Definition projection (totalWeight : nat) (entry : Id * OutcomeAcc) : OutcomeProjection :=
  let (outcomeId, data) := entry in
  {| op_outcome := ent_name (acc_outcome data);
     op_outcomeId := outcomeId;
     op_probability := if 0 <? totalWeight then ratio (acc_totalWeight data) totalWeight else 0%Q;
     op_evidence :=
       {| evd_edgeWeight := acc_totalWeight data;
          evd_positiveCount := acc_positiveCount data;
          evd_negativeCount := acc_negativeCount data;
          evd_mixedCount := acc_mixedCount data;
          evd_contributorCount := acc_contributorCount data |} |}.

Definition byProbabilityDesc (a b : OutcomeProjection) : bool :=
  Qltb (op_probability b) (op_probability a).

(** The distribution built from a merged map. *)
Definition distribution (outcomeMap : list (Id * OutcomeAcc)) : list OutcomeProjection :=
  let totalWeight := sumWeights outcomeMap in
  Js.sortBy byProbabilityDesc (map (projection totalWeight) outcomeMap).

Definition projectOutcomesFromEdges (w : World) (inputEntityIds : list Id)
  : list OutcomeProjection :=
  let outcomeEdges := forwardOutcomeEdges w inputEntityIds in
  match outcomeEdges with
  | [] => []
  | _ =>
      let reverseEdges := reverseOutcomeEdges w inputEntityIds in
      let allEdges := outcomeEdges ++ reverseEdges in
      distribution (mergeOutcomes allEdges)
  end.

(** *** getOutcomeEdgesForEntity and computeOutcomeShift *)

Record OutcomeEdge := {
  oe_outcomeId : Id;
  oe_outcomeName : string;
  oe_weight : nat;
  oe_positiveCount : nat;
  oe_negativeCount : nat
}.

Definition getOutcomeEdgesForEntity (w : World) (entityId : Id) : list OutcomeEdge :=
  map (fun r =>
         {| oe_outcomeId := ent_id (snd r);
            oe_outcomeName := ent_name (snd r);
            oe_weight := edge_weight (fst r);
            oe_positiveCount := edge_positiveOutcomes (fst r);
            oe_negativeCount := edge_negativeOutcomes (fst r) |})
      (List.filter
         (fun r => String.eqb (edge_sourceEntityId (fst r)) entityId
                   && TrajectoryEngine.hasType "outcome" (snd r))
         (joinEntity edge_targetEntityId (edges w) (entities w))).

Definition sumOf {A} (f : A -> nat) (l : list A) : nat :=
  fold_left (fun sum e => sum + f e) l 0.

Definition baselineRate : Q := 5 # 10.
Definition tenth : Q := 1 # 10.

Definition computeOutcomeShift (outcomeEdges : list OutcomeEdge) : OutcomeShift :=
  let totalWeight := sumOf oe_weight outcomeEdges in
  let totalPositive := sumOf oe_positiveCount outcomeEdges in
  let totalNegative := sumOf oe_negativeCount outcomeEdges in
  let totalOutcomes := totalPositive + totalNegative in
  let rate := if 0 <? totalOutcomes then ratio totalPositive totalOutcomes else baselineRate in
  let magnitude := Qabs (rate - baselineRate) in
  let effect :=
    if Qltb (baselineRate + tenth) rate then Improves
    else if Qltb rate (baselineRate - tenth) then Reduces
    else Mixed in
  {| os_effect := effect;
     os_magnitude := magnitude;
     os_withEntity := {| positiveRate := rate; rateWeight := totalWeight |};
     os_withoutEntity := {| positiveRate := baselineRate; rateWeight := 0 |} |}.

(** *** findDifferentiatorsFromStructure *)

Definition differentiatorRole (e : Entity) : bool :=
  TrajectoryEngine.hasType "context" e || TrajectoryEngine.hasType "constraint" e
  || TrajectoryEngine.hasType "strategy" e.

(** [cooccurrence INNER JOIN entity ON entityB = id OR entityA = id]. *)
Definition joinCooccurrence (cs : list Cooccurrence) (ents : list Entity)
  : list (Cooccurrence * Entity) :=
  flat_map (fun c =>
    map (fun e => (c, e))
        (List.filter (fun e => String.eqb (cooc_entityB c) (ent_id e)
                               || String.eqb (cooc_entityA c) (ent_id e)) ents)) cs.

Definition cooccurringEntities (w : World) (inputEntityIds : list Id)
  : list (Cooccurrence * Entity) :=
  Js.sortBy (fun a b => cooc_count (fst b) <? cooc_count (fst a))
    (List.filter
       (fun r => (inArray (cooc_entityA (fst r)) inputEntityIds
                  || inArray (cooc_entityB (fst r)) inputEntityIds)
                 && differentiatorRole (snd r))
       (joinCooccurrence (cooccurrences w) (entities w))).

(** The body of the candidate loop: the differentiators pushed for one row. *)
Definition differentiatorOf (w : World) (inputEntityIds : list Id)
    (row : Cooccurrence * Entity) : list Differentiator :=
  let (cooc, entity) := row in
  if inArray (ent_id entity) inputEntityIds then []
  else
    let withEntityOutcomes := getOutcomeEdgesForEntity w (ent_id entity) in
    let outcomeShift := computeOutcomeShift withEntityOutcomes in
    if Qltb tenth (Qabs (os_magnitude outcomeShift)) then
      [ {| df_entity := resolvedOf entity;
           df_role := ent_entityType entity;
           df_effect := os_effect outcomeShift;
           df_magnitude := os_magnitude outcomeShift;
           df_cooccurrenceStrength := cooc_count cooc;
           df_outcomeShift := (os_withEntity outcomeShift, os_withoutEntity outcomeShift) |} ]
    else [].

Definition findDifferentiatorsFromStructure (w : World) (inputEntityIds : list Id)
  : list Differentiator :=
  let cooccurrences := cooccurringEntities w inputEntityIds in
  let candidateEntities :=
    firstn 20 (List.filter (fun r => negb (inArray (ent_id (snd r)) inputEntityIds))
                 cooccurrences) in
  let differentiators := flat_map (differentiatorOf w inputEntityIds) candidateEntities in
  firstn 5 (Js.sortBy (fun a b => Qltb (df_magnitude b) (df_magnitude a)) differentiators).

(** *** simulate *)

Definition emptyResult (inputs : list EntityInput) (unresolved : list string)
  : SimulationResult :=
  {| sim_resolved := []; sim_unresolved := unresolved;
     sim_outcomes := []; sim_differentiators := [];
     sim_totalObservations := 0; sim_outcomeCount := 0; sim_hasPatterns := false |}.

Definition simulate (w : World) (inputs : list EntityInput) : SimulationResult :=
  let (resolved, unresolved) := resolveEntities w inputs in
  match resolved with
  | [] => emptyResult inputs unresolved
  | _ =>
      let entityIds := map re_id resolved in
      let outcomes := projectOutcomesFromEdges w entityIds in
      let differentiators := findDifferentiatorsFromStructure w entityIds in
      let totalObservations := sumOf (fun o => evd_edgeWeight (op_evidence o)) outcomes in
      {| sim_resolved := resolved; sim_unresolved := unresolved;
         sim_outcomes := outcomes; sim_differentiators := differentiators;
         sim_totalObservations := totalObservations;
         sim_outcomeCount := List.length outcomes;
         sim_hasPatterns := (0 <? List.length outcomes) || (0 <? List.length differentiators) |}
  end.

(** *** counterfactual *)

Definition matchesFrom (from input : EntityInput) : bool :=
  String.eqb (Js.toLowerCase (in_name input)) (Js.toLowerCase (in_name from))
  && (negb (Js.truthy (in_type from)) || Js.optEqb (in_type input) (in_type from)).

(** [alternativeInputs.some((alt, i) => alt.name !== baseInputs[i]?.name)]
    for two arrays of the same length. *)
Fixpoint someNameDiffers (alts base : list EntityInput) : bool :=
  match alts, base with
  | alt :: alts', b :: base' =>
      negb (String.eqb (in_name alt) (in_name b)) || someNameDiffers alts' base'
  | _, _ => false
  end.

Definition alternativeInputs (baseInputs : list EntityInput) (change : Change)
  : list EntityInput :=
  let mapped :=
    map (fun input => if matchesFrom (change_from change) input
                      then change_to change else input) baseInputs in
  let swapped := someNameDiffers mapped baseInputs in
  if swapped then mapped
  else
    let filtered :=
      List.filter (fun input =>
        negb (String.eqb (Js.toLowerCase (in_name input))
                         (Js.toLowerCase (in_name (change_from change))))) baseInputs in
    filtered ++ [change_to change].

(** *** compareOutcomes *)

Definition probabilityOf (outcome : string) (outcomes : list OutcomeProjection) : Q :=
  match find (fun o => String.eqb (op_outcome o) outcome) outcomes with
  | Some o => op_probability o
  | None => 0%Q
  end.

Definition positiveOutcomes : list string :=
  ["improved"; "success"; "understanding"; "mastery"; "effective"].

Definition sumQ (l : list Q) : Q := fold_left Qplus l 0%Q.

(** [Math.round]: the nearest integer, halves towards positive infinity. *)
Definition mathRound (x : Q) : Z := Qfloor (x + (1 # 2)).

Definition showZ (z : Z) : string := DecimalString.NilZero.string_of_int (Z.to_int z).

Definition quoted (s : string) : string :=
  String (ascii_of_nat 34) s +:+ String (ascii_of_nat 34) EmptyString.

Definition recommendationFor (netEffect : NetEffect) (outcomeShifts : list ShiftRow)
    (change : Change) : string :=
  let fromName := in_name (change_from change) in
  let toName := in_name (change_to change) in
  match netEffect with
  | Uncertain =>
      "Insufficient documented patterns to compare " +:+ quoted fromName
      +:+ " vs " +:+ quoted toName +:+ "."
  | Positive =>
      let bestShift := find (fun s => Qltb 0 (sh_delta s)) outcomeShifts in
      quoted toName +:+ " shows improved outcomes (+"
      +:+ showZ (mathRound (match bestShift with Some s => sh_delta s | None => 0 end * 100))
      +:+ "% for "
      +:+ match bestShift with Some s => sh_outcome s | None => "undefined" end +:+ ")."
  | Negative =>
      let worstShift := find (fun s => Qltb (sh_delta s) 0) outcomeShifts in
      quoted fromName +:+ " appears more effective. " +:+ quoted toName +:+ " shows -"
      +:+ showZ (mathRound (Qabs (match worstShift with Some s => sh_delta s | None => 0 end) * 100))
      +:+ "% for "
      +:+ match worstShift with Some s => sh_outcome s | None => "undefined" end +:+ "."
  | Neutral =>
      "No significant difference between " +:+ quoted fromName +:+ " and "
      +:+ quoted toName +:+ " in accumulated evidence."
  end.

(** The deltas and the 0.05 threshold are exact here; the source subtracts
    and compares doubles, so a sum of deltas that lies on the threshold may
    fall on either side of it there. *)
Definition compareOutcomes (original alternative : SimulationResult) (change : Change)
  : Comparison :=
  let allOutcomes :=
    Js.unique (map op_outcome (sim_outcomes original)
               ++ map op_outcome (sim_outcomes alternative)) in
  let outcomeShifts :=
    Js.sortBy (fun a b => Qltb (Qabs (sh_delta b)) (Qabs (sh_delta a)))
      (map (fun outcome =>
              let origProb := probabilityOf outcome (sim_outcomes original) in
              let altProb := probabilityOf outcome (sim_outcomes alternative) in
              {| sh_outcome := outcome;
                 sh_originalProbability := origProb;
                 sh_alternativeProbability := altProb;
                 sh_delta := altProb - origProb |}) allOutcomes) in
  let positiveShift :=
    sumQ (map sh_delta
            (List.filter
               (fun s => existsb (fun p => Js.includes (Js.toLowerCase (sh_outcome s)) p)
                           positiveOutcomes) outcomeShifts)) in
  let netEffect0 :=
    if Qltb (Qabs positiveShift) (5 # 100) then Neutral
    else if Qltb 0 positiveShift then Positive
    else Negative in
  let minEvidence := Nat.min (sim_totalObservations original)
                             (sim_totalObservations alternative) in
  let netEffect := if minEvidence <? 5 then Uncertain else netEffect0 in
  {| cmp_outcomeShifts := outcomeShifts;
     cmp_netEffect := netEffect;
     cmp_recommendation := recommendationFor netEffect outcomeShifts change |}.

Definition counterfactual (w : World) (baseInputs : list EntityInput) (change : Change)
  : CounterfactualResult :=
  let original := simulate w baseInputs in
  let alternative := simulate w (alternativeInputs baseInputs change) in
  {| cf_original := original;
     cf_alternative := alternative;
     cf_change := change;
     cf_comparison := compareOutcomes original alternative change |}.

End GraphReasoner.

(* ===================================================================== *)
(** ** Tag extraction ([AgentService.extractEntities]) *)
(* ===================================================================== *)

Module TagParser.

Record ExtractedEntity := {
  ee_name : string;
  ee_type : string
}.

(** The longest prefix of [s] made of characters that satisfy [p], and what
    follows it: a greedy character-class repetition. *)
Fixpoint span (p : ascii -> bool) (s : string) : string * string :=
  match s with
  | EmptyString => (EmptyString, EmptyString)
  | String c r =>
      if p c then let (a, b) := span p r in (String c a, b)
      else (EmptyString, s)
  end.

Definition notBracket (c : ascii) : bool := negb (Ascii.eqb c "]").
Definition notBracketColon (c : ascii) : bool :=
  negb (Ascii.eqb c "]") && negb (Ascii.eqb c ":").

(** [/\[\[(\w+):([^\]]+)\]\]/] anchored at the start of [s]: the two
    captures and the length of the match.  Each repetition is followed by a
    character outside its class, so giving back characters never helps and
    the greedy choice is the only candidate. *)
Definition matchTypedAt (s : string) : option (string * string * nat) :=
  match s with
  | String "[" (String "[" r) =>
      let (w, r1) := span Js.isWord r in
      match w, r1 with
      | String _ _, String ":" r2 =>
          let (c, r3) := span notBracket r2 in
          match c, r3 with
          | String _ _, String "]" (String "]" _) =>
              Some (w, c, String.length w + String.length c + 5)
          | _, _ => None
          end
      | _, _ => None
      end
  | _ => None
  end.

(** [/\[\[([^\]:]+)\]\]/] anchored at the start of [s]. *)
Definition matchUntypedAt (s : string) : option (string * nat) :=
  match s with
  | String "[" (String "[" r) =>
      let (c, r1) := span notBracketColon r in
      match c, r1 with
      | String _ _, String "]" (String "]" _) => Some (c, String.length c + 4)
      | _, _ => None
      end
  | _ => None
  end.

(** The [while ((match = regex.exec(text)) !== null)] loop of a global
    regular expression: the leftmost match from [lastIndex] on, then again
    from the end of that match.  [skip] counts the characters of [s] that
    lie before [lastIndex]. *)
Fixpoint execAll {A} (matchAt : string -> option (A * nat)) (skip : nat) (s : string)
  : list A :=
  match skip with
  | S k =>
      match s with
      | EmptyString => []
      | String _ r => execAll matchAt k r
      end
  | O =>
      match matchAt s with
      | Some (captures, len) =>
          captures ::
          match s with
          | EmptyString => []
          | String _ r => execAll matchAt (len - 1) r
          end
      | None =>
          match s with
          | EmptyString => []
          | String _ r => execAll matchAt 0 r
          end
      end
  end.

Definition typedMatches (text : string) : list (string * string) :=
  execAll matchTypedAt 0 text.

Definition untypedMatches (text : string) : list string :=
  execAll matchUntypedAt 0 text.

Definition seenKey (type name : string) : string := type +:+ ":" +:+ name.

(** The body shared by the two loops: push unless the key was seen. *)
Definition pushUnseen (st : list ExtractedEntity * gset string) (type name : string)
  : list ExtractedEntity * gset string :=
  let (found, seen) := st in
  let key := seenKey type name in
  if decide (key ∈ seen) then st
  else (found ++ [ {| ee_name := name; ee_type := type |} ], {[ key ]} ∪ seen).

Definition typedPass (text : string) (st : list ExtractedEntity * gset string)
  : list ExtractedEntity * gset string :=
  fold_left (fun st m =>
               let type := Js.trim (Js.toLowerCase (fst m)) in
               let name := Js.toLowerCase (Js.trim (snd m)) in
               pushUnseen st type name)
            (typedMatches text) st.

Definition untypedPass (text : string) (st : list ExtractedEntity * gset string)
  : list ExtractedEntity * gset string :=
  fold_left (fun st m =>
               let name := Js.toLowerCase (Js.trim m) in
               pushUnseen st "topic" name)
            (untypedMatches text) st.

Definition extractEntities (text : string) : list ExtractedEntity :=
  fst (untypedPass text (typedPass text ([], ∅))).

(** The tag a mention is written as. *)
Definition emitTag (e : ExtractedEntity) : string :=
  "[[" +:+ ee_type e +:+ ":" +:+ ee_name e +:+ "]]".

End TagParser.

(* ===================================================================== *)
(** ** The unary chat turn ([AgentService.processMessage]) *)
(* ===================================================================== *)

Module AgentService.

Import TrajectoryEngine.

(** What the call to the language model came to: a completion whose first
    choice may lack content, or an exception. *)
Inductive LlmOutcome :=
| Completed (content : option string)
| Threw.

Record ChatMessage := {
  cm_id : Id;
  cm_content : string;
  cm_trajectoryId : option Id;
  cm_createdAt : Timestamp
}.

Record ChatResponse := {
  cr_conversationId : Id;
  cr_message : ChatMessage;
  cr_trajectoryId : Id;
  cr_trajectory : Completion
}.

(** [s.slice(0, n)] *)
Fixpoint sliceTo (n : nat) (s : string) : string :=
  match n, s with
  | S k, String c r => String c (sliceTo k r)
  | _, _ => EmptyString
  end.

Definition showNat (n : nat) : string := GraphReasoner.showZ (Z.of_nat n).

Definition createConversation (nearAccountId firstMessage : string) : M Id :=
  do conversationId <- newId;
  do now <- newDate;
  run modify (setConversations (insertRow
        {| conv_id := conversationId;
           conv_nearAccountId := nearAccountId;
           conv_title := None;
           conv_createdAt := now;
           conv_updatedAt := now |}));
  ret conversationId.

Definition getConversationHistory (conversationId : Id) (limit : nat) : M (list Message) :=
  gets (fun w =>
    rev (firstn limit
           (Js.sortBy (fun a b => msg_createdAt b <? msg_createdAt a)
              (selectWhere (fun m => String.eqb (msg_conversationId m) conversationId)
                 (messages w))))).

Definition tagData (source : string) (entity : TagParser.ExtractedEntity)
  : list (string * Json) :=
  [("source", JStr source);
   ("name", JStr (TagParser.ee_name entity));
   ("entityType", JStr (TagParser.ee_type entity))].

Definition alternativesOf (simulation : option GraphReasoner.SimulationResult) : Json :=
  match simulation with
  | Some sim =>
      JArr (map (fun o => JStr (GraphReasoner.op_outcome o))
                (firstn 3 (GraphReasoner.sim_outcomes sim)))
  | None => JUndefined
  end.

(** [messageContext] stands for [extractContextFromMessage(message)], whose
    advisory pattern families only feed the [_context] payload of events.
    [llm] is what the chat-completion call came to.  The turn returns when the
    store accepts its first insert, the trajectory's: a conversation id that
    is given must be the id of a conversation ([refers hasConversation]); the
    rows written after that refer to rows that the turn itself has written. *)
Definition processMessage (nearAccountId message : string) (conversationId : option Id)
    (messageContext : DecisionContext) (llm : LlmOutcome) : M ChatResponse :=
  do now <- newDate;
  do convId <-
    match conversationId with
    | Some c => ret c
    | None => createConversation nearAccountId message
    end;
  do trajectoryId <- startTrajectory nearAccountId message (Some convId);
  do userMessageId <- newId;
  run modify (setMessages (insertRow
        {| msg_id := userMessageId; msg_conversationId := convId;
           msg_role := RoleUser; msg_content := message;
           msg_trajectoryId := None; msg_createdAt := now |}));
  let contextOrUndefined :=
    match messageContext with [] => None | _ => Some messageContext end in
  let mentionedEntities := TagParser.extractEntities message in
  do entitiesTouched <-
    foldM mentionedEntities (fun touched entity =>
      do entityId <- findOrCreateEntity nearAccountId trajectoryId
                       (TagParser.ee_name entity) (Some (TagParser.ee_type entity)) None;
      run logEvent trajectoryId
            {| te_type := Touch; te_entityId := Some entityId;
               te_data := Some (tagData "user_input" entity);
               te_context := contextOrUndefined |};
      ret (touched ++ [entityId])) [];
  let simulationInput :=
    map (fun e => {| GraphReasoner.in_name := TagParser.ee_name e;
                     GraphReasoner.in_type := Some (TagParser.ee_type e) |})
        mentionedEntities in
  do simulation <-
    match simulationInput with
    | [] => ret None
    | _ => gets (fun w => Some (GraphReasoner.simulate w simulationInput))
    end;
  do history <- getConversationHistory convId 10;
  run logEvent trajectoryId
        {| te_type := Reason; te_entityId := None;
           te_data := Some
             [("action", JStr "preparing_response");
              ("context", JObj
                 [("entitiesTouched", JNum (List.length entitiesTouched));
                  ("hasSimulation", JBool (match simulation with Some _ => true | None => false end));
                  ("hasPatterns", JBool (match simulation with
                                         | Some sim => GraphReasoner.sim_hasPatterns sim
                                         | None => false
                                         end));
                  ("historyLength", JNum (List.length history))])];
           te_context :=
             match messageContext with
             | [] => None
             | _ => Some (setField "alternatives" (alternativesOf simulation) messageContext)
             end |};
  let responseContent :=
    match llm with
    | Completed (Some content) => content
    | Completed None => "I apologize, but I was unable to generate a response."
    | Threw =>
        "I apologize, but I encountered an error connecting to the AI service. Please try again."
    end in
  let responseEntities := TagParser.extractEntities responseContent in
  do entitiesDiscovered <-
    foldM responseEntities (fun discovered entity =>
      do entityId <- findOrCreateEntity nearAccountId trajectoryId
                       (TagParser.ee_name entity) (Some (TagParser.ee_type entity)) None;
      if negb (inArray entityId entitiesTouched) then
        run logEvent trajectoryId
              {| te_type := Discover; te_entityId := Some entityId;
                 te_data := Some (tagData "response" entity);
                 te_context := None |};
        ret (discovered ++ [entityId])
      else
        run logEvent trajectoryId
              {| te_type := Touch; te_entityId := Some entityId;
                 te_data := Some (tagData "response" entity);
                 te_context := None |};
        ret discovered) [];
  run logEvent trajectoryId
        {| te_type := Decide; te_entityId := None;
           te_data := Some
             [("action", JStr "generated_response");
              ("entitiesReferenced", JNum (List.length responseEntities));
              ("newEntities", JNum (List.length entitiesDiscovered));
              ("simulationUsed", JBool (match simulation with Some _ => true | None => false end))];
           te_context := Some
             [("trigger", JStr "Response generation");
              ("rationale", JStr
                 match simulation with
                 | Some sim =>
                     "Based on " +:+ showNat (GraphReasoner.sim_totalObservations sim)
                     +:+ " observations from similar situations, "
                     +:+ showNat (List.length responseEntities)
                     +:+ " pedagogical entities referenced"
                 | None =>
                     "Referenced " +:+ showNat (List.length responseEntities)
                     +:+ " pedagogical entities from teaching experience"
                 end);
              ("alternatives", alternativesOf simulation)] |};
  do trajectoryResult <-
    completeTrajectory trajectoryId nearAccountId
      (Some ("Response to: " +:+ sliceTo 50 message +:+ "..."));
  do assistantMessageId <- newId;
  do savedAt <- newDate;
  run modify (setMessages (insertRow
        {| msg_id := assistantMessageId; msg_conversationId := convId;
           msg_role := RoleAssistant; msg_content := responseContent;
           msg_trajectoryId := Some trajectoryId; msg_createdAt := savedAt |}));
  run (if Js.truthy conversationId then ret tt
       else
         do updatedAt <- newDate;
         let title := sliceTo 50 message
                      +:+ (if 50 <? String.length message then "..." else EmptyString) in
         modify (setConversations (updateWhere
           (fun c => String.eqb (conv_id c) convId)
           (fun c => {| conv_id := conv_id c; conv_nearAccountId := conv_nearAccountId c;
                        conv_title := Some title;
                        conv_createdAt := conv_createdAt c;
                        conv_updatedAt := updatedAt |}))));
  do createdAt <- newDate;
  ret {| cr_conversationId := convId;
         cr_message := {| cm_id := assistantMessageId; cm_content := responseContent;
                          cm_trajectoryId := Some trajectoryId; cm_createdAt := createdAt |};
         cr_trajectoryId := trajectoryId;
         cr_trajectory := trajectoryResult |}.

(** *** listConversations and getConversation *)

Record ConversationSummary := {
  cs_id : Id;
  cs_title : option string;
  cs_messageCount : nat;
  cs_lastMessageAt : option Timestamp
}.

Definition listConversations (w : World) (nearAccountId : string)
  : list ConversationSummary :=
  map (fun conv =>
         let mine := selectWhere (fun m => String.eqb (msg_conversationId m) (conv_id conv))
                       (messages w) in
         let lastMessage := head (Js.sortBy (fun a b => msg_createdAt b <? msg_createdAt a) mine) in
         {| cs_id := conv_id conv;
            cs_title := conv_title conv;
            cs_messageCount := List.length mine;
            cs_lastMessageAt := match lastMessage with
                                | Some m => Some (msg_createdAt m)
                                | None => None
                                end |})
      (Js.sortBy (fun a b => conv_updatedAt b <? conv_updatedAt a)
         (selectWhere (fun c => String.eqb (conv_nearAccountId c) nearAccountId)
            (conversations w))).

(** The views keep the timestamps as they are stored; the source renders
    them with [toISOString]. *)
Record ConversationInfo := {
  ci_id : Id;
  ci_title : option string;
  ci_createdAt : Timestamp;
  ci_updatedAt : Timestamp
}.

Record MessageInfo := {
  mi_id : Id;
  mi_role : Role;
  mi_content : string;
  mi_trajectoryId : option Id;
  mi_createdAt : Timestamp
}.

Definition conversationInfo (c : Conversation) : ConversationInfo :=
  {| ci_id := conv_id c; ci_title := conv_title c;
     ci_createdAt := conv_createdAt c; ci_updatedAt := conv_updatedAt c |}.

Definition messageInfo (m : Message) : MessageInfo :=
  {| mi_id := msg_id m; mi_role := msg_role m; mi_content := msg_content m;
     mi_trajectoryId := msg_trajectoryId m; mi_createdAt := msg_createdAt m |}.

Record ConversationView := {
  cv_conversation : ConversationInfo;
  cv_messages : list MessageInfo
}.

Definition getConversation (w : World) (conversationId : Id) : option ConversationView :=
  match head (selectWhere (fun c => String.eqb (conv_id c) conversationId)
                (conversations w)) with
  | None => None
  | Some conversation =>
      Some {| cv_conversation := conversationInfo conversation;
              cv_messages :=
                map messageInfo
                  (Js.sortBy (fun a b => msg_createdAt a <? msg_createdAt b)
                     (selectWhere (fun m => String.eqb (msg_conversationId m) conversationId)
                        (messages w))) |}
  end.

End AgentService.

(* ===================================================================== *)
(** ** GraphService ([services/graph.ts]) *)
(* ===================================================================== *)

Module GraphService.

Record GraphNode := {
  node_id : Id;
  node_name : string;
  node_entityType : option string;
  node_touchCount : nat
}.

Record GraphEdge := {
  ge_id : Id;
  ge_source : Id;
  ge_target : Id;
  ge_relationshipType : option string;
  ge_weight : nat
}.

Record GraphData := {
  nodes : list GraphNode;
  graphEdges : list GraphEdge
}.

Definition graphNode (n : Entity) : GraphNode :=
  {| node_id := ent_id n; node_name := ent_name n;
     node_entityType := ent_entityType n; node_touchCount := ent_touchCount n |}.

Definition graphEdge (e : Edge) : GraphEdge :=
  {| ge_id := edge_id e; ge_source := edge_sourceEntityId e;
     ge_target := edge_targetEntityId e;
     ge_relationshipType := edge_relationshipType e; ge_weight := edge_weight e |}.

(** *** getFullGraph *)

Definition trajectoryIdsOf (w : World) (nearAccountId : string) : list Id :=
  map traj_id
    (selectWhere (fun t => String.eqb (traj_nearAccountId t) nearAccountId) (trajectories w)).

(** The distinct entity ids of the events of the given trajectories. *)
Definition eventEntityIds (w : World) (trajectoryIds : list Id) : list Id :=
  Js.unique
    (flat_map (fun e => match ev_entityId e with Some i => [i] | None => [] end)
       (selectWhere (fun e => inArray (ev_trajectoryId e) trajectoryIds) (events w))).

Definition getFullGraph (w : World) (nearAccountId : string) (minWeight : nat) : GraphData :=
  match trajectoryIdsOf w nearAccountId with
  | [] => {| nodes := []; graphEdges := [] |}
  | trajectoryIds =>
      match eventEntityIds w trajectoryIds with
      | [] => {| nodes := []; graphEdges := [] |}
      | entityIds =>
          {| nodes := map graphNode
                        (selectWhere (fun e => inArray (ent_id e) entityIds) (entities w));
             graphEdges :=
               map graphEdge
                 (selectWhere
                    (fun e => inArray (edge_sourceEntityId e) entityIds
                              && inArray (edge_targetEntityId e) entityIds
                              && (minWeight <=? edge_weight e))
                    (edges w)) |}
      end
  end.

(** *** getSubgraph *)

(** The state of the breadth-first walk: the sets as lists in insertion
    order. *)
Record Walk := {
  visited : list Id;
  nodesToProcess : list Id;
  allNodeIds : list Id;
  allEdges : list GraphEdge
}.

(** [set.add(x)] on a set kept in insertion order. *)
Definition setAdd (x : Id) (set : list Id) : list Id :=
  if inArray x set then set else set ++ [x].

Definition edgesAt (w : World) (minWeight : nat) (nodeId : Id) : list Edge :=
  selectWhere
    (fun e => (String.eqb (edge_sourceEntityId e) nodeId
               || String.eqb (edge_targetEntityId e) nodeId)
              && (minWeight <=? edge_weight e))
    (edges w).

(** The body of [for (const edge of edges)]. *)
Definition visitEdge (nodeId : Id) (st : Walk) (edge : Edge) : Walk :=
  let otherId := if String.eqb (edge_sourceEntityId edge) nodeId
                 then edge_targetEntityId edge else edge_sourceEntityId edge in
  {| visited := visited st;
     nodesToProcess := if inArray otherId (visited st) then nodesToProcess st
                       else nodesToProcess st ++ [otherId];
     allNodeIds := setAdd otherId (allNodeIds st);
     allEdges := if existsb (fun e => String.eqb (ge_id e) (edge_id edge)) (allEdges st)
                 then allEdges st else allEdges st ++ [graphEdge edge] |}.

(** The body of [for (const nodeId of currentBatch)]. *)
Definition visitNode (w : World) (minWeight : nat) (st : Walk) (nodeId : Id) : Walk :=
  if inArray nodeId (visited st) then st
  else
    fold_left (visitEdge nodeId) (edgesAt w minWeight nodeId)
      {| visited := setAdd nodeId (visited st);
         nodesToProcess := nodesToProcess st;
         allNodeIds := setAdd nodeId (allNodeIds st);
         allEdges := allEdges st |}.

(** [for (d = 0; d < depth && nodesToProcess.length > 0; d++)], by the number
    of levels left. *)
Fixpoint walkLevels (w : World) (minWeight : nat) (levels : nat) (st : Walk) : Walk :=
  match levels with
  | O => st
  | S k =>
      match nodesToProcess st with
      | [] => st
      | currentBatch =>
          walkLevels w minWeight k
            (fold_left (visitNode w minWeight) currentBatch
               {| visited := visited st; nodesToProcess := [];
                  allNodeIds := allNodeIds st; allEdges := allEdges st |})
      end
  end.

Definition getSubgraph (w : World) (nearAccountId : string) (centerEntityId : Id)
    (depth minWeight : nat) : GraphData :=
  let st := walkLevels w minWeight depth
              {| visited := []; nodesToProcess := [centerEntityId];
                 allNodeIds := []; allEdges := [] |} in
  {| nodes := match allNodeIds st with
              | [] => []
              | nodeIdArray =>
                  map graphNode
                    (selectWhere (fun e => inArray (ent_id e) nodeIdArray) (entities w))
              end;
     graphEdges := allEdges st |}.

(** [getGraph] with its defaults [depth = 2] and [minWeight = 0]. *)
Definition getGraph (w : World) (nearAccountId : string) (centerEntityId : option Id)
    (depth minWeight : option nat) : GraphData :=
  let depth := default 2 depth in
  let minWeight := default 0 minWeight in
  match centerEntityId with
  | Some center =>
      if Js.truthy centerEntityId
      then getSubgraph w nearAccountId center depth minWeight
      else getFullGraph w nearAccountId minWeight
  | None => getFullGraph w nearAccountId minWeight
  end.

(** *** getEntity *)

Record Connection := {
  cn_entity : TrajectoryEngine.EntityInfo;
  cn_relationship : option string;
  cn_weight : nat
}.

(** The entity as [getEntity] reports it.  The [metadata] column, which the
    engine never writes, is not part of the model. *)
Record EntityDetail := {
  ed_id : Id;
  ed_name : string;
  ed_entityType : option string;
  ed_description : option string;
  ed_touchCount : nat;
  ed_firstSeen : Timestamp;
  ed_lastSeen : Timestamp
}.

Definition entityDetail (e : Entity) : EntityDetail :=
  {| ed_id := ent_id e; ed_name := ent_name e; ed_entityType := ent_entityType e;
     ed_description := ent_description e; ed_touchCount := ent_touchCount e;
     ed_firstSeen := ent_firstSeen e; ed_lastSeen := ent_lastSeen e |}.

Record EntityView := {
  evw_entity : EntityDetail;
  evw_connectedEntities : list Connection;
  evw_recentTrajectories : list TrajectoryEngine.TrajectoryInfo
}.

Definition otherEnd (entityId : Id) (e : Edge) : Id :=
  if String.eqb (edge_sourceEntityId e) entityId
  then edge_targetEntityId e else edge_sourceEntityId e.

Definition unknownEntity (otherId : Id) : TrajectoryEngine.EntityInfo :=
  {| TrajectoryEngine.ei_id := otherId;
     TrajectoryEngine.ei_name := "Unknown";
     TrajectoryEngine.ei_entityType := None;
     TrajectoryEngine.ei_description := None;
     TrajectoryEngine.ei_touchCount := 0 |}.

Definition getEntity (w : World) (nearAccountId : string) (entityId : Id)
  : option EntityView :=
  match head (selectWhere (fun e => String.eqb (ent_id e) entityId) (entities w)) with
  | None => None
  | Some entity =>
      match trajectoryIdsOf w nearAccountId with
      | [] => None
      | trajectoryIds =>
          match head (selectWhere
                        (fun e => Js.optEqb (ev_entityId e) (Some entityId)
                                  && inArray (ev_trajectoryId e) trajectoryIds)
                        (events w)) with
          | None => None
          | Some userEvent =>
              let connecting :=
                Js.sortBy (fun a b => edge_weight b <? edge_weight a)
                  (selectWhere
                     (fun e => String.eqb (edge_sourceEntityId e) entityId
                               || String.eqb (edge_targetEntityId e) entityId)
                     (edges w)) in
              let connectedIds := map (otherEnd entityId) connecting in
              let connectedEntities :=
                match connectedIds with
                | [] => []
                | _ => selectWhere (fun e => inArray (ent_id e) connectedIds) (entities w)
                end in
              let evs :=
                firstn 10
                  (Js.sortBy (fun a b => ev_timestamp b <? ev_timestamp a)
                     (selectWhere (fun e => Js.optEqb (ev_entityId e) (Some entityId))
                        (events w))) in
              let recentTrajectoryIds := firstn 5 (Js.unique (map ev_trajectoryId evs)) in
              let recent :=
                match recentTrajectoryIds with
                | [] => []
                | _ => selectWhere (fun t => inArray (traj_id t) recentTrajectoryIds)
                         (trajectories w)
                end in
              Some {| evw_entity := entityDetail entity;
                      evw_connectedEntities :=
                        map (fun e =>
                               let otherId := otherEnd entityId e in
                               {| cn_entity :=
                                    match TrajectoryEngine.entityMapGet connectedEntities otherId with
                                    | Some other => TrajectoryEngine.entityInfo other
                                    | None => unknownEntity otherId
                                    end;
                                  cn_relationship := edge_relationshipType e;
                                  cn_weight := edge_weight e |})
                            connecting;
                      evw_recentTrajectories := map TrajectoryEngine.trajectoryInfo recent |}
          end
      end
  end.

End GraphService.

(* ===================================================================== *)
(** ** A concrete world for running scenarios *)
(* ===================================================================== *)

Module Scenario.

(** An injective stand-in for [nanoid]: the k-th id is ["id"] followed by
    the decimal digits of k. *)
Definition idOf (k : nat) : Id := "id" +:+ NilEmpty.string_of_uint (Nat.to_uint k).

(** A fresh database, a fresh engine, and a clock that advances by one at
    every read. *)
Definition freshWorld : World :=
  {| conversations := []; messages := []; trajectories := []; events := [];
     entities := []; contributions := []; edges := []; cooccurrences := [];
     sequenceCounters := ∅;
     nanoid := idOf; drawn := 0;
     clock := fun k => k; ticks := 0 |}.

Definition touchOf (entityId : Id) : TrajectoryEngine.TrajectoryEvent :=
  {| TrajectoryEngine.te_type := Touch;
     TrajectoryEngine.te_entityId := Some entityId;
     TrajectoryEngine.te_data := None;
     TrajectoryEngine.te_context := None |}.

End Scenario.

(* ===================================================================== *)
(** * Vocabulary of the properties *)
(* ===================================================================== *)

Import TrajectoryEngine GraphReasoner TagParser AgentService.

(** ** Running an operation *)

(** The world an operation leaves, and the value it returns. *)
Definition exec {A} (c : M A) (w : World) : World := snd (c w).

Definition eval {A} (c : M A) (w : World) : A := fst (c w).

(** An operation keeps a property of the world. *)
Definition keeps {A} (P : World -> Prop) (c : M A) : Prop :=
  forall w, P w -> P (exec c w).

(** ** Walks *)

(** The row that [logEvent] appends in world [w]. *)
Definition storedEvent (trajectoryId : Id) (event : TrajectoryEvent) (w : World) : Event :=
  {| ev_id := nanoid w (drawn w);
     ev_trajectoryId := trajectoryId;
     ev_sequenceNum := default 0 (sequenceCounters w !! trajectoryId);
     ev_timestamp := clock w (ticks w);
     ev_eventType := te_type event;
     ev_entityId := te_entityId event;
     ev_data := match dataToStore event with
                | [] => None
                | fields => Some (JObj fields)
                end |}.

(** A walk driven by [logEvent] alone. *)
Definition logAll (trajectoryId : Id) (evs : list TrajectoryEvent) : M unit :=
  forEach evs (fun ev => run logEvent trajectoryId ev; ret tt).



(** The entity table after one more walk over [ids] has been counted. *)
Definition countWalk (ids : list Id) (table : list Entity) : list Entity :=
  updateWhere (fun e => inArray (ent_id e) ids) bumpTrajectoryCount table.

(** The rows [completeTrajectory] reads back for its summary. *)
Definition summaryRows (ids : list Id) (table : list Entity) : list Entity :=
  match ids with
  | [] => []
  | _ => selectWhere (fun e => inArray (ent_id e) ids) table
  end.

(** One account touches two new entities in one walk and completes it. *)
Definition completedWalk : M Id :=
  do t <- startTrajectory "alice.near" "fractions with visual models" None;
  do a <- findOrCreateEntity "alice.near" t "fractions" (Some "topic") None;
  run logEvent t (Scenario.touchOf a);
  do b <- findOrCreateEntity "alice.near" t "visual models" (Some "strategy") None;
  run logEvent t (Scenario.touchOf b);
  run completeTrajectory t "alice.near" None;
  ret t.

(** One account mentions a new name in a new walk. *)
Definition firstMention : M Id :=
  do t <- startTrajectory "alice.near" "Teaching fractions" None;
  findOrCreateEntity "alice.near" t "Fractions" (Some "topic") None.

(** Messages of the end-to-end scenarios. *)
Definition typedMessage : string :=
  "Teaching [[topic:fractions]] with [[strategy:visual models]]".

Definition outcomeFirstMessage : string :=
  "We saw [[outcome:improved understanding]] once [[topic:fractions]] came up".

Definition strategyOutcomeMessage : string :=
  "Using [[strategy:think-pair-share]] gave [[outcome:improved understanding]]".

Definition separatedOutcomeMessage : string :=
  "Using [[strategy:think-pair-share]] for [[topic:fractions]] gave [[outcome:improved understanding]]".

(** ** Projections and counterfactuals *)










(** A store that knows one topic. *)
Definition topicX : World :=
  exec (processMessage "alice.near" "Today we looked at [[topic:x]]" None [] Threw)
    Scenario.freshWorld.

(** The replacement applied to each base element. *)
Definition replaceFrom (change : Change) (input : EntityInput) : EntityInput :=
  if matchesFrom (change_from change) input then change_to change else input.

(** The element has the name of [from], case-insensitively. *)
Definition namedLikeFrom (change : Change) (input : EntityInput) : bool :=
  String.eqb (Js.toLowerCase (in_name input)) (Js.toLowerCase (in_name (change_from change))).

(** The alternative input list in the words of the specification: replace
    every element that matches [from]; if no element matched, drop the
    elements named like [from] and append [to]. *)
Definition alternativeInputsSpec (baseInputs : list EntityInput) (change : Change)
  : list EntityInput :=
  if existsb (matchesFrom (change_from change)) baseInputs
  then map (replaceFrom change) baseInputs
  else List.filter (fun input => negb (namedLikeFrom change input)) baseInputs
       ++ [change_to change].

(** A replacement that the code can see: the element matches [from] and its
    name is not already the name of [to]. *)
Definition renames (change : Change) (input : EntityInput) : bool :=
  matchesFrom (change_from change) input
  && negb (String.eqb (in_name (change_to change)) (in_name input)).

(** The swaps of the scenarios. *)
Definition swapAB : Change :=
  {| change_from := {| in_name := "A"; in_type := None |};
     change_to := {| in_name := "B"; in_type := None |} |}.

Definition retypeX : Change :=
  {| change_from := {| in_name := "x"; in_type := Some "strategy" |};
     change_to := {| in_name := "x"; in_type := Some "context" |} |}.

Definition twoX : list EntityInput :=
  [ {| in_name := "x"; in_type := Some "strategy" |};
    {| in_name := "x"; in_type := Some "topic" |} ].

(** ** Valence counters *)

(** The reserved counters of an edge are untouched. *)
Definition zeroValence (e : Edge) : Prop :=
  edge_positiveOutcomes e = 0 /\ edge_negativeOutcomes e = 0.

Definition noValence (w : World) : Prop := Forall zeroValence (edges w).

(** The worlds that the operations of the engine reach from a store without
    edges. *)
Inductive EngineWritten : World -> Prop :=
| written_none w :
    edges w = [] -> EngineWritten w
| written_start w nearAccountId inputText conversationId :
    EngineWritten w ->
    EngineWritten (exec (startTrajectory nearAccountId inputText conversationId) w)
| written_log w trajectoryId event :
    EngineWritten w ->
    EngineWritten (exec (logEvent trajectoryId event) w)
| written_find w nearAccountId trajectoryId name entityType description :
    EngineWritten w ->
    EngineWritten
      (exec (findOrCreateEntity nearAccountId trajectoryId name entityType description) w)
| written_complete w trajectoryId nearAccountId summary :
    EngineWritten w ->
    EngineWritten (exec (completeTrajectory trajectoryId nearAccountId summary) w)
| written_turn w nearAccountId message conversationId messageContext llm :
    EngineWritten w ->
    EngineWritten
      (exec (processMessage nearAccountId message conversationId messageContext llm) w).

(** A turn that leaves a context co-occurring with a strategy. *)
Definition labMessage : string :=
  "In a [[context:lab section]] the [[strategy:worked examples]] gave [[outcome:improved understanding]]".

Definition labWorld : World :=
  exec (processMessage "alice.near" labMessage None [] Threw) Scenario.freshWorld.

Definition workedExamples : list EntityInput :=
  [ {| in_name := "worked examples"; in_type := Some "strategy" |} ].

(** A second turn, by another account, in the conversation of [labWorld]. *)
Definition secondTurn : M ChatResponse :=
  processMessage "bob.near" "Trying [[strategy:worked examples]] today" (Some "id0") [] Threw.

(** ** Strings and tags *)

(** Every character of [s] satisfies [p]. *)
Fixpoint allChars (p : ascii -> bool) (s : string) : bool :=
  match s with
  | EmptyString => true
  | String c r => p c && allChars p r
  end.

(** A string that does not start with a space. *)
Definition startsClean (s : string) : bool :=
  match s with
  | EmptyString => true
  | String c _ => negb (Js.isSpace c)
  end.

(** A string that is empty or starts with a character outside the class. *)
Definition stops (p : ascii -> bool) (s : string) : bool :=
  match s with
  | EmptyString => true
  | String c _ => negb (p c)
  end.

(** No suffix of [s] is matched. *)
Fixpoint quiet {A} (matchAt : string -> option (A * nat)) (s : string) : Prop :=
  matchAt s = None /\
  match s with
  | EmptyString => True
  | String _ r => quiet matchAt r
  end.

(** Character classes used by the lemmas on tags. *)
Definition notOpen (c : ascii) : bool := negb (Ascii.eqb c "[").

Definition notColon (c : ascii) : bool := negb (Ascii.eqb c ":").

(** The key under which a mention is remembered as seen. *)
Definition keyOf (e : ExtractedEntity) : string := seenKey (ee_type e) (ee_name e).

(** What the two loops maintain: [seen] holds exactly the keys of the
    mentions found so far, whose types have no colon, without repetition. *)
Definition Deduplicated (st : list ExtractedEntity * gset string) : Prop :=
  (forall k, k ∈ snd st <-> exists e, In e (fst st) /\ keyOf e = k)
  /\ (forall e, In e (fst st) -> allChars notColon (ee_type e) = true)
  /\ NoDup (fst st).

(** The mention pushed for a typed match and for an untyped match. *)
Definition typedMention (m : string * string) : ExtractedEntity :=
  {| ee_name := Js.toLowerCase (Js.trim (snd m));
     ee_type := Js.trim (Js.toLowerCase (fst m)) |}.

Definition untypedMention (m : string) : ExtractedEntity :=
  {| ee_name := Js.toLowerCase (Js.trim m); ee_type := "topic" |}.

(** The shape of a mention: a non-empty lower-case word as type, and a
    trimmed lower-case name without a closing bracket. *)
Definition wellFormed (e : ExtractedEntity) : Prop :=
  ee_type e <> EmptyString /\ allChars Js.isWord (ee_type e) = true
  /\ Js.trim (Js.toLowerCase (ee_type e)) = ee_type e
  /\ allChars notBracket (ee_name e) = true
  /\ Js.toLowerCase (Js.trim (ee_name e)) = ee_name e.

(** A text with a repeated typed tag and an untyped tag. *)
Definition taggedMessage : string :=
  "Teaching [[topic:Fractions]] with [[Visual Models]] and [[topic:fractions]]".

(** ** Tables an operation leaves alone *)

(** An operation leaves a view of the world as it was. *)
Definition leaves {A T} (proj : World -> T) (c : M A) : Prop :=
  forall w, proj (exec c w) = proj w.

(** A view that does not read the table written by a setter. *)
Definition apart {T X} (proj : World -> T) (set : (X -> X) -> World -> World) : Prop :=
  forall f w, proj (set f w) = proj w.

(** A view that reads neither oracle counter. *)
Definition timeless {T} (proj : World -> T) : Prop :=
  leaves proj newId /\ leaves proj newDate.

(** ** Hashing *)

(** The base-31 polynomial of the code units, most significant first, over
    the integers. *)
Fixpoint horner (input : string) (h : Z) : Z :=
  match input with
  | EmptyString => h
  | String c r => horner r (31 * h + Z.of_nat (Js.code c))%Z
  end.

(** ** Paths *)

(** The keys of the edges between consecutive elements of a path. *)
Fixpoint adjacentKeys (ids : list Id) : list Id :=
  match ids with
  | sourceId :: ((targetId :: _) as rest) => edgeKey sourceId targetId :: adjacentKeys rest
  | _ => []
  end.

(** No event of the trajectory refers to an entity. *)
Definition entityFree (trajectoryId : Id) (w : World) : Prop :=
  forall e, In e (events w) -> ev_trajectoryId e = trajectoryId ->
            Js.truthy (ev_entityId e) = false.

(** A walk that only reasons and decides. *)
Definition thinkingWalk : M Id :=
  do t <- startTrajectory "alice.near" "What should I try next?" None;
  run logEvent t {| te_type := Reason; te_entityId := None;
                    te_data := Some [("action", JStr "recall")]; te_context := None |};
  run logEvent t {| te_type := Decide; te_entityId := None;
                    te_data := Some [("action", JStr "answer")]; te_context := None |};
  ret t.

(** ** Stores written by the engine *)

(** The worlds reached from [w0] by the operations of the engine and by chat
    turns. *)
Inductive Reached (w0 : World) : World -> Prop :=
| reached_here : Reached w0 w0
| reached_start w nearAccountId inputText conversationId :
    Reached w0 w ->
    Reached w0 (exec (startTrajectory nearAccountId inputText conversationId) w)
| reached_log w trajectoryId event :
    Reached w0 w ->
    Reached w0 (exec (logEvent trajectoryId event) w)
| reached_find w nearAccountId trajectoryId name entityType description :
    Reached w0 w ->
    Reached w0
      (exec (findOrCreateEntity nearAccountId trajectoryId name entityType description) w)
| reached_complete w trajectoryId nearAccountId summary :
    Reached w0 w ->
    Reached w0 (exec (completeTrajectory trajectoryId nearAccountId summary) w)
| reached_turn w nearAccountId message conversationId messageContext llm :
    Reached w0 w ->
    Reached w0
      (exec (processMessage nearAccountId message conversationId messageContext llm) w).

(** An edge as the engine writes it: keyed by its endpoints, counted once per
    strengthening, with the contributor and mixed counters never moved. *)
Definition edgeSound (e : Edge) : Prop :=
  edge_id e = edgeKey (edge_sourceEntityId e) (edge_targetEntityId e)
  /\ 1 <= edge_weight e
  /\ edge_trajectoryCount e = edge_weight e
  /\ edge_contributorCount e = 1
  /\ edge_mixedOutcomes e = 0.

Definition edgesSound (table : list Edge) : Prop :=
  List.NoDup (map edge_id table) /\ Forall edgeSound table.

(** A co-occurrence row as the engine writes it: keyed by its two distinct
    entities in code-unit order, its three counters moving together. *)
Definition cooccurrenceSound (c : Cooccurrence) : Prop :=
  cooc_id c = edgeKey (cooc_entityA c) (cooc_entityB c)
  /\ String.ltb (cooc_entityA c) (cooc_entityB c) = true
  /\ 1 <= cooc_count c
  /\ cooc_windowCount c = cooc_count c
  /\ cooc_trajectoryCount c = cooc_count c
  /\ cooc_contributorCount c = 1.

Definition cooccurrencesSound (table : list Cooccurrence) : Prop :=
  List.NoDup (map cooc_id table) /\ Forall cooccurrenceSound table.

(** ** Entities by name *)

(** The lookup key of [findOrCreateEntity]. *)
Definition normalizedNameOf (name : string) : string := Js.trim (Js.toLowerCase name).

(** The rows of one contributor for one entity. *)
Definition contributionRows (entityId : Id) (nearAccountId : string) (w : World)
  : list EntityContribution :=
  selectWhere (contributionOf entityId nearAccountId) (contributions w).

(** What a call does to a row that was there: the identity and the names
    stay, and the type stays unless the row is the one found and that one had
    no type. *)
Definition sameEntity (found : option Entity) (e e' : Entity) : Prop :=
  ent_id e' = ent_id e /\ ent_name e' = ent_name e
  /\ ent_normalizedName e' = ent_normalizedName e
  /\ (ent_entityType e' = ent_entityType e
      \/ exists existing, found = Some existing /\ ent_id e = ent_id existing
                          /\ Js.truthy (ent_entityType existing) = false).


(** The row [findOrCreateEntity] inserts for a name it does not find. *)
Definition createdEntity (name : string) (entityType description : option string)
    (w : World) : Entity :=
  {| ent_id := nanoid w (drawn w);
     ent_name := name;
     ent_normalizedName := normalizedNameOf name;
     ent_entityType := entityType;
     ent_description := description;
     ent_touchCount := 1;
     ent_trajectoryCount := 1;
     ent_contributorCount := 1;
     ent_firstSeen := clock w (ticks w);
     ent_lastSeen := clock w (ticks w) |}.


(** ** Trajectories read back *)

(** What [getTrajectory] reports about the trajectory itself. *)
Definition trajectoryOf (w : World) (id : Id) : option TrajectoryInfo :=
  option_map tv_trajectory (getTrajectory w id).

(** The filter of [listTrajectories]. *)
Definition listedFor (nearAccountId : string) (conversationId : option Id)
    (t : Trajectory) : Prop :=
  traj_nearAccountId t = nearAccountId
  /\ (Js.truthy conversationId = true -> traj_conversationId t = conversationId).


(** ** Conversations read back *)

(** The messages of a conversation. *)
Definition messagesOf (w : World) (conversationId : Id) : list Message :=
  selectWhere (fun m => String.eqb (msg_conversationId m) conversationId) (messages w).


(** ** Graph views *)

(** An event of a trajectory of the account refers to the entity. *)
Definition accountTouched (w : World) (nearAccountId : string) (entityId : Id) : Prop :=
  exists t ev,
    In t (trajectories w) /\ traj_nearAccountId t = nearAccountId
    /\ In ev (events w) /\ ev_trajectoryId ev = traj_id t
    /\ ev_entityId ev = Some entityId.

(** The edge touches the entity. *)
Definition incident (entityId : Id) (e : Edge) : Prop :=
  edge_sourceEntityId e = entityId \/ edge_targetEntityId e = entityId.

(** What the breadth-first walk of [getSubgraph] maintains. *)
Definition walkSound (w : World) (minWeight : nat) (st : GraphService.Walk) : Prop :=
  List.NoDup (map GraphService.ge_id (GraphService.allEdges st))
  /\ (forall e, In e (GraphService.allEdges st) ->
        (exists row, In row (edges w) /\ e = GraphService.graphEdge row
                     /\ minWeight <= edge_weight row)
        /\ In (GraphService.ge_source e) (GraphService.allNodeIds st)
        /\ In (GraphService.ge_target e) (GraphService.allNodeIds st))
  /\ incl (GraphService.visited st) (GraphService.allNodeIds st).

(** Two accounts share one entity through their own walks. *)
Definition sharedWorld : World :=
  exec (processMessage "bob.near" "Trying [[strategy:worked examples]] today" None [] Threw)
    labWorld.


(** ** Resolution *)

(** The entity is a candidate for the input: its normalised name contains the
    input's, in the sense of [LIKE], and it has the type asked for, if any. *)
Definition candidateFor (input : EntityInput) (e : Entity) : bool :=
  like ("%" +:+ normalizedNameOf (in_name input) +:+ "%") (ent_normalizedName e)
  && typeCondition (in_type input) e.

(** The edge links one of the given entities with the outcome, in either
    direction. *)
Definition linksOutcome (entityIds : list Id) (outcome : Entity) (e : Edge) : Prop :=
  (In (edge_sourceEntityId e) entityIds /\ edge_targetEntityId e = ent_id outcome)
  \/ (In (edge_targetEntityId e) entityIds /\ edge_sourceEntityId e = ent_id outcome).


(** ** Reasoning along an operation *)

(** From a world that satisfies [P], the operation returns a value and
    leaves a world that satisfy [Q]. *)
Definition hoare {A} (P : World -> Prop) (c : M A) (Q : A -> World -> Prop) : Prop :=
  forall w, P w -> Q (eval c w) (exec c w).

(** The walk of [trajectoryId] since the log [before]: [k] events were
    appended for it, numbered from 0, and its counter stands at [k]. *)
Definition walked (before : list Event) (trajectoryId : Id) (k : nat)
    (log : list Event) (counters : gmap string nat) : Prop :=
  counters !! trajectoryId = Some k
  /\ exists appended,
       log = before ++ appended /\ List.length appended = k
       /\ Forall (fun e => ev_trajectoryId e = trajectoryId) appended
       /\ map ev_sequenceNum appended = seq 0 k.

(** The same walk once completed: the counter is gone. *)
Definition closed (before : list Event) (trajectoryId : Id) (k : nat)
    (log : list Event) (counters : gmap string nat) : Prop :=
  counters !! trajectoryId = None
  /\ exists appended,
       log = before ++ appended /\ List.length appended = k
       /\ Forall (fun e => ev_trajectoryId e = trajectoryId) appended
       /\ map ev_sequenceNum appended = seq 0 k.

(** The reply stored when the language model gives none. *)
Definition replyOf (llm : LlmOutcome) : string :=
  match llm with
  | Completed (Some content) => content
  | Completed None => "I apologize, but I was unable to generate a response."
  | Threw =>
      "I apologize, but I encountered an error connecting to the AI service. Please try again."
  end.

(** The title given to a conversation from its first message. *)
Definition titleOf (message : string) : string :=
  sliceTo 50 message +:+ (if 50 <? String.length message then "..." else EmptyString).

(* ===================================================================== *)
(** * Properties *)
(* ===================================================================== *)

(** ** Running store operations *)


Lemma exec_bind {A B} (c : M A) (k : A -> M B) (w : World) :
  exec (bind c k) w = exec (k (eval c w)) (exec c w).
Proof. unfold exec, eval, bind. destruct (c w); reflexivity. Qed.

Lemma eval_bind {A B} (c : M A) (k : A -> M B) (w : World) :
  eval (bind c k) w = eval (k (eval c w)) (exec c w).
Proof. unfold exec, eval, bind. destruct (c w); reflexivity. Qed.

Lemma exec_ret {A} (x : A) (w : World) : exec (ret x) w = w.
Proof. reflexivity. Qed.

Lemma eval_ret {A} (x : A) (w : World) : eval (ret x) w = x.
Proof. reflexivity. Qed.

Lemma exec_modify (f : World -> World) (w : World) : exec (modify f) w = f w.
Proof. reflexivity. Qed.

Lemma exec_gets {A} (f : World -> A) (w : World) : exec (gets f) w = w.
Proof. reflexivity. Qed.

Lemma eval_gets {A} (f : World -> A) (w : World) : eval (gets f) w = f w.
Proof. reflexivity. Qed.


Create Rewrite HintDb store.

Lemma eval_newId w : eval newId w = nanoid w (drawn w).
Proof. reflexivity. Qed.

Lemma eval_newDate w : eval newDate w = clock w (ticks w).
Proof. reflexivity. Qed.

#[local] Hint Rewrite @exec_bind @eval_bind @exec_ret @eval_ret exec_modify
  @exec_gets @eval_gets eval_newId eval_newDate : store.

(** ** A table that an operation leaves alone *)

Lemma forEach_preserves {A T} (proj : World -> T) (xs : list A) (body : A -> M unit) :
  (forall x w, proj (exec (body x) w) = proj w) ->
  forall w, proj (exec (forEach xs body) w) = proj w.
Proof.
  intros Hbody. induction xs as [|x r IH]; intros w; simpl.
  - reflexivity.
  - rewrite exec_bind, IH. apply Hbody.
Qed.

Lemma forPairs_preserves {T} (proj : World -> T) (xs : list Id) (body : Id -> Id -> M unit) :
  (forall x y w, proj (exec (body x y) w) = proj w) ->
  forall w, proj (exec (forPairs xs body) w) = proj w.
Proof.
  intros Hbody. induction xs as [|x r IH]; intros w; simpl.
  - reflexivity.
  - rewrite exec_bind, IH. apply forEach_preserves. intros; apply Hbody.
Qed.

Lemma foldM_preserves {A S T} (proj : World -> T) (xs : list A) (body : S -> A -> M S) :
  (forall s x w, proj (exec (body s x) w) = proj w) ->
  forall s w, proj (exec (foldM xs body s) w) = proj w.
Proof.
  intros Hbody. induction xs as [|x r IH]; intros s w; simpl.
  - reflexivity.
  - rewrite exec_bind, IH. apply Hbody.
Qed.

(** *** logEvent *)

Lemma logEvent_events trajectoryId event w :
  events (exec (logEvent trajectoryId event) w)
  = events w ++ [storedEvent trajectoryId event w].
Proof.
  unfold logEvent. autorewrite with store. 
  destruct (touchedBy event); reflexivity.
Qed.

Lemma logEvent_counters trajectoryId event w :
  sequenceCounters (exec (logEvent trajectoryId event) w)
  = <[trajectoryId := default 0 (sequenceCounters w !! trajectoryId) + 1]> (sequenceCounters w).
Proof.
  unfold logEvent. autorewrite with store.
  destruct (touchedBy event); reflexivity.
Qed.

Lemma logEvent_edges trajectoryId event w :
  edges (exec (logEvent trajectoryId event) w) = edges w.
Proof.
  unfold logEvent. autorewrite with store.
  destruct (touchedBy event); reflexivity.
Qed.

Lemma startTrajectory_spec nearAccountId inputText conversationId w :
  eval (startTrajectory nearAccountId inputText conversationId) w = nanoid w (drawn w)
  /\ events (exec (startTrajectory nearAccountId inputText conversationId) w) = events w
  /\ edges (exec (startTrajectory nearAccountId inputText conversationId) w) = edges w
  /\ sequenceCounters (exec (startTrajectory nearAccountId inputText conversationId) w)
     = <[nanoid w (drawn w) := 0]> (sequenceCounters w).
Proof. unfold startTrajectory. repeat split; autorewrite with store; reflexivity. Qed.

Lemma logAll_appends trajectoryId evs : forall w k,
  sequenceCounters w !! trajectoryId = Some k ->
  exists appended,
    events (exec (logAll trajectoryId evs) w) = events w ++ appended
    /\ Forall (fun e => ev_trajectoryId e = trajectoryId) appended
    /\ map ev_sequenceNum appended = seq k (List.length evs)
    /\ map ev_eventType appended = map te_type evs.
Proof.
  induction evs as [|ev r IH]; intros w k Hk; simpl.
  - exists []. rewrite app_nil_r. repeat split; constructor.
  - unfold logAll in *. simpl. autorewrite with store.
    destruct (IH (exec (logEvent trajectoryId ev) w) (S k)) as (more & Hev & Hid & Hseq & Hty).
    { rewrite logEvent_counters, Hk. simpl. rewrite lookup_insert_eq. f_equal. lia. }
    exists (storedEvent trajectoryId ev w :: more).
    rewrite Hev, logEvent_events, <- app_assoc. simpl.
    repeat split.
    + constructor; [reflexivity | exact Hid].
    + rewrite Hk. simpl. f_equal. exact Hseq.
    + f_equal. exact Hty.
Qed.

Lemma selectWhere_none {A} (p : A -> bool) (l : list A) :
  (forall x, In x l -> p x = false) -> selectWhere p l = [].
Proof.
  induction l as [|x r IH]; intros H; simpl; [reflexivity|].
  rewrite (H x (or_introl eq_refl)). apply IH. intros y Hy. apply H. right. exact Hy.
Qed.


(** A property of every row of a concrete table, decided row by row. *)
Lemma all_check {A} (p : A -> bool) (P : A -> Prop) (l : list A) :
  (forall x, p x = true -> P x) -> forallb p l = true -> forall x, In x l -> P x.
Proof.
  intros Hp H x Hx. apply Hp. rewrite forallb_forall in H. apply H, Hx.
Qed.

(** *** completeTrajectory leaves the event log and the entity identities alone *)

Lemma upsertCooccurrence_core timestamp idI idJ w :
  entities (exec (upsertCooccurrence timestamp idI idJ) w) = entities w
  /\ events (exec (upsertCooccurrence timestamp idI idJ) w) = events w
  /\ edges (exec (upsertCooccurrence timestamp idI idJ) w) = edges w.
Proof.
  unfold upsertCooccurrence.
  destruct (String.eqb idI EmptyString || String.eqb idJ EmptyString); [auto|].
  destruct (sortPair idI idJ) as [entityA entityB].
  autorewrite with store.
  destruct (head _); auto.
Qed.

Lemma updateCooccurrences_core entityIds trajectoryId nearAccountId timestamp w :
  entities (exec (updateCooccurrences entityIds trajectoryId nearAccountId timestamp) w)
  = entities w
  /\ events (exec (updateCooccurrences entityIds trajectoryId nearAccountId timestamp) w)
     = events w.
Proof.
  unfold updateCooccurrences.
  destruct (List.length entityIds <? 2); [auto|].
  split; apply forPairs_preserves; intros; apply upsertCooccurrence_core.
Qed.

Lemma strengthenStep_core timestamp sourceId targetId w :
  entities (exec (strengthenStep timestamp sourceId targetId) w) = entities w
  /\ events (exec (strengthenStep timestamp sourceId targetId) w) = events w.
Proof.
  unfold strengthenStep.
  destruct (_ || _); [auto|].
  autorewrite with store.
  destruct (head _); auto.
Qed.

Lemma strengthenLoop_core timestamp entityIds : forall w,
  entities (exec (strengthenLoop timestamp entityIds) w) = entities w
  /\ events (exec (strengthenLoop timestamp entityIds) w) = events w.
Proof.
  induction entityIds as [|sourceId rest IH]; intros w; [auto|].
  destruct rest as [|targetId rest']; [auto|].
  change (strengthenLoop timestamp (sourceId :: targetId :: rest'))
    with (bind (strengthenStep timestamp sourceId targetId) (fun pushed =>
          bind (strengthenLoop timestamp (targetId :: rest')) (fun more =>
          ret (pushed ++ more)))).
  autorewrite with store.
  destruct (IH (exec (strengthenStep timestamp sourceId targetId) w)) as [He Hv].
  rewrite He, Hv. apply strengthenStep_core.
Qed.

Lemma strengthenEdges_core entityIds trajectoryId nearAccountId timestamp w :
  entities (exec (strengthenEdges entityIds trajectoryId nearAccountId timestamp) w)
  = entities w
  /\ events (exec (strengthenEdges entityIds trajectoryId nearAccountId timestamp) w)
     = events w.
Proof.
  unfold strengthenEdges.
  destruct (List.length entityIds <? 2); [auto|]. apply strengthenLoop_core.
Qed.

Lemma upsertOutcomeEdge_core timestamp strategy outcome w :
  entities (exec (upsertOutcomeEdge timestamp strategy outcome) w) = entities w
  /\ events (exec (upsertOutcomeEdge timestamp strategy outcome) w) = events w.
Proof.
  unfold upsertOutcomeEdge. autorewrite with store.
  destruct (head _); auto.
Qed.

Lemma trackOutcomes_core entityIds timestamp w :
  entities (exec (trackOutcomes entityIds timestamp) w) = entities w
  /\ events (exec (trackOutcomes entityIds timestamp) w) = events w.
Proof.
  unfold trackOutcomes.
  destruct entityIds; [auto|].
  autorewrite with store.
  destruct (List.filter (hasType "outcome") _); [auto|].
  destruct (List.filter (hasType "strategy") _); [auto|].
  split; apply forEach_preserves; intros; apply forEach_preserves; intros;
    apply upsertOutcomeEdge_core.
Qed.

Lemma updateWhere_nowhere {A} (p : A -> bool) (f : A -> A) (l : list A) :
  (forall x, p x = false) -> updateWhere p f l = l.
Proof.
  intros H. unfold updateWhere. induction l as [|x r IH]; simpl; [reflexivity|].
  rewrite H, IH. reflexivity.
Qed.

(** Projections of the setters of the world. *)
Ltac fields :=
  cbn [conversations messages trajectories events entities contributions edges
       cooccurrences sequenceCounters nanoid drawn clock ticks
       setConversations setMessages setTrajectories setEvents setEntities
       setContributions setEdges setCooccurrences setSequenceCounters].

Lemma completeTrajectory_events trajectoryId nearAccountId summary w :
  events (exec (completeTrajectory trajectoryId nearAccountId summary) w) = events w.
Proof.
  unfold completeTrajectory. autorewrite with store. fields.
  rewrite (proj2 (trackOutcomes_core _ _ _)).
  rewrite (proj2 (strengthenEdges_core _ _ _ _ _)).
  rewrite (proj2 (updateCooccurrences_core _ _ _ _ _)).
  rewrite (forEach_preserves events) by reflexivity.
  destruct (allIds _ _); reflexivity.
Qed.

Lemma completeTrajectory_entities trajectoryId nearAccountId summary w :
  entities (exec (completeTrajectory trajectoryId nearAccountId summary) w)
  = countWalk (allIds w trajectoryId) (entities w).
Proof.
  unfold completeTrajectory. autorewrite with store. fields.
  rewrite (proj1 (trackOutcomes_core _ _ _)).
  rewrite (proj1 (strengthenEdges_core _ _ _ _ _)).
  rewrite (proj1 (updateCooccurrences_core _ _ _ _ _)).
  rewrite (forEach_preserves entities) by reflexivity.
  change (allIds (setTrajectories _ (exec newDate w)) trajectoryId) with (allIds w trajectoryId).
  unfold countWalk.
  destruct (allIds w trajectoryId) eqn:E; [|reflexivity].
  simpl. symmetry. apply updateWhere_nowhere. reflexivity.
Qed.

Lemma completeTrajectory_result trajectoryId nearAccountId summary w :
  let rows := summaryRows (allIds w trajectoryId)
                (countWalk (allIds w trajectoryId) (entities w)) in
  entitiesTouched (eval (completeTrajectory trajectoryId nearAccountId summary) w)
  = lookupInfos rows (touchedIds w trajectoryId)
  /\ entitiesDiscovered (eval (completeTrajectory trajectoryId nearAccountId summary) w)
     = lookupInfos rows (discoveredIds w trajectoryId).
Proof.
  unfold completeTrajectory. autorewrite with store. fields.
  cbn [entitiesTouched entitiesDiscovered].
  rewrite (proj1 (trackOutcomes_core _ _ _)).
  rewrite (proj1 (strengthenEdges_core _ _ _ _ _)).
  rewrite (proj1 (updateCooccurrences_core _ _ _ _ _)).
  rewrite (forEach_preserves entities) by reflexivity.
  change (allIds (setTrajectories _ (exec newDate w)) trajectoryId) with (allIds w trajectoryId).
  change (touchedIds (setTrajectories _ (exec newDate w)) trajectoryId)
    with (touchedIds w trajectoryId).
  change (discoveredIds (setTrajectories _ (exec newDate w)) trajectoryId)
    with (discoveredIds w trajectoryId).
  unfold summaryRows, countWalk.
  destruct (allIds w trajectoryId) eqn:E; split; reflexivity.
Qed.

Lemma walk_ids_same_log w w' trajectoryId :
  events w' = events w ->
  touchedIds w' trajectoryId = touchedIds w trajectoryId
  /\ discoveredIds w' trajectoryId = discoveredIds w trajectoryId
  /\ allIds w' trajectoryId = allIds w trajectoryId.
Proof.
  intros H. unfold allIds, touchedIds, discoveredIds, walkEvents. rewrite H. auto.
Qed.

Lemma countWalk_info ids e :
  ent_id (if inArray (ent_id e) ids then bumpTrajectoryCount e else e) = ent_id e
  /\ entityInfo (if inArray (ent_id e) ids then bumpTrajectoryCount e else e) = entityInfo e.
Proof. destruct (inArray (ent_id e) ids); split; reflexivity. Qed.

Lemma find_map_same {A} (q : A -> bool) (g : A -> A) (l : list A) :
  (forall x, q (g x) = q x) -> find q (map g l) = option_map g (find q l).
Proof.
  intros H. induction l as [|x r IH]; simpl; [reflexivity|].
  rewrite H. destruct (q x); [reflexivity | exact IH].
Qed.

Lemma filter_map_same {A} (q : A -> bool) (g : A -> A) (l : list A) :
  (forall x, q (g x) = q x) -> List.filter q (map g l) = map g (List.filter q l).
Proof.
  intros H. induction l as [|x r IH]; simpl; [reflexivity|].
  rewrite H. destruct (q x); simpl; rewrite IH; reflexivity.
Qed.

Lemma lookupInfos_countWalk ids ids' table l :
  lookupInfos (summaryRows ids (countWalk ids' table)) l
  = lookupInfos (summaryRows ids table) l.
Proof.
  unfold summaryRows. destruct ids as [|i ids0]; [reflexivity|].
  set (p := fun e => inArray (ent_id e) (i :: ids0)).
  unfold countWalk, updateWhere, selectWhere.
  rewrite filter_map_same
    by (intros x; unfold p; rewrite (proj1 (countWalk_info ids' x)); reflexivity).
  unfold lookupInfos.
  apply List.flat_map_ext. intros id. unfold entityMapGet.
  rewrite <- map_rev, find_map_same
    by (intros x; rewrite (proj1 (countWalk_info ids' x)); reflexivity).
  destruct (find _ _) as [e|]; simpl; [|reflexivity].
  rewrite (proj2 (countWalk_info ids' e)). reflexivity.
Qed.

(** C1 (as the code has it): [completeTrajectory] does not look at
    [completedAt].  A second call for the same trajectory reads the same event
    log and returns the same touched and discovered entities, but it is not a
    no-op: it increments [trajectoryCount] once more on every entity of the
    walk. *)
Theorem completeTrajectory_replay trajectoryId nearAccountId summary summary' w :
  let first := eval (completeTrajectory trajectoryId nearAccountId summary) w in
  let w1 := exec (completeTrajectory trajectoryId nearAccountId summary) w in
  let second := eval (completeTrajectory trajectoryId nearAccountId summary') w1 in
  let w2 := exec (completeTrajectory trajectoryId nearAccountId summary') w1 in
  entitiesTouched second = entitiesTouched first
  /\ entitiesDiscovered second = entitiesDiscovered first
  /\ entities w1 = countWalk (allIds w trajectoryId) (entities w)
  /\ entities w2 = countWalk (allIds w trajectoryId) (entities w1).
Proof.
  intros first w1 second w2.
  destruct (walk_ids_same_log w w1 trajectoryId
              (completeTrajectory_events trajectoryId nearAccountId summary w))
    as (Ht & Hd & Ha).
  destruct (completeTrajectory_result trajectoryId nearAccountId summary w) as [T1 D1].
  destruct (completeTrajectory_result trajectoryId nearAccountId summary' w1) as [T2 D2].
  fold first in T1, D1. fold w1 second in T2, D2.
  assert (E1 : entities w1 = countWalk (allIds w trajectoryId) (entities w))
    by apply completeTrajectory_entities.
  assert (E2 : entities w2 = countWalk (allIds w1 trajectoryId) (entities w1))
    by apply completeTrajectory_entities.
  rewrite Ha in E2, T2, D2. rewrite Ht in T2. rewrite Hd in D2.
  rewrite lookupInfos_countWalk in T2, D2.
  rewrite E1 in T2, D2.
  repeat split; congruence.
Qed.

(** C1 (as stated) fails: on a trajectory that is already completed, a second
    [completeTrajectory] increments the entity, edge and co-occurrence
    counters again. *)
Lemma completeTrajectory_not_idempotent :
  let t := eval completedWalk Scenario.freshWorld in
  let w1 := exec completedWalk Scenario.freshWorld in
  let w2 := exec (completeTrajectory t "alice.near" None) w1 in
  map traj_completedAt (trajectories w1) = [Some 5]
  /\ map ent_trajectoryCount (entities w1) = [2; 2]
  /\ map ent_trajectoryCount (entities w2) = [3; 3]
  /\ map edge_weight (edges w1) = [1] /\ map edge_weight (edges w2) = [2]
  /\ map cooc_count (cooccurrences w1) = [1] /\ map cooc_count (cooccurrences w2) = [2]
  /\ map ctb_trajectoryCount (contributions w1) = [2; 2]
  /\ map ctb_trajectoryCount (contributions w2) = [3; 3].
Proof. vm_compute. repeat split. Qed.

(** ** Scenarios on a fresh store *)

(** The double count on any store: a name that is new, created under an id
    without contribution rows, ends with one contribution row and
    [contributorCount = 2]. *)
Lemma findOrCreateEntity_new nearAccountId trajectoryId name entityType description w :
  let entityId := nanoid w (drawn w) in
  let w' := exec (findOrCreateEntity nearAccountId trajectoryId name entityType description) w in
  selectWhere (fun e => String.eqb (ent_normalizedName e) (Js.trim (Js.toLowerCase name)))
    (entities w) = [] ->
  selectWhere (contributionOf entityId nearAccountId) (contributions w) = [] ->
  eval (findOrCreateEntity nearAccountId trajectoryId name entityType description) w = entityId
  /\ List.length (contributions w') = S (List.length (contributions w))
  /\ exists e, In e (entities w')
       /\ ent_id e = entityId
       /\ ent_normalizedName e = Js.trim (Js.toLowerCase name)
       /\ ent_touchCount e = 1 /\ ent_trajectoryCount e = 1 /\ ent_contributorCount e = 2.
Proof.
  intros entityId w' Hname Hcontrib. subst w'.
  unfold findOrCreateEntity. autorewrite with store. fields.
  change (entities (exec newDate w)) with (entities w).
  rewrite Hname. cbn [head]. autorewrite with store. fields.
  change (nanoid (exec newDate w) (drawn (exec newDate w))) with entityId.
  unfold trackContribution. autorewrite with store. fields.
  change (contributions (exec newId (exec newDate w))) with (contributions w).
  rewrite Hcontrib. cbn [head]. autorewrite with store. fields.
  change (contributions (exec newId (exec newDate w))) with (contributions w).
  change (entities (exec newId (exec newDate w))) with (entities w).
  split; [reflexivity|]. split.
  - unfold insertRow. rewrite length_app. simpl. lia.
  - eexists. split.
    + unfold updateWhere, insertRow. apply in_map_iff. eexists.
      split; [reflexivity|]. apply in_or_app. right. left. reflexivity.
    + cbn [ent_id]. rewrite String.eqb_refl. repeat split.
Qed.

(** C2 (what the code does): the first [findOrCreateEntity] for a
    brand-new name inserts the entity with [contributorCount = 1] and then
    counts its only contribution row once more. *)
Theorem first_contributor_counted_twice :
  let w := exec firstMention Scenario.freshWorld in
  map ent_normalizedName (entities w) = ["fractions"]
  /\ map ctb_entityId (contributions w) = map ent_id (entities w)
  /\ map ent_contributorCount (entities w) = [2]
  /\ map ent_trajectoryCount (entities w) = [1]
  /\ map ent_touchCount (entities w) = [1].
Proof. vm_compute. repeat split. Qed.

(** C3 (what the code does): one chat turn with two new typed tags
    on a fresh store creates the two entities, one edge of weight 1 from the
    first to the second and one co-occurrence row of count 1, but leaves each
    entity with [touchCount = 2] and [contributorCount = 2]. *)
Theorem fresh_turn_counts messageContext :
  let w := exec (processMessage "alice.near" typedMessage None messageContext Threw)
             Scenario.freshWorld in
  map (fun e => (ent_id e, ent_normalizedName e, ent_entityType e)) (entities w)
  = [("id3", "fractions", Some "topic"); ("id6", "visual models", Some "strategy")]
  /\ map ent_touchCount (entities w) = [2; 2]
  /\ map ent_contributorCount (entities w) = [2; 2]
  /\ map (fun c => (ctb_entityId c, ctb_nearAccountId c)) (contributions w)
     = [("id3", "alice.near"); ("id6", "alice.near")]
  /\ map (fun e => (edge_sourceEntityId e, edge_targetEntityId e, edge_weight e)) (edges w)
     = [("id3", "id6", 1)]
  /\ map (fun c => (cooc_entityA c, cooc_entityB c, cooc_count c)) (cooccurrences w)
     = [("id3", "id6", 1)].
Proof. vm_compute. repeat split. Qed.

(** Without a forward edge the projection is empty, whatever the reverse
    edges are. *)
Lemma projectOutcomesFromEdges_forward_gate w inputEntityIds :
  forwardOutcomeEdges w inputEntityIds = [] ->
  projectOutcomesFromEdges w inputEntityIds = [].
Proof. intros H. unfold projectOutcomesFromEdges. rewrite H. reflexivity. Qed.

(** C4 (what the code does): the walk leaves one edge, from the
    outcome to the topic.  Simulating from the topic finds no forward edge and
    returns before the reverse edges are read, so the reverse edge that exists
    is not reported. *)
Theorem reverse_edge_alone_is_dropped :
  let w := exec (processMessage "alice.near" outcomeFirstMessage None [] Threw)
             Scenario.freshWorld in
  let inputs := [ {| GraphReasoner.in_name := "fractions";
                     GraphReasoner.in_type := Some "topic" |} ] in
  let ids := map GraphReasoner.re_id (fst (GraphReasoner.resolveEntities w inputs)) in
  map ent_entityType (entities w) = [Some "outcome"; Some "topic"]
  /\ map (fun e => (edge_sourceEntityId e, edge_targetEntityId e)) (edges w)
     = [("id3", "id6")]
  /\ ids = ["id6"]
  /\ GraphReasoner.forwardOutcomeEdges w ids = []
  /\ List.length (GraphReasoner.reverseOutcomeEdges w ids) = 1
  /\ GraphReasoner.projectOutcomesFromEdges w ids = []
  /\ GraphReasoner.sim_outcomes (GraphReasoner.simulate w inputs) = [].
Proof. vm_compute. repeat split. Qed.

(** C5 (what the code does): when the strategy is touched right
    before the outcome, [strengthenEdges] has already inserted the edge S:O
    without a relationship type, and [trackOutcomes] then only increments it:
    the edge ends with no [relationshipType] and weight 2. *)
Theorem adjacent_outcome_edge_untyped :
  let w := exec (processMessage "alice.near" strategyOutcomeMessage None [] Threw)
             Scenario.freshWorld in
  map ent_entityType (entities w) = [Some "strategy"; Some "outcome"]
  /\ map ent_id (entities w) = ["id3"; "id6"]
  /\ map (fun e => (edge_id e, edge_relationshipType e, edge_weight e)) (edges w)
     = [("id3:id6", None, 2)].
Proof. vm_compute. repeat split. Qed.

(** When another entity is touched between the strategy and the outcome, the
    edge S:O is inserted by [trackOutcomes] itself, typed and with weight 1. *)
Example separated_outcome_edge_typed :
  let w := exec (processMessage "alice.near" separatedOutcomeMessage None [] Threw)
             Scenario.freshWorld in
  map (fun e => (edge_id e, edge_relationshipType e, edge_weight e)) (edges w)
  = [("id3:id6", None, 1); ("id6:id9", None, 1); ("id3:id9", Some "leads_to", 1)].
Proof. vm_compute. reflexivity. Qed.

(** ** Sorting *)

Section SortBy.

Context {A : Type} (before : A -> A -> bool).
Hypothesis before_asym : forall a b, before a b = true -> before b a = false.

Let notAfter (a b : A) : Prop := before b a = false.

Lemma insertBy_perm x l : Permutation (x :: l) (Js.insertBy before x l).
Proof.
  induction l as [|y r IH]; simpl; [reflexivity|].
  destruct (before y x); [|reflexivity].
  rewrite perm_swap. constructor. exact IH.
Qed.

Lemma sortBy_perm l : Permutation l (Js.sortBy before l).
Proof.
  induction l as [|x r IH]; simpl; [reflexivity|].
  rewrite <- insertBy_perm. constructor. exact IH.
Qed.

Lemma insertBy_hd x y l :
  notAfter y x -> HdRel notAfter y l -> HdRel notAfter y (Js.insertBy before x l).
Proof.
  intros Hyx Hhd. destruct l as [|z r]; simpl; [constructor; exact Hyx|].
  destruct (before z x); constructor; [|exact Hyx].
  inversion Hhd; assumption.
Qed.

Lemma insertBy_sorted x l :
  Sorted notAfter l -> Sorted notAfter (Js.insertBy before x l).
Proof.
  induction 1 as [|y r Hr IH Hhd]; simpl; [repeat constructor|].
  destruct (before y x) eqn:E.
  - constructor; [exact IH|]. apply insertBy_hd; [|exact Hhd].
    apply before_asym. exact E.
  - constructor; [constructor; assumption|]. constructor. exact E.
Qed.

Lemma sortBy_sorted l : Sorted notAfter (Js.sortBy before l).
Proof.
  induction l as [|x r IH]; simpl; [constructor|].
  apply insertBy_sorted. exact IH.
Qed.

End SortBy.

(** ** Sums *)

Lemma sumOf_acc {A} (f : A -> nat) (l : list A) : forall n,
  fold_left (fun sum e => sum + f e) l n = n + list_sum (map f l).
Proof.
  induction l as [|x r IH]; intros n; simpl; [lia|]. rewrite IH. lia.
Qed.

Lemma sumOf_list_sum {A} (f : A -> nat) (l : list A) : sumOf f l = list_sum (map f l).
Proof. unfold sumOf. rewrite sumOf_acc. reflexivity. Qed.


Lemma sumQ_acc (l : list Q) : forall q, (fold_left Qplus l q == q + fold_right Qplus 0 l)%Q.
Proof.
  induction l as [|x r IH]; intros q; simpl.
  - ring.
  - rewrite IH. ring.
Qed.

Lemma sumQ_fold (l : list Q) : (sumQ l == fold_right Qplus 0 l)%Q.
Proof. unfold sumQ. rewrite sumQ_acc. ring. Qed.




(** ** The outcome distribution *)






(** *** Merging per outcome *)




Lemma mergeEdge_keys edge outcome m :
  map fst (mergeEdge edge outcome m)
  = if inArray (ent_id outcome) (map fst m) then map fst m
    else map fst m ++ [ent_id outcome].
Proof.
  unfold inArray. induction m as [|[k0 a] r IH]; cbn [mergeEdge map fst existsb].
  - reflexivity.
  - rewrite (String.eqb_sym (ent_id outcome) k0).
    destruct (String.eqb k0 (ent_id outcome)); cbn [map fst orb]; [reflexivity|].
    rewrite IH. destruct (existsb _ _); reflexivity.
Qed.

Lemma mergeEdge_NoDup edge outcome m :
  NoDup (map fst m) -> NoDup (map fst (mergeEdge edge outcome m)).
Proof.
  intros H. rewrite mergeEdge_keys.
  destruct (inArray (ent_id outcome) (map fst m)) eqn:E; [exact H|].
  apply NoDup_app. split; [exact H|]. split; [|apply NoDup_singleton].
  intros k Hk Hsingle. apply list_elem_of_In in Hk, Hsingle.
  destruct Hsingle as [<- | []].
  assert (inArray (ent_id outcome) (map fst m) = true); [|congruence].
  apply existsb_exists. exists (ent_id outcome). split; [exact Hk | apply String.eqb_refl].
Qed.

Lemma mergeOutcomes_NoDup rows : NoDup (map fst (mergeOutcomes rows)).
Proof.
  unfold mergeOutcomes.
  assert (G : forall m, NoDup (map fst m) ->
                NoDup (map fst (fold_left (fun m r => mergeEdge (fst r) (snd r) m) rows m))).
  { induction rows as [|r rows IH]; intros m Hm; cbn [fold_left]; [exact Hm|].
    apply IH, mergeEdge_NoDup, Hm. }
  apply G. constructor.
Qed.




(** ** Counterfactuals *)

Lemma someNameDiffers_renames change baseInputs :
  someNameDiffers (map (replaceFrom change) baseInputs) baseInputs
  = existsb (renames change) baseInputs.
Proof.
  induction baseInputs as [|input r IH]; simpl; [reflexivity|].
  rewrite IH. f_equal. unfold replaceFrom, renames.
  destruct (matchesFrom (change_from change) input); simpl; [reflexivity|].
  rewrite String.eqb_refl. reflexivity.
Qed.

Lemma alternativeInputs_renames baseInputs change :
  alternativeInputs baseInputs change
  = if existsb (renames change) baseInputs
    then map (replaceFrom change) baseInputs
    else List.filter (fun input => negb (namedLikeFrom change input)) baseInputs
         ++ [change_to change].
Proof.
  unfold alternativeInputs. fold (replaceFrom change).
  rewrite someNameDiffers_renames. reflexivity.
Qed.

Lemma alternativeInputs_single name ty to :
  alternativeInputs [ {| in_name := name; in_type := ty |} ]
    {| change_from := {| in_name := name; in_type := None |}; change_to := to |}
  = [to].
Proof.
  rewrite alternativeInputs_renames.
  unfold renames, namedLikeFrom, replaceFrom, matchesFrom.
  cbn [existsb map List.filter in_name in_type change_from change_to Js.truthy].
  rewrite String.eqb_refl.
  destruct (String.eqb (in_name to) name); reflexivity.
Qed.

Lemma compareOutcomes_uncertain original alternative change :
  Nat.min (sim_totalObservations original) (sim_totalObservations alternative) < 5 ->
  cmp_netEffect (compareOutcomes original alternative change) = Uncertain.
Proof.
  intros H. unfold compareOutcomes. cbn [cmp_netEffect].
  apply Nat.ltb_lt in H. rewrite H. reflexivity.
Qed.

(** A swap that the code sees, and the override: for a one-element base
    named like an untyped [from], the alternative simulated is [to] alone; and
    when the smaller of the two [totalObservations] is below 5, the net effect
    is [uncertain]. *)
Lemma counterfactual_single_swap :
  (forall w name ty to,
     cf_alternative
       (counterfactual w [ {| in_name := name; in_type := ty |} ]
          {| change_from := {| in_name := name; in_type := None |}; change_to := to |})
     = simulate w [to])
  /\ (forall w baseInputs change,
        let result := counterfactual w baseInputs change in
        Nat.min (sim_totalObservations (cf_original result))
                (sim_totalObservations (cf_alternative result)) < 5 ->
        cmp_netEffect (cf_comparison result) = Uncertain).
Proof.
  split.
  - intros. unfold counterfactual. cbn [cf_alternative].
    rewrite alternativeInputs_single. reflexivity.
  - intros w baseInputs change result H. apply compareOutcomes_uncertain. exact H.
Qed.

(** C8 fails in the code: the strategy [x] matches [from] and is replaced by
    [to], but [to] has the name of the element it replaces, so the test
    [alt.name !== baseInputs[i]?.name] sees no swap and the branch commented
    "If no swap happened, add the new entity" runs: it drops every element
    named like [from], the topic [x] included, and appends [to].  The claim
    keeps the topic.  On a store that knows the topic [x], the alternative
    resolves nothing where the claim's list resolves the topic. *)
Theorem same_name_swap_drops_bystander :
  existsb (matchesFrom (change_from retypeX)) twoX = true
  /\ alternativeInputs twoX retypeX = [change_to retypeX]
  /\ alternativeInputsSpec twoX retypeX
     = [change_to retypeX; {| in_name := "x"; in_type := Some "topic" |}]
  /\ alternativeInputs twoX retypeX <> alternativeInputsSpec twoX retypeX
  /\ map re_name (sim_resolved (cf_alternative (counterfactual topicX twoX retypeX))) = []
  /\ map re_name (sim_resolved (simulate topicX (alternativeInputsSpec twoX retypeX))) = ["x"].
Proof. vm_compute. repeat split. discriminate. Qed.

(** ** Stores written by the engine *)

Lemma forEach_invariant {A} (P : World -> Prop) (xs : list A) (body : A -> M unit) :
  (forall x w, P w -> P (exec (body x) w)) ->
  forall w, P w -> P (exec (forEach xs body) w).
Proof.
  intros Hbody. induction xs as [|x r IH]; intros w Hw; simpl; [exact Hw|].
  rewrite exec_bind. apply IH, Hbody, Hw.
Qed.

Lemma trackContribution_edges entityId nearAccountId trajectoryId timestamp w :
  edges (exec (trackContribution entityId nearAccountId trajectoryId timestamp) w) = edges w.
Proof.
  unfold trackContribution. autorewrite with store.
  destruct (head _); reflexivity.
Qed.

Lemma findOrCreateEntity_edges nearAccountId trajectoryId name entityType description w :
  edges (exec (findOrCreateEntity nearAccountId trajectoryId name entityType description) w)
  = edges w.
Proof.
  unfold findOrCreateEntity. autorewrite with store.
  rewrite trackContribution_edges.
  destruct (head _); reflexivity.
Qed.

Lemma updateWhere_Forall {A} (P : A -> Prop) (p : A -> bool) (f : A -> A) (l : list A) :
  (forall x, P x -> P (f x)) -> Forall P l -> Forall P (updateWhere p f l).
Proof.
  intros Hf H. unfold updateWhere. induction H as [|x r Hx _ IH]; simpl; constructor; auto.
  destruct (p x); auto.
Qed.

Lemma insertRow_Forall {A} (P : A -> Prop) (row : A) (l : list A) :
  P row -> Forall P l -> Forall P (insertRow row l).
Proof.
  intros Hrow H. unfold insertRow. apply Forall_app. split; [exact H|]. repeat constructor. exact Hrow.
Qed.

Lemma bumpEdge_zeroValence existing timestamp e :
  zeroValence e -> zeroValence (bumpEdge existing timestamp e).
Proof. intros H. exact H. Qed.

Lemma strengthenStep_noValence timestamp sourceId targetId w :
  noValence w -> noValence (exec (strengthenStep timestamp sourceId targetId) w).
Proof.
  intros H. unfold strengthenStep.
  destruct (_ || _); [exact H|].
  autorewrite with store. unfold noValence.
  destruct (head _); cbn [exec_modify]; autorewrite with store; unfold noValence; fields.
  - apply updateWhere_Forall; [apply bumpEdge_zeroValence | exact H].
  - apply insertRow_Forall; [split; reflexivity | exact H].
Qed.

Lemma strengthenLoop_noValence timestamp entityIds : forall w,
  noValence w -> noValence (exec (strengthenLoop timestamp entityIds) w).
Proof.
  induction entityIds as [|sourceId rest IH]; intros w H; [exact H|].
  destruct rest as [|targetId rest']; [exact H|].
  change (strengthenLoop timestamp (sourceId :: targetId :: rest'))
    with (bind (strengthenStep timestamp sourceId targetId) (fun pushed =>
          bind (strengthenLoop timestamp (targetId :: rest')) (fun more =>
          ret (pushed ++ more)))).
  autorewrite with store.
  apply IH, strengthenStep_noValence, H.
Qed.

Lemma upsertOutcomeEdge_noValence timestamp strategy outcome w :
  noValence w -> noValence (exec (upsertOutcomeEdge timestamp strategy outcome) w).
Proof.
  intros H. unfold upsertOutcomeEdge. autorewrite with store.
  destruct (head _); autorewrite with store; unfold noValence; fields.
  - apply updateWhere_Forall; [apply bumpEdge_zeroValence | exact H].
  - apply insertRow_Forall; [split; reflexivity | exact H].
Qed.

Lemma trackOutcomes_noValence entityIds timestamp w :
  noValence w -> noValence (exec (trackOutcomes entityIds timestamp) w).
Proof.
  intros H. unfold trackOutcomes.
  destruct entityIds; [exact H|].
  autorewrite with store.
  destruct (List.filter (hasType "outcome") _); [exact H|].
  destruct (List.filter (hasType "strategy") _); [exact H|].
  apply forEach_invariant; [|exact H]. intros s w' H'.
  apply forEach_invariant; [|exact H']. intros o w'' H''.
  apply upsertOutcomeEdge_noValence, H''.
Qed.

Lemma completeTrajectory_noValence trajectoryId nearAccountId summary w :
  noValence w -> noValence (exec (completeTrajectory trajectoryId nearAccountId summary) w).
Proof.
  intros H. unfold completeTrajectory. autorewrite with store.
  unfold noValence. fields.
  match goal with |- Forall zeroValence (edges ?x) => change (noValence x) end.
  apply trackOutcomes_noValence.
  unfold strengthenEdges.
  match goal with |- noValence (exec (if ?c then _ else _) ?w0) =>
    assert (Hw0 : noValence w0); [|destruct c; [exact Hw0 | apply strengthenLoop_noValence, Hw0]]
  end.
  unfold noValence. unfold updateCooccurrences.
  match goal with |- Forall _ (edges (exec (if ?c then _ else _) ?w0)) =>
    assert (Hw0 : edges w0 = edges w);
      [|destruct c; [|rewrite (forPairs_preserves edges)
                        by (intros; apply upsertCooccurrence_core)];
        autorewrite with store; rewrite Hw0; exact H]
  end.
  rewrite (forEach_preserves edges) by reflexivity.
  destruct (allIds _ _); reflexivity.
Qed.

Lemma keeps_bind {A B} P (c : M A) (k : A -> M B) :
  keeps P c -> (forall x, keeps P (k x)) -> keeps P (bind c k).
Proof. intros Hc Hk w Hw. rewrite exec_bind. apply Hk, Hc, Hw. Qed.

Lemma keeps_ret {A} P (x : A) : keeps P (ret x).
Proof. intros w Hw. exact Hw. Qed.

Lemma keeps_foldM {A S} P (xs : list A) (body : S -> A -> M S) :
  (forall s x, keeps P (body s x)) -> forall s, keeps P (foldM xs body s).
Proof.
  intros Hbody. induction xs as [|x r IH]; intros s; simpl.
  - apply keeps_ret.
  - apply keeps_bind; [apply Hbody | intros; apply IH].
Qed.

Lemma keeps_edges {A} (c : M A) :
  (forall w, edges (exec c w) = edges w) -> keeps noValence c.
Proof. intros H w Hw. unfold noValence. rewrite H. exact Hw. Qed.

Lemma processMessage_noValence nearAccountId message conversationId messageContext llm :
  keeps noValence (processMessage nearAccountId message conversationId messageContext llm).
Proof.
  unfold processMessage, createConversation, getConversationHistory.
  repeat first
    [ apply keeps_ret
    | match goal with
      | |- keeps _ (completeTrajectory _ _ _) =>
          intros w0 Hw0; apply completeTrajectory_noValence; exact Hw0
      | |- keeps _ (logEvent _ _) => apply keeps_edges; intros; apply logEvent_edges
      | |- keeps _ (findOrCreateEntity _ _ _ _ _) =>
          apply keeps_edges; intros; apply findOrCreateEntity_edges
      | |- keeps _ (startTrajectory _ _ _) =>
          apply keeps_edges; intros; apply startTrajectory_spec
      | |- keeps _ (foldM _ _ _) => apply keeps_foldM; intros ? ?
      | |- keeps _ (match ?x with _ => _ end) => destruct x
      | |- keeps _ (bind _ _) => apply keeps_bind; [|intros ?]
      | |- keeps _ _ => apply keeps_edges; intros; reflexivity
      end ].
Qed.

Lemma engine_written_noValence w : EngineWritten w -> noValence w.
Proof.
  induction 1 as [w Hw| | | | |].
  - unfold noValence. rewrite Hw. constructor.
  - unfold noValence. rewrite (proj1 (proj2 (proj2 (startTrajectory_spec _ _ _ _)))).
    assumption.
  - unfold noValence. rewrite logEvent_edges. assumption.
  - unfold noValence. rewrite findOrCreateEntity_edges. assumption.
  - apply completeTrajectory_noValence. assumption.
  - apply processMessage_noValence. assumption.
Qed.

(** ** Differentiators on a store without valence counts *)

Lemma joinEntity_edges key es ents :
  Forall (fun r => In (fst r) es) (joinEntity key es ents).
Proof.
  unfold joinEntity. apply List.Forall_forall. intros [e o] Hin.
  apply in_flat_map in Hin as (e' & He' & Hin).
  apply in_map_iff in Hin as (o' & Heq & _). inversion Heq; subst. exact He'.
Qed.

Lemma getOutcomeEdgesForEntity_zero w entityId :
  noValence w ->
  Forall (fun oe => oe_positiveCount oe = 0 /\ oe_negativeCount oe = 0)
         (getOutcomeEdgesForEntity w entityId).
Proof.
  intros H. unfold getOutcomeEdgesForEntity.
  apply List.Forall_forall. intros oe Hin.
  apply in_map_iff in Hin as (r & <- & Hr).
  apply filter_In in Hr as [Hr _].
  pose proof (joinEntity_edges edge_targetEntityId (edges w) (entities w)) as Hj.
  rewrite List.Forall_forall in Hj. specialize (Hj r Hr).
  unfold noValence in H. rewrite List.Forall_forall in H.
  exact (H _ Hj).
Qed.

Lemma sumOf_zero {A} (f : A -> nat) (l : list A) :
  Forall (fun x => f x = 0) l -> sumOf f l = 0.
Proof.
  intros H. rewrite sumOf_list_sum.
  induction H as [|x r Hx _ IH]; simpl; [reflexivity|]. rewrite Hx, IH. reflexivity.
Qed.

Lemma computeOutcomeShift_baseline outcomeEdges :
  Forall (fun oe => oe_positiveCount oe = 0 /\ oe_negativeCount oe = 0) outcomeEdges ->
  positiveRate (os_withEntity (computeOutcomeShift outcomeEdges)) = baselineRate
  /\ os_magnitude (computeOutcomeShift outcomeEdges) = Qabs (baselineRate - baselineRate).
Proof.
  intros H. unfold computeOutcomeShift.
  rewrite (sumOf_zero oe_positiveCount), (sumOf_zero oe_negativeCount).
  - split; reflexivity.
  - eapply Forall_impl; [exact H|]. intros oe [_ Hn]. exact Hn.
  - eapply Forall_impl; [exact H|]. intros oe [Hp _]. exact Hp.
Qed.

Lemma differentiatorOf_none w inputEntityIds row :
  noValence w -> differentiatorOf w inputEntityIds row = [].
Proof.
  intros H. unfold differentiatorOf. destruct row as [cooc entity].
  destruct (inArray (ent_id entity) inputEntityIds); [reflexivity|].
  destruct (computeOutcomeShift_baseline _
              (getOutcomeEdgesForEntity_zero w (ent_id entity) H)) as [_ Hm].
  rewrite Hm. reflexivity.
Qed.

Lemma findDifferentiatorsFromStructure_none w inputEntityIds :
  noValence w -> findDifferentiatorsFromStructure w inputEntityIds = [].
Proof.
  intros H. unfold findDifferentiatorsFromStructure.
  rewrite (List.flat_map_ext _ (fun _ => [])) by (intros; apply differentiatorOf_none, H).
  match goal with |- context [flat_map _ ?l] => induction l as [|x r IH] end;
    [reflexivity | exact IH].
Qed.

(** C10: on a store whose edges were all written by the engine, the valence
    counters are 0, every candidate sits at the 0.5 baseline and is dropped,
    so [simulate] returns no differentiator and [hasPatterns] is true exactly
    when there is an outcome. *)
Theorem simulate_without_valence w inputs :
  EngineWritten w ->
  noValence w
  /\ sim_differentiators (simulate w inputs) = []
  /\ (sim_hasPatterns (simulate w inputs) = true <-> sim_outcomes (simulate w inputs) <> []).
Proof.
  intros Hw. pose proof (engine_written_noValence w Hw) as H.
  split; [exact H|].
  unfold simulate.
  destruct (resolveEntities w inputs) as [resolved unresolved].
  destruct resolved as [|r0 resolved].
  - cbn. split; [reflexivity|]. split; [discriminate | congruence].
  - cbn [sim_differentiators sim_hasPatterns sim_outcomes].
    rewrite findDifferentiatorsFromStructure_none by exact H.
    split; [reflexivity|].
    destruct (projectOutcomesFromEdges w (map re_id (r0 :: resolved))); cbn.
    + split; [discriminate | congruence].
    + split; [discriminate | reflexivity].
Qed.

Lemma simulate_without_valence_witness :
  List.length (cooccurringEntities labWorld ["id6"]) = 3
  /\ sim_differentiators (simulate labWorld workedExamples) = []
  /\ sim_hasPatterns (simulate labWorld workedExamples) = true.
Proof.
  split; [vm_compute; reflexivity|].
  destruct (simulate_without_valence labWorld workedExamples) as (_ & Hd & Hp).
  - apply written_turn, written_none. reflexivity.
  - split; [exact Hd|]. apply Hp. vm_compute. discriminate.
Defined.

(** ** Characters and strings *)

(** Case analysis over the 256 characters. *)
Ltac each_char c :=
  destruct c as [[] [] [] [] [] [] [] []]; try reflexivity; try discriminate.

Lemma isSpace_lowerChar c : Js.isSpace (Js.lowerChar c) = Js.isSpace c.
Proof. each_char c. Qed.

Lemma lowerChar_idem c : Js.lowerChar (Js.lowerChar c) = Js.lowerChar c.
Proof. each_char c. Qed.

Lemma isWord_lowerChar c : Js.isWord c = true -> Js.isWord (Js.lowerChar c) = true.
Proof. each_char c. Qed.

Lemma isWord_notSpace c : Js.isWord c = true -> Js.isSpace c = false.
Proof. each_char c. Qed.

Lemma isWord_notBracketColon c : Js.isWord c = true -> notBracketColon c = true.
Proof. each_char c. Qed.

Lemma isWord_notOpen c : Js.isWord c = true -> Ascii.eqb c "[" = false.
Proof. each_char c. Qed.

Lemma notBracket_lowerChar c : notBracket c = true -> notBracket (Js.lowerChar c) = true.
Proof. each_char c. Qed.

Lemma allChars_impl (p q : ascii -> bool) s :
  (forall c, p c = true -> q c = true) -> allChars p s = true -> allChars q s = true.
Proof.
  intros H. induction s as [|c r IH]; simpl; [reflexivity|].
  intros Hs. apply andb_true_iff in Hs as [Hc Hr].
  rewrite (H c Hc), (IH Hr). reflexivity.
Qed.

Lemma allChars_toLowerCase (p : ascii -> bool) s :
  (forall c, p c = true -> p (Js.lowerChar c) = true) ->
  allChars p s = true -> allChars p (Js.toLowerCase s) = true.
Proof.
  intros H. induction s as [|c r IH]; simpl; [reflexivity|].
  intros Hs. apply andb_true_iff in Hs as [Hc Hr].
  rewrite (H c Hc), (IH Hr). reflexivity.
Qed.

Lemma toLowerCase_idem s : Js.toLowerCase (Js.toLowerCase s) = Js.toLowerCase s.
Proof.
  induction s as [|c r IH]; simpl; [reflexivity|]. rewrite lowerChar_idem, IH. reflexivity.
Qed.

Lemma toLowerCase_empty s : Js.toLowerCase s = EmptyString -> s = EmptyString.
Proof. destruct s; [reflexivity | discriminate]. Qed.

(** *** trim *)

Lemma allChars_trimStart p s : allChars p s = true -> allChars p (Js.trimStart s) = true.
Proof.
  induction s as [|c r IH]; simpl; [reflexivity|].
  intros Hs. destruct (Js.isSpace c); [|exact Hs].
  apply andb_true_iff in Hs as [_ Hr]. exact (IH Hr).
Qed.

Lemma allChars_trimEnd p s : allChars p s = true -> allChars p (Js.trimEnd s) = true.
Proof.
  induction s as [|c r IH]; simpl; [reflexivity|].
  intros Hs. apply andb_true_iff in Hs as [Hc Hr]. specialize (IH Hr).
  destruct (Js.trimEnd r) as [|d r'].
  - destruct (Js.isSpace c); simpl; [reflexivity|]. rewrite Hc. reflexivity.
  - simpl in *. rewrite Hc. exact IH.
Qed.

Lemma allChars_trim p s : allChars p s = true -> allChars p (Js.trim s) = true.
Proof. intros H. apply allChars_trimEnd, allChars_trimStart, H. Qed.

Lemma trimStart_toLowerCase s :
  Js.trimStart (Js.toLowerCase s) = Js.toLowerCase (Js.trimStart s).
Proof.
  induction s as [|c r IH]; simpl; [reflexivity|].
  rewrite isSpace_lowerChar. destruct (Js.isSpace c); [exact IH | reflexivity].
Qed.

Lemma trimEnd_toLowerCase s :
  Js.trimEnd (Js.toLowerCase s) = Js.toLowerCase (Js.trimEnd s).
Proof.
  induction s as [|c r IH]; simpl; [reflexivity|].
  rewrite IH, isSpace_lowerChar.
  destruct (Js.trimEnd r); simpl; [destruct (Js.isSpace c)|]; reflexivity.
Qed.

Lemma trim_toLowerCase s : Js.trim (Js.toLowerCase s) = Js.toLowerCase (Js.trim s).
Proof. unfold Js.trim. rewrite trimStart_toLowerCase, trimEnd_toLowerCase. reflexivity. Qed.

Lemma trimEnd_idem s : Js.trimEnd (Js.trimEnd s) = Js.trimEnd s.
Proof.
  induction s as [|c r IH]; simpl; [reflexivity|].
  destruct (Js.trimEnd r) as [|d r'] eqn:E.
  - destruct (Js.isSpace c) eqn:Ec; simpl; [reflexivity|]. rewrite Ec. reflexivity.
  - simpl in *. rewrite IH. reflexivity.
Qed.

Lemma trimStart_startsClean s : startsClean (Js.trimStart s) = true.
Proof.
  induction s as [|c r IH]; simpl; [reflexivity|].
  destruct (Js.isSpace c) eqn:E; [exact IH|]. simpl. rewrite E. reflexivity.
Qed.

Lemma trimStart_clean s : startsClean s = true -> Js.trimStart s = s.
Proof.
  destruct s as [|c r]; simpl; [reflexivity|].
  intros H. apply negb_true_iff in H. rewrite H. reflexivity.
Qed.

Lemma trimEnd_startsClean s : startsClean s = true -> startsClean (Js.trimEnd s) = true.
Proof.
  destruct s as [|c r]; simpl; [reflexivity|].
  intros H. destruct (Js.trimEnd r); [|exact H].
  apply negb_true_iff in H. rewrite H. simpl. rewrite H. reflexivity.
Qed.

Lemma trim_idem s : Js.trim (Js.trim s) = Js.trim s.
Proof.
  unfold Js.trim.
  rewrite (trimStart_clean (Js.trimEnd (Js.trimStart s)))
    by apply trimEnd_startsClean, trimStart_startsClean.
  apply trimEnd_idem.
Qed.

Lemma trimEnd_noSpace s :
  allChars (fun c => negb (Js.isSpace c)) s = true -> Js.trimEnd s = s.
Proof.
  induction s as [|c r IH]; simpl; [reflexivity|].
  intros Hs. apply andb_true_iff in Hs as [Hc Hr]. rewrite (IH Hr).
  apply negb_true_iff in Hc. rewrite Hc. destruct r; reflexivity.
Qed.

Lemma trim_noSpace s :
  allChars (fun c => negb (Js.isSpace c)) s = true -> Js.trim s = s.
Proof.
  intros H. unfold Js.trim. rewrite trimStart_clean.
  - apply trimEnd_noSpace, H.
  - destruct s as [|c r]; simpl in *; [reflexivity|].
    apply andb_true_iff in H as [Hc _]. exact Hc.
Qed.

(** Normalising a name or a type twice changes nothing. *)
Lemma normalize_name_idem s :
  Js.toLowerCase (Js.trim (Js.toLowerCase (Js.trim s))) = Js.toLowerCase (Js.trim s).
Proof. rewrite <- trim_toLowerCase, toLowerCase_idem, trim_toLowerCase, trim_idem. reflexivity. Qed.

Lemma normalize_type_word s :
  allChars Js.isWord s = true -> Js.trim (Js.toLowerCase s) = Js.toLowerCase s.
Proof.
  intros H. apply trim_noSpace.
  apply allChars_impl with (p := Js.isWord).
  - intros c Hc. rewrite (isWord_notSpace c Hc). reflexivity.
  - apply allChars_toLowerCase; [exact isWord_lowerChar | exact H].
Qed.

(** *** Greedy repetition *)

Lemma span_spec p s a b :
  span p s = (a, b) -> s = a +:+ b /\ allChars p a = true /\ stops p b = true.
Proof.
  revert a b. induction s as [|c r IH]; simpl; intros a b H.
  - inversion H; subst. auto.
  - destruct (p c) eqn:Ec.
    + destruct (span p r) as [a' b'] eqn:Er. inversion H; subst.
      destruct (IH a' b eq_refl) as (-> & Ha & Hb). simpl. rewrite Ec. auto.
    + inversion H; subst. simpl. rewrite Ec. auto.
Qed.

Lemma span_app p a b :
  allChars p a = true -> stops p b = true -> span p (a +:+ b) = (a, b).
Proof.
  intros Ha Hb. induction a as [|c r IH]; simpl in *.
  - destruct b as [|d b']; [reflexivity|]. simpl in Hb |- *.
    apply negb_true_iff in Hb. rewrite Hb. reflexivity.
  - apply andb_true_iff in Ha as [Hc Hr]. rewrite Hc, (IH Hr). reflexivity.
Qed.

(** *** The two expressions at one position *)

Lemma matchTypedAt_spec s w c n :
  matchTypedAt s = Some (w, c, n) ->
  exists rest,
    s = "[[" +:+ w +:+ ":" +:+ c +:+ "]]" +:+ rest
    /\ w <> EmptyString /\ allChars Js.isWord w = true
    /\ c <> EmptyString /\ allChars notBracket c = true
    /\ n = String.length w + String.length c + 5.
Proof.
  unfold matchTypedAt. intros H.
  destruct s as [|c0 s]; [discriminate|].
  destruct c0 as [[] [] [] [] [] [] [] []]; try discriminate.
  destruct s as [|c1 s]; [discriminate|].
  destruct c1 as [[] [] [] [] [] [] [] []]; try discriminate.
  destruct (span Js.isWord s) as [w' r1] eqn:Ew.
  destruct w' as [|w0 w']; [discriminate|].
  destruct r1 as [|c2 r2]; [discriminate|].
  destruct c2 as [[] [] [] [] [] [] [] []]; try discriminate.
  destruct (span notBracket r2) as [c' r3] eqn:Ec.
  destruct c' as [|c3 c']; [discriminate|].
  destruct r3 as [|c4 r3]; [discriminate|].
  destruct c4 as [[] [] [] [] [] [] [] []]; try discriminate.
  destruct r3 as [|c5 r4]; [discriminate|].
  destruct c5 as [[] [] [] [] [] [] [] []]; try discriminate.
  inversion H; subst.
  apply span_spec in Ew as (-> & Hw & _).
  apply span_spec in Ec as (-> & Hc & _).
  exists r4. repeat split; try discriminate; try assumption.
Qed.

Lemma matchUntypedAt_spec s c n :
  matchUntypedAt s = Some (c, n) ->
  exists rest,
    s = "[[" +:+ c +:+ "]]" +:+ rest
    /\ c <> EmptyString /\ allChars notBracketColon c = true.
Proof.
  unfold matchUntypedAt. intros H.
  destruct s as [|c0 s]; [discriminate|].
  destruct c0 as [[] [] [] [] [] [] [] []]; try discriminate.
  destruct s as [|c1 s]; [discriminate|].
  destruct c1 as [[] [] [] [] [] [] [] []]; try discriminate.
  destruct (span notBracketColon s) as [c' r1] eqn:Ec.
  destruct c' as [|c3 c']; [discriminate|].
  destruct r1 as [|c4 r1]; [discriminate|].
  destruct c4 as [[] [] [] [] [] [] [] []]; try discriminate.
  destruct r1 as [|c5 r2]; [discriminate|].
  destruct c5 as [[] [] [] [] [] [] [] []]; try discriminate.
  inversion H; subst.
  apply span_spec in Ec as (-> & Hc & _).
  exists r2. repeat split; try discriminate; try assumption.
Qed.

Lemma matchTypedAt_tag w c rest :
  w <> EmptyString -> allChars Js.isWord w = true ->
  c <> EmptyString -> allChars notBracket c = true ->
  matchTypedAt ("[[" +:+ w +:+ ":" +:+ c +:+ "]]" +:+ rest)
  = Some (w, c, String.length w + String.length c + 5).
Proof.
  intros Hw0 Hw Hc0 Hc.
  change (matchTypedAt
            (String "[" (String "[" (w +:+ String ":" (c +:+ String "]" (String "]" rest)))))
          = Some (w, c, String.length w + String.length c + 5)).
  unfold matchTypedAt.
  rewrite (span_app Js.isWord w) by (assumption || reflexivity).
  destruct w as [|w0 w']; [congruence|].
  rewrite (span_app notBracket c) by (assumption || reflexivity).
  destruct c as [|c0 c']; [congruence|]. reflexivity.
Qed.

Lemma matchUntypedAt_typed w rest :
  w <> EmptyString -> allChars Js.isWord w = true ->
  matchUntypedAt ("[[" +:+ w +:+ ":" +:+ rest) = None.
Proof.
  intros Hw0 Hw.
  change (matchUntypedAt (String "[" (String "[" (w +:+ String ":" rest))) = None).
  unfold matchUntypedAt.
  rewrite (span_app notBracketColon w).
  - destruct w; [congruence | reflexivity].
  - eapply allChars_impl; [exact isWord_notBracketColon | exact Hw].
  - reflexivity.
Qed.

(** A span that the typed expression matches is not matched by the untyped
    one. *)
Lemma typed_excludes_untyped s w c n :
  matchTypedAt s = Some (w, c, n) -> matchUntypedAt s = None.
Proof.
  intros H. apply matchTypedAt_spec in H as (rest & -> & Hw0 & Hw & _).
  apply matchUntypedAt_typed; assumption.
Qed.

(** *** The exec loop *)

Lemma execAll_In {A} (matchAt : string -> option (A * nat)) x s : forall skip,
  In x (execAll matchAt skip s) -> exists s' n, matchAt s' = Some (x, n).
Proof.
  induction s as [|c r IH]; intros skip H.
  - destruct skip; simpl in H; [|contradiction].
    destruct (matchAt EmptyString) as [[y n]|] eqn:E; simpl in H; [|contradiction].
    destruct H as [<-|[]]. eauto.
  - destruct skip; simpl in H; [|eauto].
    destruct (matchAt (String c r)) as [[y n]|] eqn:E; [|eauto].
    destruct H as [<-|H]; eauto.
Qed.

Lemma execAll_skip_all {A} (matchAt : string -> option (A * nat)) s : forall skip,
  matchAt EmptyString = None -> String.length s <= skip -> execAll matchAt skip s = [].
Proof.
  induction s as [|c r IH]; intros skip Hnil Hlen.
  - destruct skip; simpl; [rewrite Hnil|]; reflexivity.
  - destruct skip; simpl in *; [lia|]. apply IH; [exact Hnil | lia].
Qed.

Lemma execAll_quiet {A} (matchAt : string -> option (A * nat)) s :
  quiet matchAt s -> execAll matchAt 0 s = [].
Proof.
  induction s as [|c r IH]; intros [Hs Hr]; simpl; rewrite Hs; [reflexivity|].
  apply IH, Hr.
Qed.

Lemma matchUntypedAt_opens s :
  Js.startsWith s "[[" = false -> matchUntypedAt s = None.
Proof.
  intros H. destruct (matchUntypedAt s) as [[c n]|] eqn:E; [|reflexivity].
  apply matchUntypedAt_spec in E as (rest & -> & _).
  change (Js.startsWith (String "[" (String "[" (c +:+ "]]" +:+ rest))) "[[" = false) in H.
  discriminate.
Qed.

Lemma quiet_without_open s :
  Js.includes s "[[" = false -> quiet matchUntypedAt s.
Proof.
  induction s as [|c r IH]; intros H.
  - split; [reflexivity | exact I].
  - cbn [Js.includes] in H. apply orb_false_iff in H as [Hp Hr].
    split; [apply matchUntypedAt_opens; exact Hp | apply IH, Hr].
Qed.

Lemma startsWith_open c r :
  Js.startsWith (String c r) "[[" = Ascii.eqb c "[" && Js.startsWith r "[".
Proof. cbn [Js.startsWith]. rewrite (Ascii.eqb_sym "[" c). reflexivity. Qed.

Lemma includes_open_after w rest :
  allChars notOpen w = true ->
  Js.includes (w +:+ rest) "[[" = Js.includes rest "[[".
Proof.
  induction w as [|c r IH]; intros H; [reflexivity|].
  cbn [allChars] in H. apply andb_true_iff in H as [Hc Hr].
  change (Js.includes (String c (r +:+ rest)) "[[" = Js.includes rest "[[").
  cbn [Js.includes]. rewrite (IH Hr), startsWith_open.
  unfold notOpen in Hc. apply negb_true_iff in Hc.
  rewrite Hc. reflexivity.
Qed.

Lemma includes_open_closing name :
  Js.includes name "[[" = false -> Js.includes (name +:+ "]]") "[[" = false.
Proof.
  induction name as [|c r IH]; intros H; [reflexivity|].
  cbn [Js.includes] in H. apply orb_false_iff in H as [Hp Hr].
  change (Js.includes (String c (r +:+ "]]")) "[[" = false).
  cbn [Js.includes]. rewrite (IH Hr), orb_false_r.
  rewrite startsWith_open in Hp |- *.
  destruct (Ascii.eqb c "["); [|reflexivity].
  destruct r as [|d r']; [reflexivity|].
  exact Hp.
Qed.

(** Nothing in an emitted tag is matched by the untyped expression. *)
Lemma untyped_quiet_on_tag w name :
  w <> EmptyString -> allChars Js.isWord w = true ->
  Js.includes name "[[" = false ->
  quiet matchUntypedAt ("[[" +:+ w +:+ ":" +:+ name +:+ "]]").
Proof.
  intros Hw0 Hw Hname.
  split; [apply matchUntypedAt_typed; assumption|].
  change (quiet matchUntypedAt (String "[" (w +:+ String ":" (name +:+ "]]")))).
  split.
  - apply matchUntypedAt_opens.
    destruct w as [|c r]; [congruence|].
    cbn [allChars] in Hw. apply andb_true_iff in Hw as [Hc _].
    change (String c r +:+ String ":" (name +:+ "]]"))
      with (String c (r +:+ String ":" (name +:+ "]]"))).
    rewrite startsWith_open. cbn [Js.startsWith].
    rewrite (Ascii.eqb_sym "[" c), (isWord_notOpen c Hc). apply andb_false_r.
  - apply quiet_without_open.
    rewrite includes_open_after.
    + cbn [Js.includes]. rewrite startsWith_open. apply includes_open_closing, Hname.
    + eapply allChars_impl; [|exact Hw].
      intros c Hc. unfold notOpen. rewrite (isWord_notOpen c Hc). reflexivity.
Qed.

(** *** Deduplication *)

Lemma seenKey_inj t n t' n' :
  allChars notColon t = true -> allChars notColon t' = true ->
  seenKey t n = seenKey t' n' -> t = t' /\ n = n'.
Proof.
  unfold seenKey. revert t'. induction t as [|c r IH]; intros t' Ht Ht' H.
  - destruct t' as [|c' r'].
    + inversion H. auto.
    + change (String ":" n = String c' (r' +:+ ":" +:+ n')) in H. inversion H; subst.
      cbn [allChars] in Ht'. discriminate.
  - destruct t' as [|c' r'].
    + change (String c (r +:+ ":" +:+ n) = String ":" n') in H. inversion H; subst.
      cbn [allChars] in Ht. discriminate.
    + change (String c (r +:+ ":" +:+ n) = String c' (r' +:+ ":" +:+ n')) in H.
      inversion H; subst.
      cbn [allChars] in Ht, Ht'.
      apply andb_true_iff in Ht as [_ Ht]. apply andb_true_iff in Ht' as [_ Ht'].
      destruct (IH r' Ht Ht' H2) as [-> ->]. auto.
Qed.

Lemma pushUnseen_spec st type name :
  allChars notColon type = true ->
  Deduplicated st ->
  Deduplicated (pushUnseen st type name)
  /\ In {| ee_name := name; ee_type := type |} (fst (pushUnseen st type name))
  /\ (forall e, In e (fst (pushUnseen st type name)) <->
                In e (fst st) \/ e = {| ee_name := name; ee_type := type |}).
Proof.
  intros Hty (Hseen & Htypes & Hnodup). destruct st as [found seen].
  unfold pushUnseen. cbn [fst snd] in *.
  destruct (decide (seenKey type name ∈ seen)) as [Hin|Hout].
  - apply Hseen in Hin as (e & He & Hk).
    destruct e as [n t]. unfold keyOf in Hk. cbn [ee_type ee_name] in Hk.
    destruct (seenKey_inj t n type name (Htypes _ He) Hty Hk) as [-> ->].
    split; [|split].
    + repeat split; try assumption; apply Hseen.
    + exact He.
    + intros e. split; [auto | intros [H | ->]; assumption].
  - cbn [fst snd].
    assert (Hnew : ~ In {| ee_name := name; ee_type := type |} found).
    { intros Hin. apply Hout, Hseen. eexists. split; [exact Hin | reflexivity]. }
    split; [|split].
    + split; [|split]; cbn [fst snd].
      * intros k. rewrite elem_of_union, elem_of_singleton, Hseen. split.
        -- intros [-> | (e & He & Hk)].
           ++ eexists. split; [apply in_or_app; right; left; reflexivity | reflexivity].
           ++ exists e. split; [apply in_or_app; left; exact He | exact Hk].
        -- intros (e & He & Hk). apply in_app_or in He as [He | [<- | []]].
           ++ right. eauto.
           ++ left. symmetry. exact Hk.
      * intros e He. apply in_app_or in He as [He | [<- | []]]; [apply Htypes, He | exact Hty].
      * apply NoDup_app. split; [exact Hnodup|]. split.
        -- intros e He Hsingle. apply list_elem_of_In in He.
           apply list_elem_of_In in Hsingle. destruct Hsingle as [<- | []]. contradiction.
        -- apply NoDup_singleton.
    + apply in_or_app. right. left. reflexivity.
    + intros e. rewrite in_app_iff. cbn [In]. intuition.
Qed.

Lemma pushAll_spec {B} (typeOf nameOf : B -> string) (ms : list B) : forall st,
  (forall m, In m ms -> allChars notColon (typeOf m) = true) ->
  Deduplicated st ->
  let st' := fold_left (fun st m => pushUnseen st (typeOf m) (nameOf m)) ms st in
  Deduplicated st'
  /\ (forall e, In e (fst st') <->
                In e (fst st)
                \/ exists m, In m ms /\ e = {| ee_name := nameOf m; ee_type := typeOf m |}).
Proof.
  induction ms as [|m r IH]; intros st Hty Hst; cbn [fold_left].
  - split; [exact Hst|]. intros e. split; [auto | intros [H | (m & [] & _)]; exact H].
  - destruct (pushUnseen_spec st (typeOf m) (nameOf m)) as (Hst1 & _ & Hin1);
      [apply Hty; left; reflexivity | exact Hst |].
    destruct (IH (pushUnseen st (typeOf m) (nameOf m))) as (Hst2 & Hin2);
      [intros m' Hm'; apply Hty; right; exact Hm' | exact Hst1 |].
    split; [exact Hst2|].
    intros e. rewrite Hin2, Hin1. split.
    + intros [[H | ->] | (m' & Hm' & ->)]; eauto.
      * right. exists m. split; [left|]; reflexivity.
      * right. exists m'. split; [right; exact Hm' | reflexivity].
    + intros [H | (m' & [<- | Hm'] & ->)]; eauto.
Qed.

(** *** What extractEntities yields *)

Lemma typedMatches_spec text w c :
  In (w, c) (typedMatches text) ->
  w <> EmptyString /\ allChars Js.isWord w = true /\ c <> EmptyString /\ allChars notBracket c = true.
Proof.
  intros H. apply execAll_In in H as (s & n & H).
  apply matchTypedAt_spec in H as (rest & _ & H). tauto.
Qed.

Lemma untypedMatches_spec text c :
  In c (untypedMatches text) -> c <> EmptyString /\ allChars notBracketColon c = true.
Proof.
  intros H. apply execAll_In in H as (s & n & H).
  apply matchUntypedAt_spec in H as (rest & _ & H). exact H.
Qed.

Lemma word_type_notColon w :
  allChars Js.isWord w = true -> allChars notColon (Js.trim (Js.toLowerCase w)) = true.
Proof.
  intros H. rewrite normalize_type_word by exact H.
  apply allChars_impl with (p := Js.isWord).
  - intros c Hc. pose proof (isWord_notBracketColon c Hc) as Hn.
    unfold notBracketColon in Hn. apply andb_true_iff in Hn as [_ Hn]. exact Hn.
  - apply allChars_toLowerCase; [exact isWord_lowerChar | exact H].
Qed.

Lemma extractEntities_spec text :
  NoDup (extractEntities text)
  /\ (forall e, In e (extractEntities text) <->
                (exists m, In m (typedMatches text) /\ e = typedMention m)
                \/ (exists m, In m (untypedMatches text) /\ e = untypedMention m)).
Proof.
  unfold extractEntities, untypedPass, typedPass.
  destruct (pushAll_spec (fun m => Js.trim (Js.toLowerCase (fst m)))
              (fun m => Js.toLowerCase (Js.trim (snd m)))
              (typedMatches text) ([], ∅)) as (D1 & I1).
  { intros [w c] Hm. apply typedMatches_spec in Hm as (_ & Hw & _).
    apply word_type_notColon, Hw. }
  { split; [|split]; cbn [fst snd].
    - intros k. split; [intros H; apply not_elem_of_empty in H; contradiction
                       | intros (e & [] & _)].
    - intros e [].
    - apply NoDup_nil_2. }
  destruct (pushAll_spec (fun _ : string => "topic")
              (fun m => Js.toLowerCase (Js.trim m))
              (untypedMatches text) _ (fun _ _ => eq_refl) D1) as (D2 & I2).
  split; [apply D2|].
  intros e. rewrite I2, I1. cbn [fst In]. unfold typedMention, untypedMention. tauto.
Qed.

Lemma normal_name c :
  allChars notBracket c = true ->
  allChars notBracket (Js.toLowerCase (Js.trim c)) = true
  /\ Js.toLowerCase (Js.trim (Js.toLowerCase (Js.trim c))) = Js.toLowerCase (Js.trim c).
Proof.
  intros H. split; [|apply normalize_name_idem].
  apply allChars_toLowerCase; [exact notBracket_lowerChar | apply allChars_trim, H].
Qed.

Lemma extractEntities_wellFormed text e :
  In e (extractEntities text) -> wellFormed e.
Proof.
  intros H. apply (proj2 (extractEntities_spec text)) in H
    as [([w c] & Hm & ->) | (c & Hm & ->)];
    unfold wellFormed, typedMention, untypedMention; cbn [ee_type ee_name fst snd].
  - apply typedMatches_spec in Hm as (Hw0 & Hw & _ & Hc).
    rewrite (normalize_type_word w Hw), toLowerCase_idem.
    assert (Hlw : allChars Js.isWord (Js.toLowerCase w) = true)
      by (apply allChars_toLowerCase; [exact isWord_lowerChar | exact Hw]).
    repeat split.
    + intros E. apply toLowerCase_empty in E. contradiction.
    + exact Hlw.
    + apply normalize_type_word, Hw.
    + apply normal_name, Hc.
    + apply normal_name, Hc.
  - apply untypedMatches_spec in Hm as (_ & Hc).
    assert (Hc' : allChars notBracket c = true).
    { eapply allChars_impl; [|exact Hc]. intros x Hx.
      unfold notBracketColon in Hx. apply andb_true_iff in Hx as [Hx _]. exact Hx. }
    repeat split; try reflexivity; try discriminate; apply normal_name, Hc'.
Qed.

Lemma length_append a b : String.length (a +:+ b) = String.length a + String.length b.
Proof.
  induction a as [|c r IH]; [reflexivity|].
  change (S (String.length (r +:+ b)) = S (String.length r) + String.length b).
  rewrite IH. reflexivity.
Qed.

Lemma execAll_here {A} (matchAt : string -> option (A * nat)) c r x len :
  matchAt (String c r) = Some (x, len) ->
  execAll matchAt 0 (String c r) = x :: execAll matchAt (len - 1) r.
Proof. intros H. simpl. rewrite H. reflexivity. Qed.

Lemma typedMatches_tag e :
  wellFormed e -> ee_name e <> EmptyString ->
  typedMatches (emitTag e) = [(ee_type e, ee_name e)].
Proof.
  intros (Ht0 & Ht & _ & Hn & _) Hn0. unfold typedMatches, emitTag.
  pose proof (matchTypedAt_tag (ee_type e) (ee_name e) EmptyString Ht0 Ht Hn0 Hn) as Hm.
  change ("]]" +:+ EmptyString) with "]]" in Hm.
  change ("[[" +:+ ee_type e +:+ ":" +:+ ee_name e +:+ "]]")
    with (String "[" (String "[" (ee_type e +:+ ":" +:+ ee_name e +:+ "]]"))) in Hm |- *.
  rewrite (execAll_here _ _ _ _ _ Hm). f_equal.
  apply execAll_skip_all; [reflexivity|].
  change (String.length (String "[" (ee_type e +:+ String ":" (ee_name e +:+ "]]")))
          <= String.length (ee_type e) + String.length (ee_name e) + 5 - 1).
  cbn [String.length]. rewrite length_append. cbn [String.length].
  rewrite length_append. cbn [String.length]. lia.
Qed.

Lemma untypedMatches_tag e :
  wellFormed e -> Js.includes (ee_name e) "[[" = false ->
  untypedMatches (emitTag e) = [].
Proof.
  intros (Ht0 & Ht & _) Hopen. apply execAll_quiet.
  apply untyped_quiet_on_tag; assumption.
Qed.

Lemma extractEntities_tag e :
  wellFormed e -> ee_name e <> EmptyString -> Js.includes (ee_name e) "[[" = false ->
  extractEntities (emitTag e) = [e].
Proof.
  intros Hwf Hn0 Hopen. unfold extractEntities, untypedPass, typedPass.
  rewrite (typedMatches_tag e Hwf Hn0), (untypedMatches_tag e Hwf Hopen).
  cbn [fold_left fst snd]. unfold pushUnseen.
  destruct (decide (_ ∈ ∅)) as [Hin|_].
  - apply not_elem_of_empty in Hin. contradiction.
  - destruct Hwf as (_ & _ & Hty & _ & Hnm). rewrite Hty, Hnm.
    destruct e; reflexivity.
Qed.

(** C9 (as the code has it): extraction yields no pair twice, and its pairs
    are exactly the typed spans, read as (trimmed lower-cased type, trimmed
    lower-cased name), and the untyped spans, read as ([topic], trimmed
    lower-cased content): mentions are deduplicated by type and normalised
    name, and every name and type yielded is in normal form.  A span matched
    by the typed expression is never matched by the untyped one.  Re-emitting
    an extracted pair whose name is non-empty and contains no [[ as a tag and
    parsing that tag yields exactly this pair. *)
Theorem extraction_dedup_and_roundtrip :
  (forall text, NoDup (extractEntities text))
  /\ (forall text e,
        In e (extractEntities text) <->
        (exists type name,
           In (type, name) (typedMatches text)
           /\ e = {| ee_name := Js.toLowerCase (Js.trim name);
                     ee_type := Js.trim (Js.toLowerCase type) |})
        \/ (exists name,
              In name (untypedMatches text)
              /\ e = {| ee_name := Js.toLowerCase (Js.trim name); ee_type := "topic" |}))
  /\ (forall text e, In e (extractEntities text) ->
        Js.toLowerCase (Js.trim (ee_name e)) = ee_name e
        /\ Js.trim (Js.toLowerCase (ee_type e)) = ee_type e)
  /\ (forall s w c n, matchTypedAt s = Some (w, c, n) -> matchUntypedAt s = None)
  /\ (forall text c, In c (untypedMatches text) ->
        In {| ee_name := Js.toLowerCase (Js.trim c); ee_type := "topic" |}
           (extractEntities text))
  /\ (forall text e, In e (extractEntities text) ->
        ee_name e <> EmptyString -> Js.includes (ee_name e) "[[" = false ->
        extractEntities (emitTag e) = [e]).
Proof.
  split; [|split; [|split; [|split; [|split]]]].
  - intros text. apply extractEntities_spec.
  - intros text e. rewrite (proj2 (extractEntities_spec text) e).
    unfold typedMention, untypedMention. split.
    + intros [([type name] & Hm & ->) | (name & Hm & ->)].
      * left. exists type, name. auto.
      * right. exists name. auto.
    + intros [(type & name & Hm & ->) | (name & Hm & ->)].
      * left. exists (type, name). auto.
      * right. exists name. auto.
  - intros text e He.
    destruct (extractEntities_wellFormed text e He) as (_ & _ & Hty & _ & Hnm). auto.
  - exact typed_excludes_untyped.
  - intros text c Hc. apply (proj2 (extractEntities_spec text)).
    right. exists c. split; [exact Hc | reflexivity].
  - intros text e He Hn0 Hopen.
    apply extractEntities_tag; [exact (extractEntities_wellFormed text e He) | assumption..].
Qed.

Lemma extraction_dedup_and_roundtrip_witness :
  extractEntities taggedMessage
  = [ {| ee_name := "fractions"; ee_type := "topic" |};
      {| ee_name := "visual models"; ee_type := "topic" |} ]
  /\ matchUntypedAt "[[topic:Fractions]]" = None
  /\ In {| ee_name := "visual models"; ee_type := "topic" |} (extractEntities taggedMessage)
  /\ extractEntities (emitTag {| ee_name := "fractions"; ee_type := "topic" |})
     = [ {| ee_name := "fractions"; ee_type := "topic" |} ].
Proof.
  destruct extraction_dedup_and_roundtrip as (_ & _ & _ & Hexcl & Htopic & Hround).
  split; [vm_compute; reflexivity|]. split; [|split].
  - apply (Hexcl "[[topic:Fractions]]" "topic" "Fractions" 19). vm_compute. reflexivity.
  - apply (Htopic taggedMessage "Visual Models"). vm_compute. left. reflexivity.
  - apply (Hround taggedMessage).
    + vm_compute. left. reflexivity.
    + discriminate.
    + vm_compute. reflexivity.
Defined.

(** C9 (as stated) fails, in two ways.  A tag whose content is blank is
    extracted with an empty name, and the tag re-emitted from that pair is
    matched by neither expression.  A name that contains [[ is extracted from
    an untyped span, and the tag re-emitted from it holds a second untyped
    span, so parsing it yields a second mention. *)
Lemma tags_that_do_not_roundtrip :
  (extractEntities "[[a: ]]" = [ {| ee_name := EmptyString; ee_type := "a" |} ]
   /\ emitTag {| ee_name := EmptyString; ee_type := "a" |} = "[[a:]]"
   /\ extractEntities (emitTag {| ee_name := EmptyString; ee_type := "a" |}) = [])
  /\ (extractEntities "[[x[[b]]" = [ {| ee_name := "x[[b"; ee_type := "topic" |} ]
      /\ emitTag {| ee_name := "x[[b"; ee_type := "topic" |} = "[[topic:x[[b]]"
      /\ extractEntities (emitTag {| ee_name := "x[[b"; ee_type := "topic" |})
         = [ {| ee_name := "x[[b"; ee_type := "topic" |};
             {| ee_name := "b"; ee_type := "topic" |} ]).
Proof. vm_compute. repeat split. Qed.

(* ===================================================================== *)
(** * Further properties of the services *)
(* ===================================================================== *)

(** ** Views that an operation leaves alone *)

Lemma leaves_ret {A T} (proj : World -> T) (x : A) : leaves proj (ret x).
Proof. intros w. reflexivity. Qed.

Lemma leaves_gets {A T} (proj : World -> T) (f : World -> A) : leaves proj (gets f).
Proof. intros w. reflexivity. Qed.

Lemma leaves_bind {A B T} (proj : World -> T) (c : M A) (k : A -> M B) :
  leaves proj c -> (forall x, leaves proj (k x)) -> leaves proj (bind c k).
Proof. intros Hc Hk w. rewrite exec_bind, Hk. apply Hc. Qed.

Lemma leaves_modify {T X} (proj : World -> T) (set : (X -> X) -> World -> World) f :
  apart proj set -> leaves proj (modify (set f)).
Proof. intros H w. apply H. Qed.

Lemma leaves_forEach {A T} (proj : World -> T) (xs : list A) (body : A -> M unit) :
  (forall x, leaves proj (body x)) -> leaves proj (forEach xs body).
Proof. intros H w. apply forEach_preserves. exact H. Qed.

Lemma leaves_forPairs {T} (proj : World -> T) (xs : list Id) (body : Id -> Id -> M unit) :
  (forall x y, leaves proj (body x y)) -> leaves proj (forPairs xs body).
Proof. intros H w. apply forPairs_preserves. exact H. Qed.

Lemma leaves_foldM {A S T} (proj : World -> T) (xs : list A) (body : S -> A -> M S) s :
  (forall s x, leaves proj (body s x)) -> leaves proj (foldM xs body s).
Proof. intros H w. apply foldM_preserves. exact H. Qed.

(** Walks down an operation written with [bind], [modify] and the oracles. *)
Ltac leave :=
  repeat first
    [ apply leaves_ret
    | apply leaves_gets
    | assumption
    | apply leaves_modify; assumption
    | apply leaves_forEach; intros ?
    | apply leaves_forPairs; intros ? ?
    | apply leaves_foldM; intros ? ?
    | apply leaves_bind; [|intros ?]
    | match goal with
      | H : timeless _ |- leaves _ newId => exact (proj1 H)
      | H : timeless _ |- leaves _ newDate => exact (proj2 H)
      | |- leaves _ (match ?x with _ => _ end) => destruct x
      end ].

Section Frame.

Context {T : Type} (proj : World -> T).
Hypothesis oracles : timeless proj.

Lemma startTrajectory_leaves nearAccountId inputText conversationId :
  apart proj setTrajectories -> apart proj setSequenceCounters ->
  leaves proj (startTrajectory nearAccountId inputText conversationId).
Proof. intros. unfold startTrajectory. leave. Qed.

Lemma logEvent_leaves trajectoryId event :
  apart proj setSequenceCounters -> apart proj setEvents -> apart proj setEntities ->
  leaves proj (logEvent trajectoryId event).
Proof. intros. unfold logEvent. leave. Qed.

Lemma trackContribution_leaves entityId nearAccountId trajectoryId timestamp :
  apart proj setContributions -> apart proj setEntities ->
  leaves proj (trackContribution entityId nearAccountId trajectoryId timestamp).
Proof. intros. unfold trackContribution. leave. Qed.

Lemma findOrCreateEntity_leaves nearAccountId trajectoryId name entityType description :
  apart proj setContributions -> apart proj setEntities ->
  leaves proj (findOrCreateEntity nearAccountId trajectoryId name entityType description).
Proof.
  intros. unfold findOrCreateEntity.
  pose proof (trackContribution_leaves) as Htrack. leave; apply Htrack; assumption.
Qed.

Lemma upsertCooccurrence_leaves timestamp idI idJ :
  apart proj setCooccurrences -> leaves proj (upsertCooccurrence timestamp idI idJ).
Proof. intros. unfold upsertCooccurrence. leave. Qed.

Lemma updateCooccurrences_leaves entityIds trajectoryId nearAccountId timestamp :
  apart proj setCooccurrences ->
  leaves proj (updateCooccurrences entityIds trajectoryId nearAccountId timestamp).
Proof.
  intros. unfold updateCooccurrences. leave. apply upsertCooccurrence_leaves. assumption.
Qed.

Lemma strengthenStep_leaves timestamp sourceId targetId :
  apart proj setEdges -> leaves proj (strengthenStep timestamp sourceId targetId).
Proof. intros. unfold strengthenStep. leave. Qed.

Lemma strengthenLoop_leaves timestamp entityIds :
  apart proj setEdges -> leaves proj (strengthenLoop timestamp entityIds).
Proof.
  intros H. induction entityIds as [|sourceId rest IH]; [apply leaves_ret|].
  destruct rest as [|targetId rest']; [apply leaves_ret|].
  change (strengthenLoop timestamp (sourceId :: targetId :: rest'))
    with (bind (strengthenStep timestamp sourceId targetId) (fun pushed =>
          bind (strengthenLoop timestamp (targetId :: rest')) (fun more =>
          ret (pushed ++ more)))).
  apply leaves_bind; [apply strengthenStep_leaves, H|]. intros pushed.
  apply leaves_bind; [exact IH|]. intros more. apply leaves_ret.
Qed.

Lemma strengthenEdges_leaves entityIds trajectoryId nearAccountId timestamp :
  apart proj setEdges ->
  leaves proj (strengthenEdges entityIds trajectoryId nearAccountId timestamp).
Proof.
  intros. unfold strengthenEdges.
  destruct (_ <? _); [apply leaves_ret | apply strengthenLoop_leaves; assumption].
Qed.

Lemma upsertOutcomeEdge_leaves timestamp strategy outcome :
  apart proj setEdges -> leaves proj (upsertOutcomeEdge timestamp strategy outcome).
Proof. intros. unfold upsertOutcomeEdge. leave. Qed.

Lemma trackOutcomes_leaves entityIds timestamp :
  apart proj setEdges -> leaves proj (trackOutcomes entityIds timestamp).
Proof.
  intros. unfold trackOutcomes. leave; apply upsertOutcomeEdge_leaves; assumption.
Qed.

End Frame.

Section FrameOfCompletion.

Context {T : Type} (proj : World -> T).
Hypothesis oracles : timeless proj.

Lemma completeTrajectory_leaves trajectoryId nearAccountId summary :
  apart proj setTrajectories -> apart proj setEntities -> apart proj setContributions ->
  apart proj setCooccurrences -> apart proj setEdges -> apart proj setSequenceCounters ->
  leaves proj (completeTrajectory trajectoryId nearAccountId summary).
Proof.
  intros. unfold completeTrajectory.
  pose proof (updateCooccurrences_leaves proj) as Hc.
  pose proof (strengthenEdges_leaves proj) as Hs.
  pose proof (trackOutcomes_leaves proj) as Ho.
  leave; first [apply Hc | apply Hs | apply Ho]; assumption.
Qed.

End FrameOfCompletion.

(** ** hashInput *)

Lemma toInt32_mod z : (toInt32 z mod 4294967296 = z mod 4294967296)%Z.
Proof.
  unfold toInt32.
  pose proof (Z.mod_pos_bound z 4294967296 ltac:(lia)) as Hb.
  destruct (2147483648 <=? z mod 4294967296)%Z.
  - rewrite <- (Z.mod_mod z 4294967296) at 2 by lia.
    replace (z mod 4294967296 - 4294967296)%Z
      with (z mod 4294967296 + (-1) * 4294967296)%Z by lia.
    rewrite Z.mod_add by lia. reflexivity.
  - apply Z.mod_mod. lia.
Qed.

Lemma toInt32_congr a b :
  (a mod 4294967296 = b mod 4294967296)%Z -> toInt32 a = toInt32 b.
Proof. intros H. unfold toInt32. rewrite H. reflexivity. Qed.

Lemma toInt32_range z : (-2147483648 <= toInt32 z < 2147483648)%Z.
Proof.
  unfold toInt32.
  pose proof (Z.mod_pos_bound z 4294967296 ltac:(lia)) as Hb.
  destruct (2147483648 <=? z mod 4294967296)%Z eqn:E.
  - apply Z.leb_le in E. lia.
  - apply Z.leb_gt in E. lia.
Qed.

Lemma hashLoop_horner input : forall h,
  hashLoop input (toInt32 h) = toInt32 (horner input h).
Proof.
  induction input as [|c r IH]; intros h; [reflexivity|].
  cbn [hashLoop horner]. rewrite <- IH. f_equal.
  apply toInt32_congr.
  rewrite Zplus_mod, Zminus_mod, toInt32_mod, <- Zminus_mod, <- Zplus_mod.
  rewrite (Zplus_mod (31 * h)), (Zmult_mod 31 h), <- (toInt32_mod h), <- Zmult_mod, <- Zplus_mod.
  f_equal. lia.
Qed.

(** X1: [hashInput] renders, in hexadecimal, the 32-bit wrap of the base-31
    polynomial of the input's code units: the hash stays a signed 32-bit
    integer at every length, and the empty input hashes to 0. *)
Theorem hashInput_polynomial input :
  hashInput input = toString16 (toInt32 (horner input 0))
  /\ (-2147483648 <= hashLoop input 0 < 2147483648)%Z
  /\ hashInput EmptyString = "0".
Proof.
  pose proof (hashLoop_horner input 0) as H. change (toInt32 0) with 0%Z in H.
  split; [|split].
  - unfold hashInput. rewrite H. reflexivity.
  - rewrite H. apply toInt32_range.
  - reflexivity.
Qed.

(** ** Sequence numbers around completion *)

Lemma completeTrajectory_counters trajectoryId nearAccountId summary w :
  sequenceCounters (exec (completeTrajectory trajectoryId nearAccountId summary) w)
  = delete trajectoryId (sequenceCounters w).
Proof.
  unfold completeTrajectory. autorewrite with store. fields.
  rewrite (trackOutcomes_leaves sequenceCounters)
    by (intros f x; reflexivity).
  rewrite (strengthenEdges_leaves sequenceCounters)
    by (intros f x; reflexivity).
  rewrite (updateCooccurrences_leaves sequenceCounters)
    by (intros f x; reflexivity).
  rewrite (forEach_preserves sequenceCounters) by reflexivity.
  destruct (allIds _ _); reflexivity.
Qed.

(** X2: [logEvent] does not check that the walk is open.  For a trajectory
    that has a row but no counter on this engine (the engine was restarted, or
    the walk was completed), and an event whose entity is absent or has a row,
    the event is stored with sequence number 0 and the counter restarts at 1.
    [completeTrajectory] deletes the counter, so an event logged for a
    completed trajectory is stored and numbered 0 again. *)
Theorem logEvent_without_counter trajectoryId event w :
  hasTrajectory trajectoryId w = true ->
  refers hasEntity (te_entityId event) w = true ->
  (sequenceCounters w !! trajectoryId = None ->
   events (exec (logEvent trajectoryId event) w)
   = events w ++ [storedEvent trajectoryId event w]
   /\ ev_sequenceNum (storedEvent trajectoryId event w) = 0
   /\ sequenceCounters (exec (logEvent trajectoryId event) w) !! trajectoryId = Some 1)
  /\ forall nearAccountId summary,
       let w1 := exec (completeTrajectory trajectoryId nearAccountId summary) w in
       sequenceCounters w1 !! trajectoryId = None
       /\ exists e, events (exec (logEvent trajectoryId event) w1) = events w ++ [e]
            /\ ev_trajectoryId e = trajectoryId /\ ev_sequenceNum e = 0.
Proof.
  intros _ _. split.
  - intros Hnone. rewrite logEvent_events, logEvent_counters.
    unfold storedEvent. cbn [ev_sequenceNum]. rewrite Hnone.
    repeat split. apply lookup_insert_eq.
  - intros nearAccountId summary w1.
    assert (Hnone : sequenceCounters w1 !! trajectoryId = None).
    { unfold w1. rewrite completeTrajectory_counters. apply lookup_delete_eq. }
    split; [exact Hnone|].
    exists (storedEvent trajectoryId event w1).
    rewrite logEvent_events. unfold w1 at 1. rewrite completeTrajectory_events.
    unfold storedEvent. cbn [ev_trajectoryId ev_sequenceNum]. rewrite Hnone.
    repeat split.
Qed.

Lemma logEvent_without_counter_witness :
  let w := exec completedWalk Scenario.freshWorld in
  let t := eval completedWalk Scenario.freshWorld in
  hasTrajectory t w = true
  /\ hasEntity "id1" w = true
  /\ sequenceCounters w !! t = None
  /\ map ev_sequenceNum
       (selectWhere (fun e => String.eqb (ev_trajectoryId e) t)
          (events (exec (logEvent t (Scenario.touchOf "id1")) w)))
     = [0; 1; 0].
Proof.
  split; [vm_compute; reflexivity|]. split; [vm_compute; reflexivity|].
  split; [vm_compute; reflexivity|].
  destruct (proj1 (logEvent_without_counter (eval completedWalk Scenario.freshWorld)
                     (Scenario.touchOf "id1") (exec completedWalk Scenario.freshWorld)
                     ltac:(vm_compute; reflexivity) ltac:(vm_compute; reflexivity)))
    as (Hev & Hseq & _).
  - vm_compute. reflexivity.
  - rewrite Hev. vm_compute. reflexivity.
Defined.

(** ** Sequence numbers when the store rejects an event *)
















(** ** Arrays read as sets *)

Lemma inArray_In x xs : inArray x xs = true <-> In x xs.
Proof.
  unfold inArray. rewrite existsb_exists. split.
  - intros (y & Hy & E). apply String.eqb_eq in E. subst. exact Hy.
  - intros H. exists x. split; [exact H | apply String.eqb_refl].
Qed.

Lemma uniqueFrom_In seen xs : forall x,
  In x (Js.uniqueFrom seen xs) <-> In x xs /\ ~ In x seen.
Proof.
  revert seen. induction xs as [|y r IH]; intros seen x; simpl; [tauto|].
  destruct (existsb (String.eqb y) seen) eqn:E.
  - apply inArray_In in E. rewrite IH. split.
    + intros [H1 H2]. tauto.
    + intros [[->|H1] H2]; [contradiction | tauto].
  - assert (Hy : ~ In y seen).
    { intros H. apply inArray_In in H. unfold inArray in H. congruence. }
    simpl. rewrite IH. simpl. split.
    + intros [->|[H1 H2]]; [tauto|]. split; [tauto|]. intros H. apply H2. right. exact H.
    + intros [[->|H1] H2]; [tauto|].
      destruct (String.eqb_spec y x) as [->|Hne]; [tauto|].
      right. split; [exact H1|]. intros [H|H]; [congruence | contradiction].
Qed.

Lemma uniqueFrom_NoDup xs : forall seen, List.NoDup (Js.uniqueFrom seen xs).
Proof.
  induction xs as [|y r IH]; intros seen; simpl; [constructor|].
  destruct (existsb (String.eqb y) seen); [apply IH|].
  constructor; [|apply IH].
  intros H. apply uniqueFrom_In in H as [_ H]. apply H. left. reflexivity.
Qed.

Lemma unique_In xs x : In x (Js.unique xs) <-> In x xs.
Proof. unfold Js.unique. rewrite uniqueFrom_In. simpl. tauto. Qed.

Lemma unique_NoDup xs : List.NoDup (Js.unique xs).
Proof. apply uniqueFrom_NoDup. Qed.

Lemma unique_nil xs : xs = [] -> Js.unique xs = [].
Proof. intros ->. reflexivity. Qed.

(** ** The path strengthened by a completion *)

Lemma head_selectWhere {A} (p : A -> bool) (l : list A) x :
  head (selectWhere p l) = Some x -> In x l /\ p x = true.
Proof.
  intros H. assert (Hin : In x (selectWhere p l)).
  { destruct (selectWhere p l) as [|y r]; [discriminate|]. injection H as ->. left. reflexivity. }
  apply filter_In in Hin. exact Hin.
Qed.

Lemma strengthenStep_pushed timestamp sourceId targetId w :
  sourceId <> EmptyString -> targetId <> EmptyString -> sourceId <> targetId ->
  let pushed := eval (strengthenStep timestamp sourceId targetId) w in
  map gi_id pushed = [edgeKey sourceId targetId]
  /\ Forall (fun g => 1 <= gi_weight g) pushed.
Proof.
  intros Hs Ht Hst. unfold strengthenStep.
  apply String.eqb_neq in Hs, Ht, Hst. rewrite Hs, Ht, Hst. cbn [orb].
  autorewrite with store.
  destruct (head _) as [existing|] eqn:E; autorewrite with store; cbn [map gi_id].
  - apply head_selectWhere in E as [_ E]. apply String.eqb_eq in E. rewrite E.
    split; [reflexivity|]. repeat constructor. cbn [gi_weight]. lia.
  - split; [reflexivity|]. repeat constructor.
Qed.

Lemma strengthenLoop_pushed timestamp entityIds : forall w,
  Forall (fun i => i <> EmptyString) entityIds -> List.NoDup entityIds ->
  let pushed := eval (strengthenLoop timestamp entityIds) w in
  map gi_id pushed = adjacentKeys entityIds
  /\ Forall (fun g => 1 <= gi_weight g) pushed.
Proof.
  induction entityIds as [|sourceId rest IH]; intros w Hne Hnd;
    [split; [reflexivity | constructor]|].
  destruct rest as [|targetId rest']; [split; [reflexivity | constructor]|].
  change (strengthenLoop timestamp (sourceId :: targetId :: rest'))
    with (bind (strengthenStep timestamp sourceId targetId) (fun pushed =>
          bind (strengthenLoop timestamp (targetId :: rest')) (fun more =>
          ret (pushed ++ more)))).
  cbn zeta. autorewrite with store.
  inversion Hne as [|? ? Hs Hne']; subst. inversion Hnd as [|? ? Hnot Hnd']; subst.
  destruct (strengthenStep_pushed timestamp sourceId targetId w) as [H1 H1'].
  { exact Hs. } { inversion Hne'; assumption. }
  { intros ->. apply Hnot. left. reflexivity. }
  destruct (IH (exec (strengthenStep timestamp sourceId targetId) w) Hne' Hnd') as [H2 H2'].
  split.
  - rewrite map_app, H1, H2. reflexivity.
  - apply Forall_app. split; assumption.
Qed.

Lemma adjacentKeys_length ids : List.length (adjacentKeys ids) = List.length ids - 1.
Proof.
  induction ids as [|x r IH]; [reflexivity|].
  destruct r as [|y r']; [reflexivity|].
  cbn [adjacentKeys List.length] in *. lia.
Qed.

Lemma entityIdsOf_truthy ty evs :
  Forall (fun i => i <> EmptyString) (entityIdsOf ty evs).
Proof.
  unfold entityIdsOf. apply List.Forall_forall. intros i Hi.
  apply in_flat_map in Hi as (e & _ & Hi).
  destruct (EventType_eqb (ev_eventType e) ty); [|contradiction].
  destruct (Js.truthy (ev_entityId e)) eqn:Et; [|contradiction].
  destruct (ev_entityId e) as [j|]; [|contradiction].
  destruct Hi as [<-|[]]. unfold Js.truthy in Et.
  apply negb_true_iff, String.eqb_neq in Et. exact Et.
Qed.

Lemma touchedIds_path w trajectoryId :
  Forall (fun i => i <> EmptyString) (touchedIds w trajectoryId)
  /\ List.NoDup (touchedIds w trajectoryId).
Proof.
  unfold touchedIds. split; [|apply unique_NoDup].
  apply List.Forall_forall. intros i Hi. apply (proj1 (unique_In _ _)) in Hi.
  pose proof (entityIdsOf_truthy Touch (walkEvents w trajectoryId)) as H.
  rewrite List.Forall_forall in H. apply H, Hi.
Qed.

(** X3: the edges a completion reports are exactly the links between
    consecutive entities of the walk's touch path (the distinct touched
    entities in order of first touch): one edge [source:target] per
    consecutive pair, each with weight at least 1, hence one edge fewer than
    there are touched entities. *)
Theorem completeTrajectory_path trajectoryId nearAccountId summary w :
  let traversed :=
    edgesTraversed (eval (completeTrajectory trajectoryId nearAccountId summary) w) in
  map gi_id traversed = adjacentKeys (touchedIds w trajectoryId)
  /\ Forall (fun g => 1 <= gi_weight g) traversed
  /\ List.length traversed = List.length (touchedIds w trajectoryId) - 1.
Proof.
  intros traversed.
  assert (H : map gi_id traversed = adjacentKeys (touchedIds w trajectoryId)
              /\ Forall (fun g => 1 <= gi_weight g) traversed).
  { unfold traversed, completeTrajectory. autorewrite with store. fields.
    cbn [edgesTraversed].
    change (touchedIds (setTrajectories _ (exec newDate w)) trajectoryId)
      with (touchedIds w trajectoryId).
    destruct (touchedIds_path w trajectoryId) as [Hne Hnd].
    unfold strengthenEdges.
    destruct (List.length (touchedIds w trajectoryId) <? 2) eqn:E.
    - apply Nat.ltb_lt in E.
      destruct (touchedIds w trajectoryId) as [|a [|b r]];
        [split; [reflexivity | constructor].. | cbn in E; lia].
    - apply strengthenLoop_pushed; assumption. }
  destruct H as [H1 H2]. repeat split; [exact H1 | exact H2 |].
  rewrite <- (length_map gi_id), H1. apply adjacentKeys_length.
Qed.

(** ** Completing a walk that touched nothing *)

Lemma sortBy_In {A} (before : A -> A -> bool) (l : list A) x :
  In x (Js.sortBy before l) <-> In x l.
Proof.
  split; apply Permutation_in; [symmetry|]; apply sortBy_perm.
Qed.

Lemma walkEvents_In w trajectoryId e :
  In e (walkEvents w trajectoryId) <-> In e (events w) /\ ev_trajectoryId e = trajectoryId.
Proof.
  unfold walkEvents, selectWhere. rewrite sortBy_In, filter_In, String.eqb_eq. reflexivity.
Qed.

Lemma entityIdsOf_none ty evs :
  (forall e, In e evs -> Js.truthy (ev_entityId e) = false) -> entityIdsOf ty evs = [].
Proof.
  unfold entityIdsOf. induction evs as [|e r IH]; intros H; [reflexivity|].
  cbn [flat_map]. rewrite (H e (or_introl eq_refl)), andb_false_r.
  apply IH. intros e' He'. apply H. right. exact He'.
Qed.

Lemma entityFree_ids trajectoryId w :
  entityFree trajectoryId w ->
  touchedIds w trajectoryId = [] /\ discoveredIds w trajectoryId = []
  /\ allIds w trajectoryId = [].
Proof.
  intros H.
  assert (Hnone : forall ty, entityIdsOf ty (walkEvents w trajectoryId) = []).
  { intros ty. apply entityIdsOf_none. intros e He.
    apply walkEvents_In in He as [He1 He2]. exact (H e He1 He2). }
  unfold allIds, touchedIds, discoveredIds. rewrite !Hnone. repeat split.
Qed.

Lemma updateWhere_length {A} (p : A -> bool) (f : A -> A) (l : list A) :
  List.length (updateWhere p f l) = List.length l.
Proof. apply length_map. Qed.

Lemma entityFree_check trajectoryId w :
  forallb (fun e => negb (String.eqb (ev_trajectoryId e) trajectoryId)
                    || negb (Js.truthy (ev_entityId e))) (events w) = true ->
  entityFree trajectoryId w.
Proof.
  intros H e He Ht. rewrite forallb_forall in H. specialize (H e He).
  apply String.eqb_eq in Ht. rewrite Ht in H. cbn in H.
  apply negb_true_iff in H. exact H.
Qed.

(** X4: completing a walk none of whose events refers to an entity (in
    particular a trajectory id that was never used) changes nothing in the
    graph: entities, contributions, edges, co-occurrences and the event log are
    as before, the summary is empty, and the rows of the trajectory, if any,
    are stamped as completed. *)
Theorem completeTrajectory_entity_free trajectoryId nearAccountId summary w :
  entityFree trajectoryId w ->
  let w' := exec (completeTrajectory trajectoryId nearAccountId summary) w in
  entities w' = entities w /\ contributions w' = contributions w
  /\ edges w' = edges w /\ cooccurrences w' = cooccurrences w
  /\ events w' = events w
  /\ eval (completeTrajectory trajectoryId nearAccountId summary) w
     = {| entitiesDiscovered := []; entitiesTouched := []; edgesTraversed := [] |}
  /\ Forall (fun t => traj_id t = trajectoryId ->
                      traj_completedAt t = Some (clock w (ticks w))
                      /\ traj_summary t = summary) (trajectories w').
Proof.
  intros H w'. destruct (entityFree_ids trajectoryId w H) as (Ht & Hd & Ha).
  unfold w', completeTrajectory. autorewrite with store. fields.
  change (allIds (setTrajectories _ (exec newDate w)) trajectoryId) with (allIds w trajectoryId).
  change (touchedIds (setTrajectories _ (exec newDate w)) trajectoryId)
    with (touchedIds w trajectoryId).
  change (discoveredIds (setTrajectories _ (exec newDate w)) trajectoryId)
    with (discoveredIds w trajectoryId).
  rewrite Ht, Hd, Ha.
  cbn [forEach updateCooccurrences strengthenEdges trackOutcomes List.length
       Nat.ltb Nat.leb lookupInfos flat_map].
  autorewrite with store. fields.
  repeat split.
  apply List.Forall_forall. intros t Hin.
  unfold updateWhere in Hin. apply in_map_iff in Hin as (t0 & <- & _).
  destruct (String.eqb_spec (traj_id t0) trajectoryId) as [E|E];
    cbn [traj_id traj_completedAt traj_summary]; intros E'; [auto | contradiction].
Qed.

Lemma completeTrajectory_entity_free_witness :
  let w := exec thinkingWalk Scenario.freshWorld in
  let t := eval thinkingWalk Scenario.freshWorld in
  List.length (events w) = 2
  /\ entities (exec (completeTrajectory t "alice.near" None) w) = []
  /\ edges (exec (completeTrajectory t "alice.near" None) w) = [].
Proof.
  assert (H : entityFree (eval thinkingWalk Scenario.freshWorld)
                (exec thinkingWalk Scenario.freshWorld)).
  { apply entityFree_check. vm_compute. reflexivity. }
  destruct (completeTrajectory_entity_free _ "alice.near" None _ H) as (He & _ & Hg & _).
  split; [vm_compute; reflexivity|]. split.
  - rewrite He. vm_compute. reflexivity.
  - rewrite Hg. vm_compute. reflexivity.
Defined.

(** ** Invariants of the tables the engine writes *)

Lemma keeps_of_leaves {A T} (proj : World -> T) (I : T -> Prop) (c : M A) :
  leaves proj c -> keeps (fun w => I (proj w)) c.
Proof. intros H w Hw. rewrite H. exact Hw. Qed.

Lemma keeps_forEach {A} P (xs : list A) (body : A -> M unit) :
  (forall x, keeps P (body x)) -> keeps P (forEach xs body).
Proof. intros H w. apply forEach_invariant. exact H. Qed.

(** The chat turn keeps what its engine calls keep, when the rest of the turn
    cannot be seen through [P]. *)
Ltac keep_turn Hcomplete Hlog Hfind Hstart :=
  repeat first
    [ apply keeps_ret
    | match goal with
      | |- keeps _ (completeTrajectory _ _ _) => apply Hcomplete
      | |- keeps _ (logEvent _ _) => apply Hlog
      | |- keeps _ (findOrCreateEntity _ _ _ _ _) => apply Hfind
      | |- keeps _ (startTrajectory _ _ _) => apply Hstart
      | |- keeps _ (foldM _ _ _) => apply keeps_foldM; intros ? ?
      | |- keeps _ (match ?x with _ => _ end) => destruct x
      | |- keeps _ (bind _ _) => apply keeps_bind; [|intros ?]
      | |- keeps _ _ => apply keeps_of_leaves; intros ?; reflexivity
      end ].

Section ReachedInvariant.

Context (P : World -> Prop).
Hypothesis Hstart : forall a t c, keeps P (startTrajectory a t c).
Hypothesis Hlog : forall t e, keeps P (logEvent t e).
Hypothesis Hfind : forall a t n ty d, keeps P (findOrCreateEntity a t n ty d).
Hypothesis Hcomplete : forall t a s, keeps P (completeTrajectory t a s).
Hypothesis Hturn : forall a m c ctx llm, keeps P (processMessage a m c ctx llm).

Lemma reached_invariant w0 w : Reached w0 w -> P w0 -> P w.
Proof.
  intros H H0. induction H; [exact H0 | | | | |];
    first [apply Hstart | apply Hlog | apply Hfind | apply Hcomplete | apply Hturn];
    assumption.
Qed.

End ReachedInvariant.

(** *** Edges *)

Lemma selectWhere_nil_In {A} (p : A -> bool) (l : list A) x :
  selectWhere p l = [] -> In x l -> p x = false.
Proof.
  intros H Hin. destruct (p x) eqn:E; [|reflexivity].
  assert (Hx : In x (selectWhere p l)) by (apply filter_In; auto).
  rewrite H in Hx. contradiction.
Qed.

Lemma head_nil {A} (l : list A) : head l = None -> l = [].
Proof. destruct l; [reflexivity | discriminate]. Qed.

Lemma bumpEdge_sound table edgeId existing timestamp :
  edgesSound table ->
  head (selectWhere (fun e => String.eqb (edge_id e) edgeId) table) = Some existing ->
  edgesSound (updateWhere (fun e => String.eqb (edge_id e) edgeId)
                (bumpEdge existing timestamp) table).
Proof.
  intros [Hnd Hall] Hex. apply head_selectWhere in Hex as [Hin _].
  rewrite List.Forall_forall in Hall. pose proof (Hall existing Hin) as (_ & H1 & H2 & _).
  split.
  - unfold updateWhere. rewrite map_map.
    rewrite (map_ext _ edge_id); [exact Hnd|].
    intros e. destruct (String.eqb (edge_id e) edgeId); reflexivity.
  - apply updateWhere_Forall; [|apply List.Forall_forall; exact Hall].
    intros e (E1 & _ & _ & E4 & E5). unfold edgeSound. cbn. repeat split; try assumption; lia.
Qed.

Lemma newEdge_sound table sourceId targetId relationshipType timestamp :
  edgesSound table ->
  selectWhere (fun e => String.eqb (edge_id e) (edgeKey sourceId targetId)) table = [] ->
  edgesSound (insertRow (newEdge (edgeKey sourceId targetId) sourceId targetId
                           relationshipType timestamp) table).
Proof.
  intros [Hnd Hall] Hnone. unfold insertRow. split.
  - rewrite map_app. cbn [map newEdge edge_id].
    apply List.NoDup_app; [exact Hnd | repeat constructor; intros [] | ].
    intros i Hi [<-|[]]. apply in_map_iff in Hi as (e & He & Hin).
    pose proof (selectWhere_nil_In _ _ e Hnone Hin) as Hf. cbn in Hf.
    apply String.eqb_neq in Hf. contradiction.
  - apply Forall_app. split; [exact Hall|]. repeat constructor.
Qed.

Lemma strengthenStep_sound timestamp sourceId targetId :
  keeps (fun w => edgesSound (edges w)) (strengthenStep timestamp sourceId targetId).
Proof.
  intros w H. unfold strengthenStep.
  destruct (_ || _); [exact H|].
  autorewrite with store.
  destruct (head _) eqn:E; autorewrite with store; fields.
  - apply bumpEdge_sound; assumption.
  - apply newEdge_sound; [exact H | apply head_nil, E].
Qed.

Lemma strengthenLoop_sound timestamp entityIds :
  keeps (fun w => edgesSound (edges w)) (strengthenLoop timestamp entityIds).
Proof.
  induction entityIds as [|sourceId rest IH]; [apply keeps_ret|].
  destruct rest as [|targetId rest']; [apply keeps_ret|].
  change (strengthenLoop timestamp (sourceId :: targetId :: rest'))
    with (bind (strengthenStep timestamp sourceId targetId) (fun pushed =>
          bind (strengthenLoop timestamp (targetId :: rest')) (fun more =>
          ret (pushed ++ more)))).
  apply keeps_bind; [apply strengthenStep_sound|]. intros pushed.
  apply keeps_bind; [exact IH|]. intros more. apply keeps_ret.
Qed.

Lemma upsertOutcomeEdge_sound timestamp strategy outcome :
  keeps (fun w => edgesSound (edges w)) (upsertOutcomeEdge timestamp strategy outcome).
Proof.
  intros w H. unfold upsertOutcomeEdge. autorewrite with store.
  destruct (head _) eqn:E; autorewrite with store; fields.
  - apply bumpEdge_sound; assumption.
  - apply newEdge_sound; [exact H | apply head_nil, E].
Qed.

Lemma timeless_edges : timeless edges.
Proof. split; intros w; reflexivity. Qed.

Lemma completeTrajectory_sound_edges trajectoryId nearAccountId summary :
  keeps (fun w => edgesSound (edges w))
    (completeTrajectory trajectoryId nearAccountId summary).
Proof.
  unfold completeTrajectory, strengthenEdges, trackOutcomes.
  repeat first
    [ apply keeps_ret
    | match goal with
      | |- keeps _ (strengthenLoop _ _) => apply strengthenLoop_sound
      | |- keeps _ (upsertOutcomeEdge _ _ _) => apply upsertOutcomeEdge_sound
      | |- keeps _ (updateCooccurrences _ _ _ _) =>
          apply keeps_of_leaves, updateCooccurrences_leaves; intros ? ?; reflexivity
      | |- keeps _ (forEach _ _) => apply keeps_forEach; intros ?
      | |- keeps _ (match ?x with _ => _ end) => destruct x
      | |- keeps _ (bind _ _) => apply keeps_bind; [|intros ?]
      | |- keeps _ _ => apply keeps_of_leaves; intros ?; reflexivity
      end ].
Qed.

Lemma processMessage_sound_edges nearAccountId message conversationId messageContext llm :
  keeps (fun w => edgesSound (edges w))
    (processMessage nearAccountId message conversationId messageContext llm).
Proof.
  unfold processMessage, createConversation, getConversationHistory.
  keep_turn completeTrajectory_sound_edges
    (fun t e => keeps_of_leaves edges edgesSound _
       (logEvent_leaves edges timeless_edges t e
          ltac:(intros ? ?; reflexivity) ltac:(intros ? ?; reflexivity)
          ltac:(intros ? ?; reflexivity)))
    (fun a t n ty d => keeps_of_leaves edges edgesSound _
       (findOrCreateEntity_leaves edges timeless_edges a t n ty d
          ltac:(intros ? ?; reflexivity) ltac:(intros ? ?; reflexivity)))
    (fun a t c => keeps_of_leaves edges edgesSound _
       (startTrajectory_leaves edges timeless_edges a t c
          ltac:(intros ? ?; reflexivity) ltac:(intros ? ?; reflexivity))).
Qed.

(** X5: starting from a store whose edges are sound (in particular from an
    empty one), every store reached by the engine and by chat turns has edges
    with pairwise distinct ids, each keyed [source:target], with
    [trajectoryCount = weight >= 1]; the contributor and mixed counters of an
    edge are never moved. *)
Theorem engine_edges_sound w0 w :
  Reached w0 w -> edgesSound (edges w0) -> edgesSound (edges w).
Proof.
  apply (reached_invariant (fun w => edgesSound (edges w))).
  - intros a t c. apply keeps_of_leaves, startTrajectory_leaves;
      [exact timeless_edges | intros ? ?; reflexivity..].
  - intros t e. apply keeps_of_leaves, logEvent_leaves;
      [exact timeless_edges | intros ? ?; reflexivity..].
  - intros a t n ty d. apply keeps_of_leaves, findOrCreateEntity_leaves;
      [exact timeless_edges | intros ? ?; reflexivity..].
  - apply completeTrajectory_sound_edges.
  - apply processMessage_sound_edges.
Qed.

Lemma engine_edges_sound_witness :
  List.length (edges labWorld) = 2 /\ edgesSound (edges labWorld).
Proof.
  split; [vm_compute; reflexivity|].
  apply (engine_edges_sound Scenario.freshWorld).
  - apply reached_turn, reached_here.
  - split; constructor.
Defined.

(** *** Co-occurrences *)

Lemma ltb_total a b : a <> b -> String.ltb b a = false -> String.ltb a b = true.
Proof.
  unfold String.ltb. intros Hne H. rewrite String.compare_antisym in H.
  destruct (String.compare a b) eqn:E; [|reflexivity | discriminate].
  apply String.compare_eq_iff in E. contradiction.
Qed.

Lemma sortPair_ordered idI idJ :
  idI <> idJ ->
  String.ltb (fst (sortPair idI idJ)) (snd (sortPair idI idJ)) = true.
Proof.
  intros Hne. unfold sortPair. destruct (String.ltb idJ idI) eqn:E; cbn [fst snd].
  - exact E.
  - apply ltb_total; assumption.
Qed.

Lemma bumpCooccurrence_sound table coocId existing timestamp :
  cooccurrencesSound table ->
  head (selectWhere (fun c => String.eqb (cooc_id c) coocId) table) = Some existing ->
  cooccurrencesSound (updateWhere (fun c => String.eqb (cooc_id c) coocId)
                        (bumpCooccurrence existing timestamp) table).
Proof.
  intros [Hnd Hall] Hex. apply head_selectWhere in Hex as [Hin _].
  rewrite List.Forall_forall in Hall.
  pose proof (Hall existing Hin) as (_ & _ & H1 & H2 & H3 & _).
  split.
  - unfold updateWhere. rewrite map_map.
    rewrite (map_ext _ cooc_id); [exact Hnd|].
    intros c. destruct (String.eqb (cooc_id c) coocId); reflexivity.
  - apply updateWhere_Forall; [|apply List.Forall_forall; exact Hall].
    intros c (E1 & E2 & _ & _ & _ & E6). unfold cooccurrenceSound. cbn.
    repeat split; try assumption; lia.
Qed.

Lemma upsertCooccurrence_sound timestamp idI idJ :
  idI <> idJ ->
  keeps (fun w => cooccurrencesSound (cooccurrences w))
    (upsertCooccurrence timestamp idI idJ).
Proof.
  intros Hne w H. unfold upsertCooccurrence.
  destruct (_ || _); [exact H|].
  pose proof (sortPair_ordered idI idJ Hne) as Hord.
  destruct (sortPair idI idJ) as [entityA entityB]. cbn [fst snd] in Hord.
  autorewrite with store.
  destruct (head _) eqn:E; autorewrite with store; fields.
  - apply bumpCooccurrence_sound; assumption.
  - destruct H as [Hnd Hall]. apply head_nil in E. unfold insertRow. split.
    + rewrite map_app. cbn [map cooc_id].
      apply List.NoDup_app; [exact Hnd | repeat constructor; intros [] | ].
      intros i Hi [<-|[]]. apply in_map_iff in Hi as (c & Hc & Hin).
      pose proof (selectWhere_nil_In _ _ c E Hin) as Hf. cbn in Hf.
      apply String.eqb_neq in Hf. contradiction.
    + apply Forall_app. split; [exact Hall|]. repeat constructor. exact Hord.
Qed.

Lemma forPairs_distinct P (xs : list Id) (body : Id -> Id -> M unit) :
  List.NoDup xs ->
  (forall x y, x <> y -> keeps P (body x y)) ->
  keeps P (forPairs xs body).
Proof.
  intros Hnd Hbody. induction Hnd as [|x r Hx Hr IH]; [apply keeps_ret|].
  cbn [forPairs]. apply keeps_bind; [|intros _; exact IH].
  intros w Hw. revert w Hw.
  assert (Hall : Forall (fun y => x <> y) r).
  { apply List.Forall_forall. intros y Hy ->. contradiction. }
  clear Hx IH Hr. induction Hall as [|y r' Hy _ IH]; [apply keeps_ret|].
  cbn [forEach]. apply keeps_bind; [apply Hbody, Hy | intros _; exact IH].
Qed.

Lemma updateCooccurrences_sound entityIds trajectoryId nearAccountId timestamp :
  List.NoDup entityIds ->
  keeps (fun w => cooccurrencesSound (cooccurrences w))
    (updateCooccurrences entityIds trajectoryId nearAccountId timestamp).
Proof.
  intros Hnd. unfold updateCooccurrences.
  destruct (_ <? _); [apply keeps_ret|].
  apply forPairs_distinct; [exact Hnd|]. intros x y Hxy.
  apply upsertCooccurrence_sound, Hxy.
Qed.

Lemma timeless_cooccurrences : timeless cooccurrences.
Proof. split; intros w; reflexivity. Qed.

Lemma completeTrajectory_sound_cooccurrences trajectoryId nearAccountId summary :
  keeps (fun w => cooccurrencesSound (cooccurrences w))
    (completeTrajectory trajectoryId nearAccountId summary).
Proof.
  intros w H. unfold completeTrajectory. autorewrite with store. fields.
  rewrite (trackOutcomes_leaves cooccurrences) by (intros f x; reflexivity).
  rewrite (strengthenEdges_leaves cooccurrences) by (intros f x; reflexivity).
  apply (updateCooccurrences_sound _ trajectoryId nearAccountId _ (unique_NoDup _)).
  rewrite (forEach_preserves cooccurrences) by reflexivity.
  destruct (allIds _ _); exact H.
Qed.

Lemma processMessage_sound_cooccurrences nearAccountId message conversationId
    messageContext llm :
  keeps (fun w => cooccurrencesSound (cooccurrences w))
    (processMessage nearAccountId message conversationId messageContext llm).
Proof.
  unfold processMessage, createConversation, getConversationHistory.
  keep_turn completeTrajectory_sound_cooccurrences
    (fun t e => keeps_of_leaves cooccurrences cooccurrencesSound _
       (logEvent_leaves cooccurrences timeless_cooccurrences t e
          ltac:(intros ? ?; reflexivity) ltac:(intros ? ?; reflexivity)
          ltac:(intros ? ?; reflexivity)))
    (fun a t n ty d => keeps_of_leaves cooccurrences cooccurrencesSound _
       (findOrCreateEntity_leaves cooccurrences timeless_cooccurrences a t n ty d
          ltac:(intros ? ?; reflexivity) ltac:(intros ? ?; reflexivity)))
    (fun a t c => keeps_of_leaves cooccurrences cooccurrencesSound _
       (startTrajectory_leaves cooccurrences timeless_cooccurrences a t c
          ltac:(intros ? ?; reflexivity) ltac:(intros ? ?; reflexivity))).
Qed.

(** X6: starting from a store whose co-occurrence rows are sound (in
    particular from an empty one), every store reached by the engine and by
    chat turns has co-occurrence rows with pairwise distinct ids, each keyed
    [entityA:entityB] with [entityA] strictly before [entityB] in code-unit
    order (so no entity is paired with itself and no pair is stored in both
    orders), with [count = windowCount = trajectoryCount >= 1] and the
    contributor counter never moved. *)
Theorem engine_cooccurrences_sound w0 w :
  Reached w0 w -> cooccurrencesSound (cooccurrences w0) ->
  cooccurrencesSound (cooccurrences w).
Proof.
  apply (reached_invariant (fun w => cooccurrencesSound (cooccurrences w))).
  - intros a t c. apply keeps_of_leaves, startTrajectory_leaves;
      [exact timeless_cooccurrences | intros ? ?; reflexivity..].
  - intros t e. apply keeps_of_leaves, logEvent_leaves;
      [exact timeless_cooccurrences | intros ? ?; reflexivity..].
  - intros a t n ty d. apply keeps_of_leaves, findOrCreateEntity_leaves;
      [exact timeless_cooccurrences | intros ? ?; reflexivity..].
  - apply completeTrajectory_sound_cooccurrences.
  - apply processMessage_sound_cooccurrences.
Qed.

Lemma engine_cooccurrences_sound_witness :
  List.length (cooccurrences labWorld) = 3
  /\ cooccurrencesSound (cooccurrences labWorld).
Proof.
  split; [vm_compute; reflexivity|].
  apply (engine_cooccurrences_sound Scenario.freshWorld).
  - apply reached_turn, reached_here.
  - split; constructor.
Defined.

(** ** Entities and contributions found again *)

Lemma selectWhere_updateWhere {A} (q p : A -> bool) (f : A -> A) (l : list A) :
  (forall x, q (f x) = q x) ->
  selectWhere q (updateWhere p f l) = updateWhere p f (selectWhere q l).
Proof.
  intros H. unfold selectWhere, updateWhere. apply filter_map_same.
  intros x. destruct (p x); [apply H | reflexivity].
Qed.

Lemma trackContribution_known entityId nearAccountId trajectoryId timestamp w :
  contributionRows entityId nearAccountId w <> [] ->
  let w' := exec (trackContribution entityId nearAccountId trajectoryId timestamp) w in
  List.length (contributions w') = List.length (contributions w)
  /\ entities w' = entities w.
Proof.
  unfold contributionRows. intros H. unfold trackContribution. autorewrite with store.
  destruct (selectWhere _ _) as [|existing rows]; [contradiction|].
  cbn [head]. autorewrite with store. fields.
  split; [apply updateWhere_length | reflexivity].
Qed.

Lemma trackContribution_rows entityId nearAccountId trajectoryId timestamp w :
  List.length (contributionRows entityId nearAccountId
                 (exec (trackContribution entityId nearAccountId trajectoryId timestamp) w))
  = Nat.max 1 (List.length (contributionRows entityId nearAccountId w)).
Proof.
  unfold contributionRows, trackContribution. autorewrite with store.
  destruct (selectWhere _ (contributions w)) as [|existing rows] eqn:E;
    cbn [head]; autorewrite with store; fields.
  - change (contributions (exec newId w)) with (contributions w).
    unfold insertRow, selectWhere. rewrite List.filter_app.
    unfold selectWhere in E. rewrite E.
    cbn [List.filter app]. unfold contributionOf. cbn [ctb_entityId ctb_nearAccountId].
    rewrite !String.eqb_refl. reflexivity.
  - rewrite selectWhere_updateWhere by reflexivity.
    rewrite updateWhere_length, E. cbn [List.length]. lia.
Qed.

(** X7: [trackContribution] keeps one row per (entity, account).  For an
    entity and a trajectory that have rows, a call leaves exactly one row for
    a pair that had none and no more rows than before for a pair that had
    some, and a second call for the same pair adds no row and leaves the
    entity table, hence every [contributorCount], as it is. *)
Theorem trackContribution_once entityId nearAccountId trajectoryId timestamp
    trajectoryId' timestamp' w :
  hasEntity entityId w = true ->
  hasTrajectory trajectoryId w = true ->
  let w1 := exec (trackContribution entityId nearAccountId trajectoryId timestamp) w in
  let w2 := exec (trackContribution entityId nearAccountId trajectoryId' timestamp') w1 in
  List.length (contributionRows entityId nearAccountId w1)
  = Nat.max 1 (List.length (contributionRows entityId nearAccountId w))
  /\ List.length (contributions w2) = List.length (contributions w1)
  /\ entities w2 = entities w1.
Proof.
  intros _ _ w1 w2.
  pose proof (trackContribution_rows entityId nearAccountId trajectoryId timestamp w) as Hrows.
  fold w1 in Hrows. split; [exact Hrows|].
  apply trackContribution_known.
  intros E. rewrite E in Hrows. cbn in Hrows. lia.
Qed.

Lemma trackContribution_once_witness :
  hasEntity "id3" labWorld = true
  /\ hasTrajectory "id1" labWorld = true
  /\ contributionRows "id3" "bob.near" labWorld = []
  /\ List.length
       (contributionRows "id3" "bob.near"
          (exec (trackContribution "id3" "bob.near" "id1" 20) labWorld)) = 1.
Proof.
  split; [vm_compute; reflexivity|]. split; [vm_compute; reflexivity|].
  split; [vm_compute; reflexivity|].
  rewrite (proj1 (trackContribution_once "id3" "bob.near" "id1" 20 "id1" 21 labWorld
                    ltac:(vm_compute; reflexivity) ltac:(vm_compute; reflexivity))).
  vm_compute. reflexivity.
Defined.

(** *** The two branches of findOrCreateEntity *)

Lemma findOrCreateEntity_found nearAccountId trajectoryId name entityType description w existing :
  head (selectWhere (fun e => String.eqb (ent_normalizedName e) (normalizedNameOf name))
          (entities w)) = Some existing ->
  let w' := exec (findOrCreateEntity nearAccountId trajectoryId name entityType description) w in
  eval (findOrCreateEntity nearAccountId trajectoryId name entityType description) w
  = ent_id existing
  /\ exists h, entities w' = map h (entities w)
       /\ (forall e, sameEntity (Some existing) e (h e))
       /\ (contributionRows (ent_id existing) nearAccountId w <> [] ->
           (forall e, ent_contributorCount (h e) = ent_contributorCount e)
           /\ List.length (contributions w') = List.length (contributions w)).
Proof.
  intros H w'. subst w'. unfold normalizedNameOf in H.
  unfold findOrCreateEntity. autorewrite with store. fields.
  change (entities (exec newDate w)) with (entities w). rewrite H.
  autorewrite with store. split; [reflexivity|].
  unfold trackContribution. autorewrite with store. fields.
  change (contributions (exec newDate w)) with (contributions w).
  fold (contributionRows (ent_id existing) nearAccountId w).
  destruct (contributionRows (ent_id existing) nearAccountId w) as [|row rows];
    cbn [head]; autorewrite with store; fields;
    unfold exec, newId, newDate; cbn [snd]; fields.
  - eexists. split; [unfold updateWhere; rewrite map_map; reflexivity|].
    split; [|intros Hne; contradiction].
    intros e. unfold sameEntity.
    destruct (String.eqb (ent_id e) (ent_id existing)) eqn:E; cbn [ent_id].
    + rewrite E. cbn. repeat split.
      destruct (Js.truthy (ent_entityType existing)) eqn:Et.
      * left. rewrite andb_false_r. reflexivity.
      * right. exists existing. apply String.eqb_eq in E. auto.
    + rewrite E. repeat split. left. reflexivity.
  - eexists. split; [reflexivity|]. split.
    + intros e. unfold sameEntity.
      destruct (String.eqb (ent_id e) (ent_id existing)) eqn:E; cbn.
      * repeat split.
        destruct (Js.truthy (ent_entityType existing)) eqn:Et.
        -- left. rewrite andb_false_r. reflexivity.
        -- right. exists existing. apply String.eqb_eq in E. auto.
      * repeat split. left. reflexivity.
    + intros _. split; [|apply updateWhere_length].
      intros e. destruct (String.eqb (ent_id e) (ent_id existing)); reflexivity.
Qed.

Lemma findOrCreateEntity_created nearAccountId trajectoryId name entityType description w :
  selectWhere (fun e => String.eqb (ent_normalizedName e) (normalizedNameOf name))
    (entities w) = [] ->
  let w' := exec (findOrCreateEntity nearAccountId trajectoryId name entityType description) w in
  eval (findOrCreateEntity nearAccountId trajectoryId name entityType description) w
  = nanoid w (drawn w)
  /\ exists h, entities w' = map h (entities w ++ [createdEntity name entityType description w])
       /\ forall e, sameEntity None e (h e).
Proof.
  intros H w'. subst w'. unfold normalizedNameOf in H.
  unfold findOrCreateEntity. autorewrite with store. fields.
  change (entities (exec newDate w)) with (entities w). rewrite H.
  cbn [head]. autorewrite with store. split; [reflexivity|].
  unfold trackContribution. autorewrite with store.
  destruct (head _);
    autorewrite with store; fields; unfold exec, newId, newDate; cbn [snd fst]; fields.
  - exists (fun x => x). split; [rewrite map_id; reflexivity|].
    intros x. unfold sameEntity. repeat split. left. reflexivity.
  - eexists. split; [reflexivity|].
    intros x. unfold sameEntity.
    destruct (String.eqb (ent_id x) (nanoid w (drawn w))); repeat split; left; reflexivity.
Qed.

Lemma findOrCreateEntity_recorded nearAccountId trajectoryId name entityType description w :
  contributionRows
    (eval (findOrCreateEntity nearAccountId trajectoryId name entityType description) w)
    nearAccountId
    (exec (findOrCreateEntity nearAccountId trajectoryId name entityType description) w)
  <> [].
Proof.
  unfold findOrCreateEntity. autorewrite with store.
  match goal with
  | |- contributionRows ?i ?a (exec (trackContribution ?i ?a ?t ?ts) ?w0) <> [] =>
      pose proof (trackContribution_rows i a t ts w0) as H
  end.
  intros E. rewrite E in H. cbn in H. lia.
Qed.

(** After a call the name is known: the first row with the normalised name
    carries the id that the call returned. *)
Lemma findOrCreateEntity_finds nearAccountId trajectoryId name entityType description w :
  exists e,
    head (selectWhere (fun e => String.eqb (ent_normalizedName e) (normalizedNameOf name))
            (entities (exec (findOrCreateEntity nearAccountId trajectoryId name
                               entityType description) w))) = Some e
    /\ ent_id e
       = eval (findOrCreateEntity nearAccountId trajectoryId name entityType description) w.
Proof.
  destruct (head (selectWhere
                    (fun e => String.eqb (ent_normalizedName e) (normalizedNameOf name))
                    (entities w))) as [existing|] eqn:E.
  - destruct (findOrCreateEntity_found nearAccountId trajectoryId name entityType
                description w existing E) as (Hid & h & Hrows & Hsame & _).
    exists (h existing). rewrite Hrows, Hid. unfold selectWhere.
    rewrite filter_map_same
      by (intros x; destruct (Hsame x) as (_ & _ & -> & _); reflexivity).
    unfold selectWhere in E. destruct (List.filter _ (entities w)); [discriminate|].
    injection E as ->. split; [reflexivity | apply Hsame].
  - apply head_nil in E.
    destruct (findOrCreateEntity_created nearAccountId trajectoryId name entityType
                description w E) as (Hid & h & Hrows & Hsame).
    exists (h (createdEntity name entityType description w)).
    rewrite Hrows, Hid. unfold selectWhere.
    rewrite filter_map_same
      by (intros x; destruct (Hsame x) as (_ & _ & -> & _); reflexivity).
    rewrite List.filter_app. unfold selectWhere in E. rewrite E.
    cbn [List.filter app createdEntity ent_normalizedName].
    rewrite String.eqb_refl. split; [reflexivity|].
    destruct (Hsame (createdEntity name entityType description w)) as (-> & _). reflexivity.
Qed.

(** X8: entities are found by normalised name, whatever the account, the
    type or the spelling: for two trajectories that have rows, a second
    [findOrCreateEntity] with a name that normalises to the same key returns
    the id of the first call and adds no entity row; for the same account it
    adds no contribution row either and leaves every [contributorCount] as it
    is. *)
Theorem findOrCreateEntity_again nearAccountId trajectoryId name entityType description
    nearAccountId' trajectoryId' name' entityType' description' w :
  hasTrajectory trajectoryId w = true ->
  hasTrajectory trajectoryId' w = true ->
  normalizedNameOf name' = normalizedNameOf name ->
  let first := findOrCreateEntity nearAccountId trajectoryId name entityType description in
  let again a := findOrCreateEntity a trajectoryId' name' entityType' description' in
  let w1 := exec first w in
  eval (again nearAccountId') w1 = eval first w
  /\ map ent_id (entities (exec (again nearAccountId') w1)) = map ent_id (entities w1)
  /\ List.length (contributions (exec (again nearAccountId) w1))
     = List.length (contributions w1)
  /\ map ent_contributorCount (entities (exec (again nearAccountId) w1))
     = map ent_contributorCount (entities w1).
Proof.
  intros _ _ Hname first again w1.
  destruct (findOrCreateEntity_finds nearAccountId trajectoryId name entityType
              description w) as (e & He & Hid).
  fold first in He, Hid. fold w1 in He. rewrite <- Hname in He.
  pose proof (findOrCreateEntity_recorded nearAccountId trajectoryId name entityType
                description w) as Hrec.
  fold first in Hrec. fold w1 in Hrec. rewrite <- Hid in Hrec.
  split; [|split].
  - destruct (findOrCreateEntity_found nearAccountId' trajectoryId' name' entityType'
                description' w1 e He) as (H & _).
    unfold again. rewrite H. exact Hid.
  - destruct (findOrCreateEntity_found nearAccountId' trajectoryId' name' entityType'
                description' w1 e He) as (_ & h & Hrows & Hsame & _).
    unfold again. rewrite Hrows, map_map. apply map_ext. intros x. apply Hsame.
  - destruct (findOrCreateEntity_found nearAccountId trajectoryId' name' entityType'
                description' w1 e He) as (_ & h & Hrows & _ & Hknown).
    destruct (Hknown Hrec) as [Hcount Hlen].
    unfold again. split; [exact Hlen|].
    rewrite Hrows, map_map. apply map_ext. exact Hcount.
Qed.

Lemma findOrCreateEntity_again_witness :
  let first := findOrCreateEntity "alice.near" "id1" "Fractions" (Some "topic") None in
  let again := findOrCreateEntity "bob.near" "id16" "  fractions " (Some "strategy") None in
  hasTrajectory "id1" sharedWorld = true
  /\ hasTrajectory "id16" sharedWorld = true
  /\ eval again (exec first sharedWorld) = eval first sharedWorld
  /\ List.length (entities (exec again (exec first sharedWorld))) = 4.
Proof.
  split; [vm_compute; reflexivity|]. split; [vm_compute; reflexivity|].
  destruct (findOrCreateEntity_again "alice.near" "id1" "Fractions" (Some "topic") None
              "bob.near" "id16" "  fractions " (Some "strategy") None sharedWorld)
    as (Hid & Hrows & _).
  - vm_compute. reflexivity.
  - vm_compute. reflexivity.
  - vm_compute. reflexivity.
  - split; [exact Hid|].
    rewrite <- (length_map ent_id), Hrows. vm_compute. reflexivity.
Defined.

Lemma NoDup_map_In {A B} (f : A -> B) (l : list A) a b :
  List.NoDup (map f l) -> In a l -> In b l -> f a = f b -> a = b.
Proof.
  induction l as [|x r IH]; intros Hnd Ha Hb E; [contradiction|].
  cbn [map] in Hnd. inversion Hnd as [|? ? Hx Hr]; subst.
  destruct Ha as [->|Ha], Hb as [->|Hb]; [reflexivity | | | auto].
  - exfalso. apply Hx. rewrite E. apply in_map, Hb.
  - exfalso. apply Hx. rewrite <- E. apply in_map, Ha.
Qed.

(** X9: the first type wins.  On a table with pairwise distinct ids, an
    entity that has a type keeps its id, its names and its type through any
    [findOrCreateEntity], also one that finds it under another type. *)
Theorem findOrCreateEntity_keeps_type nearAccountId trajectoryId name entityType
    description w e :
  List.NoDup (map ent_id (entities w)) ->
  In e (entities w) -> Js.truthy (ent_entityType e) = true ->
  exists e',
    In e' (entities (exec (findOrCreateEntity nearAccountId trajectoryId name entityType
                             description) w))
    /\ ent_id e' = ent_id e /\ ent_name e' = ent_name e
    /\ ent_normalizedName e' = ent_normalizedName e
    /\ ent_entityType e' = ent_entityType e.
Proof.
  intros Hnd Hin Hty.
  destruct (head (selectWhere
                    (fun e => String.eqb (ent_normalizedName e) (normalizedNameOf name))
                    (entities w))) as [existing|] eqn:E.
  - destruct (findOrCreateEntity_found nearAccountId trajectoryId name entityType
                description w existing E) as (_ & h & Hrows & Hsame & _).
    exists (h e). rewrite Hrows. split; [apply in_map, Hin|].
    destruct (Hsame e) as (H1 & H2 & H3 & [H4|(ex & Hex & Hid & Hno)]); [auto|].
    injection Hex as <-. apply head_selectWhere in E as [Hex _].
    rewrite (NoDup_map_In ent_id _ e existing Hnd Hin Hex Hid) in Hty. congruence.
  - apply head_nil in E.
    destruct (findOrCreateEntity_created nearAccountId trajectoryId name entityType
                description w E) as (_ & h & Hrows & Hsame).
    exists (h e). rewrite Hrows. split; [apply in_map, in_or_app; left; exact Hin|].
    destruct (Hsame e) as (H1 & H2 & H3 & [H4|(ex & Hex & _)]); [auto | discriminate].
Qed.

Lemma findOrCreateEntity_keeps_type_witness :
  let w := exec firstMention Scenario.freshWorld in
  map ent_entityType
    (entities (exec (findOrCreateEntity "bob.near" "t2" "fractions" (Some "strategy") None) w))
  = [Some "topic"].
Proof.
  cbv zeta.
  destruct (findOrCreateEntity_keeps_type "bob.near" "t2" "fractions" (Some "strategy") None
              (exec firstMention Scenario.freshWorld)
              (hd (createdEntity EmptyString None None Scenario.freshWorld)
                  (entities (exec firstMention Scenario.freshWorld))))
    as (e' & _ & _ & _ & _ & _).
  - vm_compute. repeat constructor. intros [].
  - vm_compute. left. reflexivity.
  - vm_compute. reflexivity.
  - vm_compute. reflexivity.
Defined.

(** ** Reading trajectories back *)

Lemma Sorted_map {A B} (R : B -> B -> Prop) (f : A -> B) (l : list A) :
  Sorted (fun a b => R (f a) (f b)) l -> Sorted R (map f l).
Proof.
  induction 1 as [|a l _ IH Hhd]; cbn [map]; constructor; [exact IH|].
  destruct Hhd; cbn [map]; constructor. assumption.
Qed.

Lemma Sorted_firstn {A} (R : A -> A -> Prop) (l : list A) : forall n,
  Sorted R l -> Sorted R (firstn n l).
Proof.
  induction l as [|a l IH]; intros n H; [rewrite firstn_nil; constructor|].
  destruct n as [|n]; [constructor|].
  cbn [firstn]. inversion H as [|? ? Hl Hhd]; subst. constructor; [apply IH, Hl|].
  destruct Hhd as [|b l' Hab]; [rewrite firstn_nil; constructor|].
  destruct n; cbn [firstn]; constructor. exact Hab.
Qed.

Lemma firstn_In {A} (n : nat) (l : list A) x : In x (firstn n l) -> In x l.
Proof.
  intros H. rewrite <- (firstn_skipn n l). apply in_or_app. left. exact H.
Qed.

Lemma sortBy_ascending {A} (key : A -> nat) (l : list A) :
  Sorted (fun a b => key a <= key b) (Js.sortBy (fun a b => key a <? key b) l).
Proof.
  eapply Sorted_ind with (P := Sorted _);
    [constructor | | apply (sortBy_sorted (fun a b => key a <? key b))].
  - intros a l' _ IH Hhd. constructor; [exact IH|].
    destruct Hhd as [|b l'' Hab]; constructor. apply Nat.ltb_ge in Hab. exact Hab.
  - intros a b Hab. apply Nat.ltb_lt in Hab. apply Nat.ltb_ge. lia.
Qed.

Lemma sortBy_descending {A} (key : A -> nat) (l : list A) :
  Sorted (fun a b => key b <= key a) (Js.sortBy (fun a b => key b <? key a) l).
Proof.
  eapply Sorted_ind with (P := Sorted _);
    [constructor | | apply (sortBy_sorted (fun a b => key b <? key a))].
  - intros a l' _ IH Hhd. constructor; [exact IH|].
    destruct Hhd as [|b l'' Hab]; constructor. apply Nat.ltb_ge in Hab. exact Hab.
  - intros a b Hab. apply Nat.ltb_lt in Hab. apply Nat.ltb_ge. lia.
Qed.

Lemma sortBy_length {A} (before : A -> A -> bool) (l : list A) :
  List.length (Js.sortBy before l) = List.length l.
Proof. symmetry. apply Permutation_length, sortBy_perm. Qed.

(** X10: [getTrajectory] answers for exactly the ids that have a row; its
    events are the events of that trajectory, all of them, in ascending
    sequence order, and every entity it lists is referred to by one of them. *)
Theorem getTrajectory_view w id :
  (getTrajectory w id = None <-> forall t, In t (trajectories w) -> traj_id t <> id)
  /\ forall v, getTrajectory w id = Some v ->
       Sorted (fun a b => view_sequenceNum a <= view_sequenceNum b) (tv_events v)
       /\ Permutation (tv_events v)
            (map eventView
               (selectWhere (fun e => String.eqb (ev_trajectoryId e) id) (events w)))
       /\ forall info, In info (tv_entitiesTouched v) ->
            (exists row, In row (entities w) /\ info = entityInfo row)
            /\ exists e, In e (tv_events v) /\ view_entityId e = Some (ei_id info).
Proof.
  unfold getTrajectory. split.
  - destruct (head _) as [t|] eqn:E.
    + split; [discriminate|]. intros H. apply head_selectWhere in E as [Hin Hid].
      apply String.eqb_eq in Hid. destruct (H t Hin Hid).
    + split; [|reflexivity]. intros _ t Hin Hid. apply head_nil in E.
      pose proof (selectWhere_nil_In _ _ t E Hin) as Hf. cbn in Hf.
      apply String.eqb_neq in Hf. contradiction.
  - intros v Hv. destruct (head _) as [t|]; [|discriminate].
    injection Hv as <-. cbn [tv_events tv_entitiesTouched]. split; [|split].
    + apply Sorted_map. apply (sortBy_ascending ev_sequenceNum).
    + apply Permutation_map. symmetry. apply sortBy_perm.
    + intros info Hinfo. apply in_map_iff in Hinfo as (row & <- & Hrow).
      destruct (flat_map _ (walkEvents w id)) as [|i0 ids] eqn:E; [contradiction|].
      apply filter_In in Hrow as [Hrow Hid]. split; [exists row; auto|].
      apply inArray_In in Hid. rewrite <- E in Hid.
      apply in_flat_map in Hid as (e & He & Hid).
      exists (eventView e). split; [apply in_map, He|].
      cbn [view_entityId eventView entityInfo ei_id].
      destruct (Js.truthy (ev_entityId e)); [|contradiction].
      destruct (ev_entityId e) as [i|]; [|contradiction].
      destruct Hid as [->|[]]. reflexivity.
Qed.

Lemma getTrajectory_view_witness :
  let w := exec completedWalk Scenario.freshWorld in
  let t := eval completedWalk Scenario.freshWorld in
  exists v, getTrajectory w t = Some v
    /\ map view_sequenceNum (tv_events v) = [0; 1]
    /\ Sorted (fun a b => view_sequenceNum a <= view_sequenceNum b) (tv_events v).
Proof.
  cbv zeta.
  destruct (getTrajectory (exec completedWalk Scenario.freshWorld)
              (eval completedWalk Scenario.freshWorld)) as [v|] eqn:E;
    [|vm_compute in E; discriminate].
  exists v. split; [reflexivity|]. split.
  - revert E. vm_compute. intros E. injection E as <-. reflexivity.
  - exact (proj1 (proj2 (getTrajectory_view _ _) v E)).
Defined.

Lemma completeTrajectory_trajectories trajectoryId nearAccountId summary w :
  trajectories (exec (completeTrajectory trajectoryId nearAccountId summary) w)
  = updateWhere (fun t => String.eqb (traj_id t) trajectoryId)
      (fun t =>
         {| traj_id := traj_id t; traj_nearAccountId := traj_nearAccountId t;
            traj_conversationId := traj_conversationId t;
            traj_inputText := traj_inputText t; traj_inputHash := traj_inputHash t;
            traj_summary := summary;
            traj_startedAt := traj_startedAt t;
            traj_completedAt := Some (clock w (ticks w)) |})
      (trajectories w).
Proof.
  unfold completeTrajectory. autorewrite with store. fields.
  rewrite (trackOutcomes_leaves trajectories) by (intros f x; reflexivity).
  rewrite (strengthenEdges_leaves trajectories) by (intros f x; reflexivity).
  rewrite (updateCooccurrences_leaves trajectories) by (intros f x; reflexivity).
  rewrite (forEach_preserves trajectories) by reflexivity.
  destruct (allIds _ _); reflexivity.
Qed.

Lemma trajectoryOf_head w id :
  trajectoryOf w id
  = option_map trajectoryInfo
      (head (selectWhere (fun t => String.eqb (traj_id t) id) (trajectories w))).
Proof.
  unfold trajectoryOf, getTrajectory. destruct (head _); reflexivity.
Qed.

(** X11: the life of a trajectory as [getTrajectory] shows it.  For a
    conversation id that is absent or has a row, and an id that is not in the
    table, [startTrajectory] creates the row that is read back open, with the
    input text and no summary; after any steps that leave the table of
    trajectories alone, [completeTrajectory] stamps it with its summary and
    the time of the call. *)
Theorem trajectory_lifecycle nearAccountId inputText conversationId w :
  refers hasConversation conversationId w = true ->
  (forall t, In t (trajectories w) -> traj_id t <> nanoid w (drawn w)) ->
  let id := eval (startTrajectory nearAccountId inputText conversationId) w in
  let w1 := exec (startTrajectory nearAccountId inputText conversationId) w in
  trajectoryOf w id = None
  /\ trajectoryOf w1 id
     = Some {| ti_id := id; ti_inputText := inputText; ti_summary := None;
               ti_startedAt := clock w (ticks w); ti_completedAt := None |}
  /\ forall w2 account summary,
       trajectories w2 = trajectories w1 ->
       trajectoryOf (exec (completeTrajectory id account summary) w2) id
       = Some {| ti_id := id; ti_inputText := inputText; ti_summary := summary;
                 ti_startedAt := clock w (ticks w);
                 ti_completedAt := Some (clock w2 (ticks w2)) |}.
Proof.
  intros _ Hfresh id w1.
  assert (Hid : id = nanoid w (drawn w)) by reflexivity.
  assert (Hnone : selectWhere (fun t => String.eqb (traj_id t) id) (trajectories w) = []).
  { apply selectWhere_none. intros t Ht. apply String.eqb_neq. rewrite Hid.
    apply Hfresh, Ht. }
  assert (Hrows : trajectories w1
                  = trajectories w
                    ++ [ {| traj_id := id; traj_nearAccountId := nearAccountId;
                            traj_conversationId := conversationId;
                            traj_inputText := inputText;
                            traj_inputHash := hashInput inputText;
                            traj_summary := None;
                            traj_startedAt := clock w (ticks w);
                            traj_completedAt := None |} ]).
  { unfold w1, startTrajectory. autorewrite with store. reflexivity. }
  split; [|split].
  - rewrite trajectoryOf_head, Hnone. reflexivity.
  - rewrite trajectoryOf_head, Hrows. unfold selectWhere in *.
    rewrite List.filter_app, Hnone. cbn [List.filter app traj_id].
    rewrite String.eqb_refl. reflexivity.
  - intros w2 account summary H2.
    rewrite trajectoryOf_head, completeTrajectory_trajectories, H2, Hrows.
    rewrite selectWhere_updateWhere by reflexivity.
    unfold selectWhere in *. rewrite List.filter_app, Hnone.
    cbn [List.filter app traj_id]. rewrite String.eqb_refl.
    cbn [updateWhere map traj_id head option_map]. rewrite String.eqb_refl. reflexivity.
Qed.

Lemma trajectory_lifecycle_witness :
  let id := eval (startTrajectory "bob.near" "hello" (Some "id0")) labWorld in
  let w1 := exec (startTrajectory "bob.near" "hello" (Some "id0")) labWorld in
  hasConversation "id0" labWorld = true
  /\ option_map ti_completedAt (trajectoryOf w1 id) = Some None
  /\ option_map ti_summary
       (trajectoryOf (exec (completeTrajectory id "bob.near" (Some "done")) w1) id)
     = Some (Some "done").
Proof.
  cbv zeta. split; [vm_compute; reflexivity|].
  destruct (trajectory_lifecycle "bob.near" "hello" (Some "id0") labWorld)
    as (_ & Hopen & Hdone).
  - vm_compute. reflexivity.
  - apply (all_check (fun t => negb (String.eqb (traj_id t) "id15"))).
    + intros t Ht Heq. apply negb_true_iff, String.eqb_neq in Ht. apply Ht.
      rewrite Heq. vm_compute. reflexivity.
    + vm_compute. reflexivity.
  - split.
    + rewrite Hopen. reflexivity.
    + rewrite (Hdone _ "bob.near" (Some "done") eq_refl). reflexivity.
Defined.

(** X12: [listTrajectories] returns at most [limit] trajectories, newest
    first, each a row of the account, and of the conversation when one is
    given; an empty conversation id counts as none given.  It returns as many
    as there are such rows, up to the limit. *)
Theorem listTrajectories_page w nearAccountId limit conversationId :
  let page := listTrajectories w nearAccountId limit conversationId in
  List.length page <= limit
  /\ Sorted (fun a b => ti_startedAt b <= ti_startedAt a) page
  /\ (forall info, In info page ->
        exists t, In t (trajectories w) /\ info = trajectoryInfo t
                  /\ listedFor nearAccountId conversationId t)
  /\ forall rows,
       Forall (listedFor nearAccountId conversationId) rows -> incl rows (trajectories w) ->
       List.NoDup rows -> Nat.min limit (List.length rows) <= List.length page.
Proof.
  intros page. unfold page, listTrajectories.
  set (p := fun t => _ && _).
  assert (Hp : forall t, p t = true <-> listedFor nearAccountId conversationId t).
  { intros t. unfold p, listedFor. rewrite andb_true_iff, String.eqb_eq.
    destruct (Js.truthy conversationId) eqn:Et.
    - split; intros [H1 H2]; split; auto.
      + intros _. destruct (traj_conversationId t), conversationId; cbn in H2;
          try discriminate; try reflexivity.
        apply String.eqb_eq in H2. subst. reflexivity.
      + rewrite (H2 eq_refl). destruct conversationId; cbn; [apply String.eqb_refl | reflexivity].
    - split; intros [H1 _]; split; auto. discriminate. }
  split; [|split; [|split]].
  - rewrite length_map, length_firstn. lia.
  - apply Sorted_map, Sorted_firstn. apply (sortBy_descending traj_startedAt).
  - intros info Hinfo. apply in_map_iff in Hinfo as (t & <- & Ht).
    apply firstn_In in Ht. apply sortBy_In, filter_In in Ht as [Hin Hpt].
    exists t. split; [exact Hin|]. split; [reflexivity | apply Hp, Hpt].
  - intros rows Hall Hincl Hnd.
    rewrite length_map, length_firstn, sortBy_length.
    apply Nat.min_le_compat_l. apply NoDup_incl_length; [exact Hnd|].
    intros t Ht. apply filter_In. split; [apply Hincl, Ht|].
    apply Hp. rewrite List.Forall_forall in Hall. apply Hall, Ht.
Qed.

(** ** Reading conversations back *)

Lemma StronglySorted_app_inv {A} (R : A -> A -> Prop) (l1 l2 : list A) :
  StronglySorted R (l1 ++ l2) -> forall a b, In a l1 -> In b l2 -> R a b.
Proof.
  induction l1 as [|x l1 IH]; intros H a b Ha Hb; [contradiction|].
  cbn [app] in H. inversion H as [|? ? Hrest Hall]; subst.
  destruct Ha as [->|Ha]; [|exact (IH Hrest a b Ha Hb)].
  rewrite List.Forall_forall in Hall. apply Hall, in_or_app. right. exact Hb.
Qed.

Lemma StronglySorted_app {A} (R : A -> A -> Prop) (l1 l2 : list A) :
  StronglySorted R l1 -> StronglySorted R l2 ->
  (forall a b, In a l1 -> In b l2 -> R a b) -> StronglySorted R (l1 ++ l2).
Proof.
  induction 1 as [|x l1 H1 IH Hall]; intros H2 Hcross; [exact H2|].
  cbn [app]. constructor.
  - apply IH; [exact H2|]. intros a b Ha Hb. apply Hcross; [right; exact Ha | exact Hb].
  - apply Forall_app. split; [exact Hall|].
    apply List.Forall_forall. intros b Hb. apply Hcross; [left; reflexivity | exact Hb].
Qed.

Lemma StronglySorted_rev {A} (R : A -> A -> Prop) (l : list A) :
  StronglySorted R l -> StronglySorted (fun a b => R b a) (rev l).
Proof.
  induction 1 as [|x l H IH Hall]; [constructor|].
  cbn [rev]. apply StronglySorted_app; [exact IH | repeat constructor |].
  intros a b Ha [<-|[]]. rewrite List.Forall_forall in Hall.
  apply Hall. apply in_rev. exact Ha.
Qed.

Lemma descending_strong {A} (key : A -> nat) (l : list A) :
  StronglySorted (fun a b => key b <= key a) (Js.sortBy (fun a b => key b <? key a) l).
Proof.
  apply Sorted_StronglySorted; [|apply sortBy_descending].
  intros a b c Hab Hbc. lia.
Qed.

Lemma StronglySorted_firstn {A} (R : A -> A -> Prop) (n : nat) (l : list A) :
  StronglySorted R l -> StronglySorted R (firstn n l).
Proof.
  intros H. revert n. induction H as [|x l H IH Hall]; intros n;
    [rewrite firstn_nil; constructor|].
  destruct n; cbn [firstn]; constructor; [apply IH|].
  apply List.Forall_forall. intros y Hy. rewrite List.Forall_forall in Hall.
  apply Hall. eapply firstn_In, Hy.
Qed.

(** X13: the history handed to the language model holds at most [limit]
    messages of the conversation, oldest first, and they are the newest ones:
    no message of the conversation that was left out is newer than one that is
    in. *)
Theorem getConversationHistory_recent conversationId limit w :
  let history := eval (getConversationHistory conversationId limit) w in
  List.length history <= limit
  /\ (forall m, In m history -> In m (messagesOf w conversationId))
  /\ Sorted (fun a b => msg_createdAt a <= msg_createdAt b) history
  /\ (forall m m', In m history -> In m' (messagesOf w conversationId) ->
        ~ In m' history -> msg_createdAt m' <= msg_createdAt m)
  /\ List.length history = Nat.min limit (List.length (messagesOf w conversationId)).
Proof.
  intros history. unfold history, getConversationHistory. rewrite eval_gets.
  fold (messagesOf w conversationId).
  set (sorted := Js.sortBy _ (messagesOf w conversationId)).
  assert (Hstrong : StronglySorted (fun a b => msg_createdAt b <= msg_createdAt a) sorted)
    by apply (descending_strong msg_createdAt).
  split; [|split; [|split; [|split]]].
  - rewrite length_rev, length_firstn. lia.
  - intros m Hm. apply in_rev in Hm. apply firstn_In in Hm. apply sortBy_In in Hm. exact Hm.
  - apply StronglySorted_Sorted.
    apply (StronglySorted_rev (fun a b => msg_createdAt b <= msg_createdAt a)).
    apply StronglySorted_firstn, Hstrong.
  - intros m m' Hm Hm' Hout. apply in_rev in Hm.
    assert (Hrest : In m' (skipn limit sorted)).
    { apply (sortBy_In (fun a b => msg_createdAt b <? msg_createdAt a)) in Hm'.
      fold sorted in Hm'. rewrite <- (firstn_skipn limit sorted) in Hm'.
      apply in_app_or in Hm' as [H|H]; [|exact H].
      exfalso. apply Hout. apply -> in_rev. exact H. }
    rewrite <- (firstn_skipn limit sorted) in Hstrong.
    exact (StronglySorted_app_inv _ _ _ Hstrong m m' Hm Hrest).
  - rewrite length_rev, length_firstn. unfold sorted. rewrite sortBy_length. reflexivity.
Qed.

(** X14: [listConversations] lists the conversations of the account, one
    entry per row; an entry counts the messages of its conversation, and its
    [lastMessageAt] is the creation time of a newest one, absent exactly when
    the conversation has no message. *)
Theorem listConversations_summary w nearAccountId :
  let listed := listConversations w nearAccountId in
  Permutation (map cs_id listed)
    (map conv_id
       (selectWhere (fun c => String.eqb (conv_nearAccountId c) nearAccountId)
          (conversations w)))
  /\ forall s, In s listed ->
       cs_messageCount s = List.length (messagesOf w (cs_id s))
       /\ (cs_lastMessageAt s = None <-> messagesOf w (cs_id s) = [])
       /\ forall at_, cs_lastMessageAt s = Some at_ ->
            (exists m, In m (messagesOf w (cs_id s)) /\ msg_createdAt m = at_)
            /\ forall m, In m (messagesOf w (cs_id s)) -> msg_createdAt m <= at_.
Proof.
  intros listed. unfold listed, listConversations. split.
  - rewrite map_map. cbn [cs_id]. apply Permutation_map. symmetry. apply sortBy_perm.
  - intros s Hs. apply in_map_iff in Hs as (conv & <- & _).
    cbn [cs_id cs_messageCount cs_lastMessageAt].
    fold (messagesOf w (conv_id conv)).
    pose proof (descending_strong msg_createdAt (messagesOf w (conv_id conv))) as Hstrong.
    pose proof (sortBy_perm (fun a b => msg_createdAt b <? msg_createdAt a)
                  (messagesOf w (conv_id conv))) as Hperm.
    destruct (Js.sortBy _ (messagesOf w (conv_id conv))) as [|m0 rest].
    + apply Permutation_sym, Permutation_nil in Hperm. rewrite Hperm. cbn [head].
      split; [reflexivity|]. split; [tauto | discriminate].
    + cbn [head]. split; [reflexivity|]. split.
      * split; [discriminate|]. intros E. rewrite E in Hperm.
        apply Permutation_nil in Hperm. discriminate.
      * intros at_ Hat. injection Hat as <-. split.
        -- exists m0. split; [|reflexivity].
           eapply Permutation_in; [symmetry; exact Hperm | left; reflexivity].
        -- intros m Hm. eapply Permutation_in in Hm; [|exact Hperm].
           destruct Hm as [<-|Hm]; [lia|].
           inversion Hstrong as [|? ? _ Hall]; subst.
           rewrite List.Forall_forall in Hall. apply Hall, Hm.
Qed.

(** X15: [getConversation] answers for exactly the ids that have a row, and
    then with the messages of that conversation, all of them, oldest first. *)
Theorem getConversation_view w conversationId :
  (getConversation w conversationId = None
   <-> forall c, In c (conversations w) -> conv_id c <> conversationId)
  /\ forall v, getConversation w conversationId = Some v ->
       (exists c, In c (conversations w) /\ cv_conversation v = conversationInfo c)
       /\ ci_id (cv_conversation v) = conversationId
       /\ Permutation (cv_messages v) (map messageInfo (messagesOf w conversationId))
       /\ Sorted (fun a b => mi_createdAt a <= mi_createdAt b) (cv_messages v).
Proof.
  unfold getConversation. split.
  - destruct (head _) as [c|] eqn:E.
    + split; [discriminate|]. intros H. apply head_selectWhere in E as [Hin Hid].
      apply String.eqb_eq in Hid. destruct (H c Hin Hid).
    + split; [|reflexivity]. intros _ c Hin Hid. apply head_nil in E.
      pose proof (selectWhere_nil_In _ _ c E Hin) as Hf. cbn in Hf.
      apply String.eqb_neq in Hf. contradiction.
  - intros v Hv. destruct (head _) as [c|] eqn:E; [|discriminate].
    injection Hv as <-. cbn [cv_conversation cv_messages].
    apply head_selectWhere in E as [Hin Hid]. apply String.eqb_eq in Hid.
    split; [exists c; auto|]. split; [exact Hid|]. split.
    + apply Permutation_map. symmetry. apply sortBy_perm.
    + apply Sorted_map. apply (sortBy_ascending msg_createdAt).
Qed.

(** ** Graph views *)

Import GraphService.

Lemma eventEntityIds_spec w nearAccountId i :
  In i (eventEntityIds w (trajectoryIdsOf w nearAccountId))
  <-> accountTouched w nearAccountId i.
Proof.
  unfold eventEntityIds, trajectoryIdsOf, accountTouched.
  rewrite unique_In, in_flat_map. split.
  - intros (ev & Hev & Hi). apply filter_In in Hev as [Hev Ht].
    apply inArray_In, in_map_iff in Ht as (t & Hid & Ht).
    apply filter_In in Ht as [Ht Ha]. apply String.eqb_eq in Ha.
    exists t, ev. destruct (ev_entityId ev) as [j|]; [|contradiction].
    destruct Hi as [->|[]]. auto.
  - intros (t & ev & Ht & Ha & Hev & Hid & Hi).
    exists ev. split; [|rewrite Hi; left; reflexivity].
    apply filter_In. split; [exact Hev|].
    apply inArray_In, in_map_iff. exists t. split; [auto|].
    apply filter_In. split; [exact Ht | apply String.eqb_eq, Ha].
Qed.

Lemma getFullGraph_rows w nearAccountId minWeight :
  let entityIds := eventEntityIds w (trajectoryIdsOf w nearAccountId) in
  getFullGraph w nearAccountId minWeight
  = {| nodes := map graphNode
                  (selectWhere (fun e => inArray (ent_id e) entityIds) (entities w));
       graphEdges :=
         map graphEdge
           (selectWhere
              (fun e => inArray (edge_sourceEntityId e) entityIds
                        && inArray (edge_targetEntityId e) entityIds
                        && (minWeight <=? edge_weight e))
              (edges w)) |}.
Proof.
  intros entityIds. unfold getFullGraph.
  assert (Hnone : entityIds = [] ->
    {| nodes := []; graphEdges := [] |}
    = {| nodes := map graphNode
                    (selectWhere (fun e => inArray (ent_id e) entityIds) (entities w));
         graphEdges :=
           map graphEdge
             (selectWhere
                (fun e => inArray (edge_sourceEntityId e) entityIds
                          && inArray (edge_targetEntityId e) entityIds
                          && (minWeight <=? edge_weight e))
                (edges w)) |}).
  { intros ->. rewrite !selectWhere_none by reflexivity. reflexivity. }
  destruct (trajectoryIdsOf w nearAccountId) as [|t0 ts] eqn:Et.
  - apply Hnone. unfold entityIds, eventEntityIds.
    rewrite selectWhere_none by reflexivity. reflexivity.
  - fold entityIds. destruct entityIds as [|i0 ids] eqn:Ei; [apply Hnone; reflexivity|].
    reflexivity.
Qed.

(** X16: the full graph of an account holds exactly the entities that an
    event of one of the account's trajectories refers to, and exactly the
    edges of weight at least [minWeight] between two such entities; for an
    account without trajectories it is empty.  It is what [getGraph] returns
    when no centre, or an empty one, is given. *)
Theorem getFullGraph_scope w nearAccountId minWeight :
  let g := getFullGraph w nearAccountId minWeight in
  (forall n, In n (nodes g) <->
     exists row, In row (entities w) /\ n = graphNode row
                 /\ accountTouched w nearAccountId (ent_id row))
  /\ (forall e, In e (graphEdges g) <->
        exists row, In row (edges w) /\ e = graphEdge row
                    /\ minWeight <= edge_weight row
                    /\ accountTouched w nearAccountId (edge_sourceEntityId row)
                    /\ accountTouched w nearAccountId (edge_targetEntityId row))
  /\ ((forall t, In t (trajectories w) -> traj_nearAccountId t <> nearAccountId) ->
      g = {| nodes := []; graphEdges := [] |})
  /\ forall depth,
       getGraph w nearAccountId None depth (Some minWeight) = g
       /\ getGraph w nearAccountId (Some EmptyString) depth (Some minWeight) = g.
Proof.
  intros g.
  assert (Hgraph : forall depth,
            getGraph w nearAccountId None depth (Some minWeight) = g
            /\ getGraph w nearAccountId (Some EmptyString) depth (Some minWeight) = g)
    by (intros depth; split; reflexivity).
  revert Hgraph. unfold g. rewrite getFullGraph_rows. cbn [nodes graphEdges].
  intros Hgraph.
  split; [|split; [|split; [|exact Hgraph]]].
  - intros n. rewrite in_map_iff. split.
    + intros (row & <- & Hrow). apply filter_In in Hrow as [Hrow Hid].
      exists row. repeat split; [exact Hrow|].
      apply eventEntityIds_spec, inArray_In, Hid.
    + intros (row & Hrow & -> & Ht). exists row. split; [reflexivity|].
      apply filter_In. split; [exact Hrow|]. apply inArray_In, eventEntityIds_spec, Ht.
  - intros e. rewrite in_map_iff. split.
    + intros (row & <- & Hrow). apply filter_In in Hrow as [Hrow Hp].
      apply andb_true_iff in Hp as [Hp Hw]. apply andb_true_iff in Hp as [Hs Ht].
      exists row. repeat split; [exact Hrow | apply Nat.leb_le, Hw | |];
        apply eventEntityIds_spec, inArray_In; assumption.
    + intros (row & Hrow & -> & Hw & Hs & Ht). exists row. split; [reflexivity|].
      apply filter_In. split; [exact Hrow|].
      rewrite !andb_true_iff. repeat split;
        [apply inArray_In, eventEntityIds_spec, Hs
        | apply inArray_In, eventEntityIds_spec, Ht | apply Nat.leb_le, Hw].
  - intros Hnone.
    assert (E : eventEntityIds w (trajectoryIdsOf w nearAccountId) = []).
    { destruct (eventEntityIds w (trajectoryIdsOf w nearAccountId)) as [|i l] eqn:E;
        [reflexivity|].
      assert (Hi : In i (i :: l)) by (left; reflexivity).
      rewrite <- E in Hi. apply eventEntityIds_spec in Hi as (t & _ & Ht & Ha & _).
      destruct (Hnone t Ht Ha). }
    rewrite E. rewrite !selectWhere_none by reflexivity. reflexivity.
Qed.

Lemma optEqb_Some o i : Js.optEqb o (Some i) = true <-> o = Some i.
Proof.
  destruct o as [j|]; cbn; [|split; discriminate].
  rewrite String.eqb_eq. split; [intros ->; reflexivity | intros [= ->]; reflexivity].
Qed.

Lemma head_some_In {A} (l : list A) : head l <> None <-> exists x, In x l.
Proof.
  destruct l as [|x r]; cbn; split.
  - intros H. destruct (H eq_refl).
  - intros (x & []).
  - intros _. exists x. left. reflexivity.
  - discriminate.
Qed.

Lemma userEvent_spec w nearAccountId entityId :
  head (selectWhere
          (fun e => Js.optEqb (ev_entityId e) (Some entityId)
                    && inArray (ev_trajectoryId e) (trajectoryIdsOf w nearAccountId))
          (events w)) <> None
  <-> accountTouched w nearAccountId entityId.
Proof.
  rewrite head_some_In. unfold accountTouched, trajectoryIdsOf. split.
  - intros (ev & Hev). apply filter_In in Hev as [Hev Hp].
    apply andb_true_iff in Hp as [Hi Ht]. apply optEqb_Some in Hi.
    apply inArray_In, in_map_iff in Ht as (t & Hid & Ht).
    apply filter_In in Ht as [Ht Ha]. apply String.eqb_eq in Ha.
    exists t, ev. auto.
  - intros (t & ev & Ht & Ha & Hev & Hid & Hi). exists ev.
    apply filter_In. split; [exact Hev|]. apply andb_true_iff. split.
    + apply optEqb_Some, Hi.
    + apply inArray_In, in_map_iff. exists t. split; [auto|].
      apply filter_In. split; [exact Ht | apply String.eqb_eq, Ha].
Qed.

Lemma entityMapGet_id rows id e : entityMapGet rows id = Some e -> ent_id e = id.
Proof.
  unfold entityMapGet. intros H. apply find_some in H as [_ H].
  apply String.eqb_eq, H.
Qed.

(** X17: [getEntity] answers exactly when the entity exists and an event of
    one of the account's trajectories refers to it.  The account only decides
    whether there is an answer: what is returned is the same for every account
    that gets one, recent trajectories of other accounts included.  The
    connections are the edges that touch the entity, one entry per edge,
    heaviest first, each naming the other end of its edge. *)
Theorem getEntity_access w nearAccountId entityId :
  (getEntity w nearAccountId entityId <> None
   <-> (exists row, In row (entities w) /\ ent_id row = entityId)
       /\ accountTouched w nearAccountId entityId)
  /\ forall v, getEntity w nearAccountId entityId = Some v ->
       ed_id (evw_entity v) = entityId
       /\ Sorted (fun x y => cn_weight y <= cn_weight x) (evw_connectedEntities v)
       /\ (forall c, In c (evw_connectedEntities v) ->
             exists edge, In edge (edges w) /\ incident entityId edge
               /\ cn_weight c = edge_weight edge
               /\ cn_relationship c = edge_relationshipType edge
               /\ ei_id (cn_entity c) = otherEnd entityId edge)
       /\ List.length (evw_connectedEntities v)
          = List.length
              (selectWhere (fun e => String.eqb (edge_sourceEntityId e) entityId
                                     || String.eqb (edge_targetEntityId e) entityId)
                 (edges w))
       /\ (forall info, In info (evw_recentTrajectories v) ->
             exists ev, In ev (events w) /\ ev_entityId ev = Some entityId
                        /\ ev_trajectoryId ev = ti_id info)
       /\ forall otherAccount v',
            getEntity w otherAccount entityId = Some v' -> v' = v.
Proof.
  unfold getEntity. split.
  - pose proof (userEvent_spec w nearAccountId entityId) as Haccess.
    destruct (head (selectWhere (fun e => String.eqb (ent_id e) entityId) (entities w)))
      as [entity|] eqn:E.
    + apply head_selectWhere in E as [Hin Hid]. apply String.eqb_eq in Hid.
      destruct (trajectoryIdsOf w nearAccountId) as [|t0 ts] eqn:Et.
      * split; [intros H; destruct (H eq_refl)|]. intros [_ Ht].
        apply Haccess in Ht. rewrite selectWhere_none in Ht; [destruct (Ht eq_refl)|].
        intros e _. apply andb_false_r.
      * destruct (head (selectWhere _ (events w))) as [userEvent|].
        -- split; [|discriminate]. intros _. split; [exists entity; auto|].
           apply Haccess. discriminate.
        -- split; [intros H; destruct (H eq_refl)|]. intros [_ Ht].
           apply Haccess in Ht. destruct (Ht eq_refl).
    + split; [intros H; destruct (H eq_refl)|]. intros [(row & Hrow & Hid) _].
      apply head_nil in E. pose proof (selectWhere_nil_In _ _ row E Hrow) as Hf.
      cbn in Hf. apply String.eqb_neq in Hf. contradiction.
  - intros v Hv.
    destruct (head (selectWhere (fun e => String.eqb (ent_id e) entityId) (entities w)))
      as [entity|] eqn:E; [|discriminate].
    destruct (trajectoryIdsOf w nearAccountId) as [|t0 ts]; [discriminate|].
    destruct (head (selectWhere _ (events w))) as [userEvent|]; [|discriminate].
    injection Hv as <-.
    cbn [evw_entity evw_connectedEntities evw_recentTrajectories entityDetail ed_id].
    apply head_selectWhere in E as [Hin Hid]. apply String.eqb_eq in Hid.
    split; [exact Hid|]. split; [|split; [|split; [|split]]].
    + apply Sorted_map. cbn [cn_weight]. apply (sortBy_descending edge_weight).
    + intros c Hc. apply in_map_iff in Hc as (edge & <- & Hedge).
      apply sortBy_In, filter_In in Hedge as [Hedge Hinc].
      exists edge. cbn [cn_weight cn_relationship cn_entity].
      split; [exact Hedge|]. split.
      { unfold incident. apply orb_true_iff in Hinc as [H|H];
          apply String.eqb_eq in H; auto. }
      repeat split.
      destruct (entityMapGet _ _) as [other|] eqn:Eo; [|reflexivity].
      apply entityMapGet_id in Eo. exact Eo.
    + rewrite length_map, sortBy_length. reflexivity.
    + intros info Hinfo. apply in_map_iff in Hinfo as (t & <- & Ht).
      destruct (firstn 5 _) as [|i0 ids] eqn:Er; [contradiction|].
      apply filter_In in Ht as [_ Ht]. apply inArray_In in Ht. rewrite <- Er in Ht.
      apply firstn_In, unique_In, in_map_iff in Ht as (ev & Hid' & Hev).
      apply firstn_In, sortBy_In, filter_In in Hev as [Hev Hi].
      exists ev. split; [exact Hev|]. split; [apply optEqb_Some, Hi | exact Hid'].
    + intros otherAccount v' Hv'.
      destruct (trajectoryIdsOf w otherAccount) as [|t0' ts']; [discriminate|].
      destruct (head (selectWhere _ (events w))) as [userEvent'|]; [|discriminate].
      injection Hv' as <-. reflexivity.
Qed.

Lemma getEntity_access_witness :
  exists v,
    getEntity sharedWorld "alice.near" "id6" = Some v
    /\ getEntity sharedWorld "bob.near" "id6" = Some v
    /\ map ti_inputText (evw_recentTrajectories v)
       = [labMessage; "Trying [[strategy:worked examples]] today"].
Proof.
  destruct (getEntity sharedWorld "alice.near" "id6") as [v|] eqn:Ea;
    [|vm_compute in Ea; discriminate].
  destruct (getEntity sharedWorld "bob.near" "id6") as [v'|] eqn:Eb;
    [|vm_compute in Eb; discriminate].
  exists v. split; [reflexivity|]. split.
  - f_equal.
    exact (proj2 (proj2 (proj2 (proj2 (proj2
             (proj2 (getEntity_access sharedWorld "alice.near" "id6") v Ea)))))
             "bob.near" v' Eb).
  - revert Ea. vm_compute. intros Ea. injection Ea as <-. reflexivity.
Defined.

(** *** The breadth-first walk of getSubgraph *)

Lemma setAdd_In x y set : In x (setAdd y set) <-> x = y \/ In x set.
Proof.
  unfold setAdd. destruct (inArray y set) eqn:E.
  - apply inArray_In in E. split; [auto|]. intros [->|H]; assumption.
  - rewrite in_app_iff. cbn [In]. intuition congruence.
Qed.

Lemma visitEdge_sound w minWeight nodeId st edge :
  walkSound w minWeight st -> In nodeId (allNodeIds st) ->
  In edge (edgesAt w minWeight nodeId) ->
  walkSound w minWeight (visitEdge nodeId st edge)
  /\ incl (allNodeIds st) (allNodeIds (visitEdge nodeId st edge)).
Proof.
  intros (Hnd & Hall & Hvis) Hnode Hedge.
  apply filter_In in Hedge as [Hrow Hp]. apply andb_true_iff in Hp as [Hinc Hw].
  apply Nat.leb_le in Hw.
  set (otherId := if String.eqb (edge_sourceEntityId edge) nodeId
                  then edge_targetEntityId edge else edge_sourceEntityId edge).
  assert (Hgrow : incl (allNodeIds st) (setAdd otherId (allNodeIds st))).
  { intros i Hi. apply setAdd_In. right. exact Hi. }
  assert (Hends : In (edge_sourceEntityId edge) (setAdd otherId (allNodeIds st))
                  /\ In (edge_targetEntityId edge) (setAdd otherId (allNodeIds st))).
  { unfold otherId. destruct (String.eqb_spec (edge_sourceEntityId edge) nodeId) as [Es|Es].
    - split; apply setAdd_In; [right; rewrite Es; exact Hnode | left; reflexivity].
    - cbn [orb] in Hinc. apply String.eqb_eq in Hinc.
      split; apply setAdd_In; [left; reflexivity | right; rewrite Hinc; exact Hnode]. }
  split; [|exact Hgrow].
  unfold walkSound, visitEdge. cbn [allEdges allNodeIds visited]. fold otherId.
  destruct (existsb _ (allEdges st)) eqn:Ex.
  - split; [exact Hnd|]. split.
    + intros e He. destruct (Hall e He) as (H1 & H2 & H3).
      split; [exact H1|]. split; apply Hgrow; assumption.
    + intros i Hi. apply Hgrow, Hvis, Hi.
  - split; [|split].
    + rewrite map_app. cbn [map graphEdge ge_id].
      apply List.NoDup_app; [exact Hnd | repeat constructor; intros [] |].
      intros i Hi [<-|[]]. apply in_map_iff in Hi as (e & He & Hin).
      assert (Ht : existsb (fun e => String.eqb (ge_id e) (edge_id edge)) (allEdges st) = true).
      { apply existsb_exists. exists e. split; [exact Hin | apply String.eqb_eq, He]. }
      congruence.
    + intros e He. apply in_app_or in He as [He|[<-|[]]].
      * destruct (Hall e He) as (H1 & H2 & H3).
        split; [exact H1|]. split; apply Hgrow; assumption.
      * split; [exists edge; auto|]. exact Hends.
    + intros i Hi. apply Hgrow, Hvis, Hi.
Qed.

Lemma visitEdges_sound w minWeight nodeId edges0 : forall st,
  walkSound w minWeight st -> In nodeId (allNodeIds st) ->
  incl edges0 (edgesAt w minWeight nodeId) ->
  walkSound w minWeight (fold_left (visitEdge nodeId) edges0 st)
  /\ incl (allNodeIds st) (allNodeIds (fold_left (visitEdge nodeId) edges0 st)).
Proof.
  induction edges0 as [|edge r IH]; intros st Hst Hnode Hincl; [split; [exact Hst | apply incl_refl]|].
  cbn [fold_left].
  destruct (visitEdge_sound w minWeight nodeId st edge Hst Hnode) as [H1 H2].
  { apply Hincl. left. reflexivity. }
  destruct (IH (visitEdge nodeId st edge) H1) as [H3 H4].
  { apply H2, Hnode. }
  { intros e He. apply Hincl. right. exact He. }
  split; [exact H3|]. intros i Hi. apply H4, H2, Hi.
Qed.

Lemma visitNode_sound w minWeight st nodeId :
  walkSound w minWeight st ->
  walkSound w minWeight (visitNode w minWeight st nodeId)
  /\ incl (allNodeIds st) (allNodeIds (visitNode w minWeight st nodeId))
  /\ (inArray nodeId (visited st) = false ->
      In nodeId (allNodeIds (visitNode w minWeight st nodeId))).
Proof.
  intros Hst. unfold visitNode.
  destruct (inArray nodeId (visited st)) eqn:E;
    [split; [exact Hst|]; split; [apply incl_refl | discriminate]|].
  destruct Hst as (Hnd & Hall & Hvis).
  destruct (visitEdges_sound w minWeight nodeId (edgesAt w minWeight nodeId)
              {| visited := setAdd nodeId (visited st);
                 nodesToProcess := nodesToProcess st;
                 allNodeIds := setAdd nodeId (allNodeIds st);
                 allEdges := allEdges st |}) as [H1 H2].
  - unfold walkSound. cbn [allEdges allNodeIds visited]. split; [exact Hnd|]. split.
    + intros e He. destruct (Hall e He) as (H1 & H2 & H3).
      split; [exact H1|]. split; apply setAdd_In; right; assumption.
    + intros i Hi. apply setAdd_In. apply setAdd_In in Hi as [->|Hi]; [left; reflexivity|].
      right. apply Hvis, Hi.
  - cbn [allNodeIds]. apply setAdd_In. left. reflexivity.
  - apply incl_refl.
  - cbn [allNodeIds] in H2. split; [exact H1|]. split.
    + intros i Hi. apply H2, setAdd_In. right. exact Hi.
    + intros _. apply H2, setAdd_In. left. reflexivity.
Qed.

Lemma visitNodes_sound w minWeight batch : forall st,
  walkSound w minWeight st ->
  walkSound w minWeight (fold_left (visitNode w minWeight) batch st)
  /\ incl (allNodeIds st) (allNodeIds (fold_left (visitNode w minWeight) batch st)).
Proof.
  induction batch as [|nodeId r IH]; intros st Hst; [split; [exact Hst | apply incl_refl]|].
  cbn [fold_left].
  destruct (visitNode_sound w minWeight st nodeId Hst) as (H1 & H2 & _).
  destruct (IH _ H1) as [H3 H4].
  split; [exact H3|]. intros i Hi. apply H4, H2, Hi.
Qed.

Lemma walkLevels_sound w minWeight levels : forall st,
  walkSound w minWeight st ->
  walkSound w minWeight (walkLevels w minWeight levels st)
  /\ incl (allNodeIds st) (allNodeIds (walkLevels w minWeight levels st)).
Proof.
  induction levels as [|k IH]; intros st Hst; [split; [exact Hst | apply incl_refl]|].
  cbn [walkLevels].
  destruct (nodesToProcess st) as [|n0 batch]; [split; [exact Hst | apply incl_refl]|].
  destruct (visitNodes_sound w minWeight (n0 :: batch)
              {| visited := visited st; nodesToProcess := [];
                 allNodeIds := allNodeIds st; allEdges := allEdges st |} Hst) as [H1 H2].
  destruct (IH _ H1) as [H3 H4].
  split; [exact H3|]. intros i Hi. apply H4, H2. exact Hi.
Qed.

Lemma getSubgraph_nodes w nearAccountId centerEntityId depth minWeight :
  nodes (getSubgraph w nearAccountId centerEntityId depth minWeight)
  = map graphNode
      (selectWhere
         (fun e => inArray (ent_id e)
                     (allNodeIds
                        (walkLevels w minWeight depth
                           {| visited := []; nodesToProcess := [centerEntityId];
                              allNodeIds := []; allEdges := [] |})))
         (entities w)).
Proof.
  unfold getSubgraph. cbn [nodes].
  destruct (allNodeIds _); [|reflexivity].
  rewrite selectWhere_none by reflexivity. reflexivity.
Qed.

(** X18: the subgraph around an entity lists only edges of the table with
    weight at least [minWeight], no edge id twice, and with every edge the
    entity rows of both its ends; from depth 1 on it contains the rows of the
    centre, at depth 0 it is empty.  The account does not enter into it. *)
Theorem getSubgraph_closed w nearAccountId centerEntityId depth minWeight :
  let g := getSubgraph w nearAccountId centerEntityId depth minWeight in
  List.NoDup (map ge_id (graphEdges g))
  /\ (forall e, In e (graphEdges g) ->
        (exists row, In row (edges w) /\ e = graphEdge row /\ minWeight <= edge_weight row)
        /\ forall row, In row (entities w) ->
             ent_id row = ge_source e \/ ent_id row = ge_target e ->
             In (graphNode row) (nodes g))
  /\ (forall row, 0 < depth -> In row (entities w) -> ent_id row = centerEntityId ->
        In (graphNode row) (nodes g))
  /\ (depth = 0 -> g = {| nodes := []; graphEdges := [] |})
  /\ forall otherAccount,
       getSubgraph w otherAccount centerEntityId depth minWeight = g.
Proof.
  intros g.
  set (start := {| visited := []; nodesToProcess := [centerEntityId];
                   allNodeIds := []; allEdges := [] |}).
  assert (Hstart : walkSound w minWeight start).
  { unfold walkSound. cbn. split; [constructor|]. split; [intros e []|]. intros i []. }
  destruct (walkLevels_sound w minWeight depth start Hstart) as [(Hnd & Hall & _) _].
  assert (Hnode : forall row i, In row (entities w) -> ent_id row = i ->
            In i (allNodeIds (walkLevels w minWeight depth start)) ->
            In (graphNode row) (nodes g)).
  { intros row i Hrow Hid Hi. unfold g. rewrite getSubgraph_nodes. fold start.
    apply in_map, filter_In. split; [exact Hrow|]. apply inArray_In. rewrite Hid. exact Hi. }
  split; [exact Hnd|]. split; [|split; [|split]].
  - intros e He. destruct (Hall e He) as (H1 & H2 & H3). split; [exact H1|].
    intros row Hrow [Hid|Hid]; eapply Hnode; eauto.
  - intros row Hdepth Hrow Hid. apply (Hnode row centerEntityId Hrow Hid).
    destruct depth as [|k]; [lia|]. cbn [walkLevels start nodesToProcess fold_left].
    match goal with |- In _ (allNodeIds (walkLevels _ _ _ ?st)) =>
      assert (Hin : In centerEntityId (allNodeIds st)
                    /\ walkSound w minWeight st)
    end.
    { destruct (visitNode_sound w minWeight
                  {| visited := visited start; nodesToProcess := [];
                     allNodeIds := allNodeIds start; allEdges := allEdges start |}
                  centerEntityId Hstart) as (H1 & _ & H3).
      split; [apply H3; reflexivity | exact H1]. }
    destruct Hin as [Hin Hst].
    apply (proj2 (walkLevels_sound w minWeight k _ Hst)), Hin.
  - intros ->. reflexivity.
  - intros otherAccount. reflexivity.
Qed.

(** ** Resolution and projection *)

Lemma like_star_skip rest c t :
  like (String "%" rest) t = true -> like (String "%" rest) (String c t) = true.
Proof.
  cbn [like]. rewrite Ascii.eqb_refl. intros H.
  destruct t; cbn in *; rewrite H; apply orb_true_r.
Qed.

Lemma like_star_here rest t :
  like rest t = true -> like (String "%" rest) t = true.
Proof.
  cbn [like]. rewrite Ascii.eqb_refl. intros H. destruct t; rewrite H; reflexivity.
Qed.

Lemma like_prefix n : like (n +:+ "%") n = true.
Proof.
  induction n as [|c n IH]; [reflexivity|].
  change (String c n +:+ "%") with (String c (n +:+ "%")).
  destruct (Ascii.eqb c "%") eqn:E.
  - apply Ascii.eqb_eq in E. subst c.
    apply like_star_skip, like_star_here, IH.
  - cbn [like]. rewrite E, Ascii.eqb_refl, orb_true_r. exact IH.
Qed.

Lemma like_self n : like ("%" +:+ n +:+ "%") n = true.
Proof.
  change ("%" +:+ n +:+ "%") with (String "%" (n +:+ "%")).
  apply like_star_here, like_prefix.
Qed.

Lemma resolveOne_spec w input :
  match resolveOne w input with
  | Some e => In e (entities w) /\ candidateFor input e = true
  | None => forall e, In e (entities w) -> candidateFor input e = false
  end.
Proof.
  unfold resolveOne. fold (normalizedNameOf (in_name input)).
  destruct (head (selectWhere _ (entities w))) as [e|] eqn:E.
  - apply head_selectWhere in E as [Hin Hp]. split; [exact Hin|].
    apply andb_true_iff in Hp as [Hn Ht]. apply String.eqb_eq in Hn.
    unfold candidateFor. rewrite Ht, Hn, like_self. reflexivity.
  - clear E.
    match goal with
    | |- context [Js.sortBy _ (selectWhere ?p (entities w))] =>
        change p with (candidateFor input)
    end.
    destruct (head (Js.sortBy _ (selectWhere (candidateFor input) (entities w))))
      as [e|] eqn:E.
    + assert (Hin : In e (Js.sortBy (fun a b => ent_touchCount b <? ent_touchCount a)
                            (selectWhere (candidateFor input) (entities w)))).
      { destruct (Js.sortBy _ _); [discriminate|]. injection E as ->. left. reflexivity. }
      apply sortBy_In, filter_In in Hin. exact Hin.
    + apply head_nil in E. intros e He.
      destruct (candidateFor input e) eqn:Ec; [|reflexivity].
      assert (Hin : In e (Js.sortBy (fun a b => ent_touchCount b <? ent_touchCount a)
                            (selectWhere (candidateFor input) (entities w)))).
      { apply sortBy_In, filter_In. auto. }
      rewrite E in Hin. contradiction.
Qed.

(** X19: [resolveEntities] splits its inputs: every input either yields one
    resolved entity, a row of the table that is a candidate for it (its
    normalised name contains the input's, and it has the requested type), or
    its name is reported as unresolved, and then no row is a candidate. *)
Theorem resolveEntities_partition w inputs :
  let resolved := fst (resolveEntities w inputs) in
  let unresolved := snd (resolveEntities w inputs) in
  List.length resolved + List.length unresolved = List.length inputs
  /\ (forall r, In r resolved ->
        exists input e, In input inputs /\ In e (entities w)
                        /\ r = resolvedOf e /\ candidateFor input e = true)
  /\ (forall name, In name unresolved ->
        exists input, In input inputs /\ in_name input = name
                      /\ forall e, In e (entities w) -> candidateFor input e = false).
Proof.
  cbv zeta. induction inputs as [|input rest IH].
  - cbn. repeat split; intros ? [].
  - cbn [resolveEntities].
    destruct (resolveEntities w rest) as [resolved unresolved].
    cbn [fst snd] in IH. destruct IH as (Hlen & Hres & Hun).
    pose proof (resolveOne_spec w input) as Hone.
    destruct (resolveOne w input) as [e|]; cbn [fst snd List.length].
    + split; [lia|]. split.
      * intros r [<-|Hr].
        -- exists input, e. destruct Hone. repeat split; auto. left. reflexivity.
        -- destruct (Hres r Hr) as (i & e' & Hi & H). exists i, e'.
           split; [right; exact Hi | exact H].
      * intros name Hname. destruct (Hun name Hname) as (i & Hi & H).
        exists i. split; [right; exact Hi | exact H].
    + split; [lia|]. split.
      * intros r Hr. destruct (Hres r Hr) as (i & e' & Hi & H). exists i, e'.
        split; [right; exact Hi | exact H].
      * intros name [<-|Hname].
        -- exists input. repeat split; [left; reflexivity | exact Hone].
        -- destruct (Hun name Hname) as (i & Hi & H).
           exists i. split; [right; exact Hi | exact H].
Qed.

Lemma resolveEntities_none w inputs :
  (forall input e, In input inputs -> In e (entities w) -> candidateFor input e = false) ->
  resolveEntities w inputs = ([], map in_name inputs).
Proof.
  induction inputs as [|input rest IH]; intros H; [reflexivity|].
  cbn [resolveEntities map]. rewrite IH by (intros i e Hi; apply H; right; exact Hi).
  pose proof (resolveOne_spec w input) as Hone.
  destruct (resolveOne w input) as [e|]; [|reflexivity].
  destruct Hone as [Hin Hc]. rewrite (H input e (or_introl eq_refl) Hin) in Hc. discriminate.
Qed.

(** X20: when no row of the entity table is a candidate for any input (in
    particular on an empty graph, or for an empty input list), [simulate]
    returns the empty result: no outcome, no differentiator, no observation,
    [hasPatterns] false, and every input name, in order, as unresolved. *)
Theorem simulate_nothing_resolved w inputs :
  (forall input e, In input inputs -> In e (entities w) -> candidateFor input e = false) ->
  simulate w inputs = emptyResult inputs (map in_name inputs)
  /\ sim_hasPatterns (simulate w inputs) = false
  /\ sim_unresolved (simulate w inputs) = map in_name inputs.
Proof.
  intros H. unfold simulate. rewrite (resolveEntities_none w inputs H).
  repeat split.
Qed.

Lemma simulate_nothing_resolved_witness :
  sim_unresolved (simulate Scenario.freshWorld workedExamples) = ["worked examples"].
Proof.
  apply (simulate_nothing_resolved Scenario.freshWorld workedExamples).
  intros input e _ [].
Defined.


(** *** The outcomes projected *)

Lemma joinEntity_In key es ents e o :
  In (e, o) (joinEntity key es ents) <-> In e es /\ In o ents /\ key e = ent_id o.
Proof.
  unfold joinEntity. rewrite in_flat_map. split.
  - intros (e' & He' & Hin). apply in_map_iff in Hin as (o' & [= <- <-] & Ho).
    apply filter_In in Ho as [Ho Hk]. apply String.eqb_eq in Hk. auto.
  - intros (He & Ho & Hk). exists e. split; [exact He|].
    apply in_map_iff. exists o. split; [reflexivity|].
    apply filter_In. split; [exact Ho | apply String.eqb_eq, Hk].
Qed.

Lemma outcomeRows_spec w inputEntityIds r :
  In r (forwardOutcomeEdges w inputEntityIds ++ reverseOutcomeEdges w inputEntityIds) ->
  In (fst r) (edges w) /\ In (snd r) (entities w)
  /\ hasType "outcome" (snd r) = true
  /\ linksOutcome inputEntityIds (snd r) (fst r).
Proof.
  intros H. destruct r as [e o]. cbn [fst snd].
  apply in_app_or in H as [H|H].
  - unfold forwardOutcomeEdges in H. apply sortBy_In, filter_In in H as [H Hp].
    apply joinEntity_In in H as (He & Ho & Hk). cbn [fst snd] in Hp.
    apply andb_true_iff in Hp as [Hs Ht]. apply inArray_In in Hs.
    repeat split; try assumption. left. auto.
  - unfold reverseOutcomeEdges in H. apply filter_In in H as [H Hp].
    apply joinEntity_In in H as (He & Ho & Hk). cbn [fst snd] in Hp.
    apply andb_true_iff in Hp as [Hs Ht]. apply inArray_In in Hs.
    repeat split; try assumption. right. auto.
Qed.

Lemma mergeOutcomes_keys rows k :
  In k (map fst (mergeOutcomes rows)) -> exists r, In r rows /\ ent_id (snd r) = k.
Proof.
  unfold mergeOutcomes.
  assert (G : forall m,
            In k (map fst (fold_left (fun m r => mergeEdge (fst r) (snd r) m) rows m)) ->
            In k (map fst m) \/ exists r, In r rows /\ ent_id (snd r) = k).
  { induction rows as [|r rows IH]; intros m H; cbn [fold_left] in H; [left; exact H|].
    apply IH in H as [H|(r' & Hr' & Hk)].
    - rewrite mergeEdge_keys in H.
      destruct (inArray _ _); [left; exact H|].
      apply in_app_or in H as [H|[<-|[]]]; [left; exact H|].
      right. exists r. split; [left; reflexivity | reflexivity].
    - right. exists r'. split; [right; exact Hr' | exact Hk]. }
  intros H. apply G in H as [[]|H]. exact H.
Qed.

Lemma distribution_ids m :
  Permutation (map op_outcomeId (distribution m)) (map fst m).
Proof.
  unfold distribution. rewrite <- (sortBy_perm byProbabilityDesc), map_map.
  rewrite (map_ext _ fst); [reflexivity|]. intros [k a]. reflexivity.
Qed.

(** X21: every outcome that [simulate] projects is an entity of type
    [outcome] that an edge of the table links with one of the resolved
    entities, and no outcome id is projected twice. *)
Theorem simulate_outcomes_linked w inputs :
  let result := simulate w inputs in
  List.NoDup (map op_outcomeId (sim_outcomes result))
  /\ forall o, In o (sim_outcomes result) ->
       exists outcome edge,
         In outcome (entities w) /\ ent_id outcome = op_outcomeId o
         /\ hasType "outcome" outcome = true
         /\ In edge (edges w)
         /\ linksOutcome (map re_id (sim_resolved result)) outcome edge.
Proof.
  unfold simulate.
  destruct (resolveEntities w inputs) as [resolved unresolved].
  destruct resolved as [|r0 resolved]; cbn zeta.
  - cbn. split; [constructor | intros o []].
  - cbn [sim_outcomes sim_resolved]. unfold projectOutcomesFromEdges.
    set (ids := map re_id (r0 :: resolved)).
    destruct (forwardOutcomeEdges w ids) as [|e0 es] eqn:E;
      [split; [constructor | intros o []]|].
    rewrite <- E. set (rows := forwardOutcomeEdges w ids ++ reverseOutcomeEdges w ids).
    split.
    + eapply Permutation_NoDup; [symmetry; apply distribution_ids|].
      apply NoDup_ListNoDup, mergeOutcomes_NoDup.
    + intros o Ho.
      assert (Hk : In (op_outcomeId o) (map fst (mergeOutcomes rows))).
      { eapply Permutation_in; [apply distribution_ids|]. apply in_map, Ho. }
      apply mergeOutcomes_keys in Hk as (r & Hr & Hid).
      destruct (outcomeRows_spec w ids r Hr) as (H1 & H2 & H3 & H4).
      exists (snd r), (fst r). auto.
Qed.

(** *** The distribution is complete *)








(** *** Rates and differentiators *)

Lemma ratio_unit a b : 0 < a + b -> (0 <= ratio a (a + b) <= 1)%Q.
Proof.
  intros H. unfold ratio.
  assert (Hb : (0 < inject_Z (Z.of_nat (a + b)))%Q).
  { change 0%Q with (inject_Z 0). rewrite <- Zlt_Qlt. lia. }
  split.
  - apply Qle_shift_div_l; [exact Hb|]. rewrite Qmult_0_l.
    change 0%Q with (inject_Z 0). rewrite <- Zle_Qle. lia.
  - apply Qle_shift_div_r; [exact Hb|]. rewrite Qmult_1_l.
    rewrite <- Zle_Qle. lia.
Qed.

Lemma Qltb_lt x y : Qltb x y = true <-> (x < y)%Q.
Proof.
  unfold Qltb. rewrite negb_true_iff. split.
  - intros H. apply Qnot_le_lt. intros Hle. apply Qle_bool_iff in Hle. congruence.
  - intros H. destruct (Qle_bool y x) eqn:E; [|reflexivity].
    apply Qle_bool_iff in E. exfalso. exact (Qlt_not_le _ _ H E).
Qed.

Lemma Qltb_ge x y : Qltb x y = false <-> (y <= x)%Q.
Proof.
  unfold Qltb. rewrite negb_false_iff. apply Qle_bool_iff.
Qed.

Lemma computeOutcomeShift_rate outcomeEdges :
  (0 <= positiveRate (os_withEntity (computeOutcomeShift outcomeEdges)) <= 1)%Q.
Proof.
  unfold computeOutcomeShift. cbn [positiveRate os_withEntity].
  destruct (0 <? _) eqn:E.
  - apply ratio_unit. apply Nat.ltb_lt, E.
  - unfold baselineRate. split; discriminate.
Qed.

(** What a candidate that passes the 0.1 threshold has. *)
Lemma computeOutcomeShift_strong outcomeEdges :
  let shift := computeOutcomeShift outcomeEdges in
  (0 <= os_magnitude shift <= 1 # 2)%Q
  /\ ((1 # 10 < os_magnitude shift)%Q -> os_effect shift <> Mixed).
Proof.
  intros shift. pose proof (computeOutcomeShift_rate outcomeEdges) as Hr.
  subst shift. unfold computeOutcomeShift in *.
  cbn [positiveRate os_withEntity os_magnitude os_effect] in *.
  set (r := if 0 <? _ then _ else _) in *. clearbody r.
  unfold baselineRate, tenth.
  assert (Hcases : (Qabs (r - (5 # 10)) == - (r - (5 # 10)) /\ r - (5 # 10) <= 0
                    \/ Qabs (r - (5 # 10)) == r - (5 # 10) /\ 0 <= r - (5 # 10))%Q).
  { destruct (Qlt_le_dec (r - (5 # 10)) 0) as [Hneg|Hpos].
    - left. split; [apply Qabs_neg|]; lra.
    - right. split; [apply Qabs_pos|]; exact Hpos. }
  split; [destruct Hcases as [[H H']|[H H']]; rewrite H; lra|].
  intros Hmag.
  destruct (Qltb ((5 # 10) + (1 # 10)) r) eqn:E1; [discriminate|].
  destruct (Qltb r ((5 # 10) - (1 # 10))) eqn:E2; [discriminate|].
  apply Qltb_ge in E1, E2. exfalso.
  destruct Hcases as [[H H']|[H H']]; rewrite H in Hmag; lra.
Qed.

(** X22: the shift computed for an entity, over exact rationals: the positive
    rate is the 0.5 baseline when no positive or negative outcome was counted
    and the share of the positive ones otherwise; it lies between 0 and 1, the
    magnitude is its distance from 0.5 and never exceeds 0.5, and the effect is
    [mixed] exactly when the magnitude is at most 0.1, [improves] above and
    [reduces] below. *)
Theorem computeOutcomeShift_bounds outcomeEdges :
  let shift := computeOutcomeShift outcomeEdges in
  let rate := positiveRate (os_withEntity shift) in
  let positive := sumOf oe_positiveCount outcomeEdges in
  let negative := sumOf oe_negativeCount outcomeEdges in
  (positive + negative = 0 -> rate = baselineRate /\ (rate == 1 # 2)%Q)
  /\ (0 < positive + negative -> rate = ratio positive (positive + negative))
  /\ (0 <= rate <= 1)%Q
  /\ (os_magnitude shift == Qabs (rate - (1 # 2)))%Q
  /\ (0 <= os_magnitude shift <= 1 # 2)%Q
  /\ (os_effect shift = Mixed <-> (os_magnitude shift <= 1 # 10)%Q)
  /\ (os_effect shift = Improves <-> (6 # 10 < rate)%Q)
  /\ (os_effect shift = Reduces <-> (rate < 4 # 10)%Q).
Proof.
  intros shift rate positive negative. subst rate shift. unfold computeOutcomeShift.
  cbn [positiveRate os_withEntity os_magnitude os_effect].
  fold positive negative.
  set (r := if 0 <? positive + negative
            then ratio positive (positive + negative) else baselineRate).
  split.
  { intros H0. unfold r. rewrite H0. split; reflexivity. }
  split.
  { intros Hpos. unfold r. apply Nat.ltb_lt in Hpos. rewrite Hpos. reflexivity. }
  assert (Hr : (0 <= r <= 1)%Q).
  { unfold r. destruct (0 <? positive + negative) eqn:E.
    - apply ratio_unit. apply Nat.ltb_lt, E.
    - unfold baselineRate. split; discriminate. }
  clearbody r. clear positive negative. unfold baselineRate, tenth.
  assert (Habs : (Qabs (r - (5 # 10)) == Qabs (r - (1 # 2)))%Q).
  { apply Qabs_wd. lra. }
  split; [exact Hr|]. split; [exact Habs|].
  assert (Hcases : (r - (5 # 10) < 0 /\ Qabs (r - (5 # 10)) == - (r - (5 # 10))
                    \/ 0 <= r - (5 # 10) /\ Qabs (r - (5 # 10)) == r - (5 # 10))%Q).
  { destruct (Qlt_le_dec (r - (5 # 10)) 0) as [Hneg|Hpos].
    - left. split; [exact Hneg|]. apply Qabs_neg. lra.
    - right. split; [exact Hpos|]. apply Qabs_pos, Hpos. }
  split; [destruct Hcases as [[H1 H2]|[H1 H2]]; rewrite H2; lra|].
  destruct (Qltb ((5 # 10) + (1 # 10)) r) eqn:E1.
  - apply Qltb_lt in E1.
    split; [split; [discriminate|]; intros H;
            destruct Hcases as [[H1 H2]|[H1 H2]]; rewrite H2 in H; lra|].
    split; [split; [intros _; lra | reflexivity]|].
    split; [discriminate | intros H; lra].
  - apply Qltb_ge in E1. destruct (Qltb r ((5 # 10) - (1 # 10))) eqn:E2.
    + apply Qltb_lt in E2.
      split; [split; [discriminate|]; intros H;
              destruct Hcases as [[H1 H2]|[H1 H2]]; rewrite H2 in H; lra|].
      split; [split; [discriminate | intros H; lra]|].
      split; [intros _; lra | reflexivity].
    + apply Qltb_ge in E2.
      split; [split; [intros _|reflexivity];
              destruct Hcases as [[H1 H2]|[H1 H2]]; rewrite H2; lra|].
      split; [split; [discriminate | intros H; lra]|].
      split; [discriminate | intros H; lra].
Qed.


Lemma Sorted_impl {A} (R R' : A -> A -> Prop) (l : list A) :
  (forall a b, R a b -> R' a b) -> Sorted R l -> Sorted R' l.
Proof.
  intros H. induction 1 as [|a l _ IH Hhd]; constructor; [exact IH|].
  destruct Hhd; constructor. apply H. assumption.
Qed.

Lemma Qltb_asym x y : Qltb x y = true -> Qltb y x = false.
Proof. rewrite Qltb_lt, Qltb_ge. apply Qlt_le_weak. Qed.

Lemma differentiatorRole_spec e :
  differentiatorRole e = true ->
  ent_entityType e = Some "context" \/ ent_entityType e = Some "constraint"
  \/ ent_entityType e = Some "strategy".
Proof.
  unfold differentiatorRole, hasType. rewrite !orb_true_iff, !optEqb_Some. tauto.
Qed.

Lemma joinCooccurrence_In cs ents c e :
  In (c, e) (joinCooccurrence cs ents) ->
  In c cs /\ In e ents /\ (cooc_entityB c = ent_id e \/ cooc_entityA c = ent_id e).
Proof.
  unfold joinCooccurrence. rewrite in_flat_map.
  intros (c' & Hc' & Hin). apply in_map_iff in Hin as (e' & [= <- <-] & He).
  apply filter_In in He as [He Hk]. apply orb_true_iff in Hk.
  rewrite !String.eqb_eq in Hk. auto.
Qed.

(** X23: [findDifferentiatorsFromStructure] returns at most five
    differentiators, strongest first.  Each is an entity of type context,
    constraint or strategy that is not among the input entities and shares a
    co-occurrence row with one of them; its magnitude lies above 0.1 and at
    most at 0.5, and its effect is never [mixed]. *)
Theorem findDifferentiatorsFromStructure_sound w inputEntityIds :
  let found := findDifferentiatorsFromStructure w inputEntityIds in
  List.length found <= 5
  /\ Sorted (fun a b => (df_magnitude b <= df_magnitude a)%Q) found
  /\ forall d, In d found ->
       ~ In (re_id (df_entity d)) inputEntityIds
       /\ (1 # 10 < df_magnitude d <= 1 # 2)%Q
       /\ df_effect d <> Mixed
       /\ (df_role d = Some "context" \/ df_role d = Some "constraint"
           \/ df_role d = Some "strategy")
       /\ exists c e,
            In c (cooccurrences w) /\ In e (entities w) /\ df_entity d = resolvedOf e
            /\ (cooc_entityB c = ent_id e \/ cooc_entityA c = ent_id e)
            /\ (In (cooc_entityA c) inputEntityIds \/ In (cooc_entityB c) inputEntityIds)
            /\ df_cooccurrenceStrength d = cooc_count c.
Proof.
  intros found. unfold found, findDifferentiatorsFromStructure.
  split; [rewrite length_firstn; lia|]. split.
  - apply Sorted_firstn.
    eapply Sorted_impl;
      [|apply (sortBy_sorted (fun a b => Qltb (df_magnitude b) (df_magnitude a)))].
    + intros a b H. apply Qltb_ge in H. exact H.
    + intros a b. apply Qltb_asym.
  - intros d Hd. apply firstn_In, sortBy_In, in_flat_map in Hd as ([c e] & Hrow & Hd).
    apply firstn_In, filter_In in Hrow as [Hrow _].
    unfold cooccurringEntities in Hrow. apply sortBy_In, filter_In in Hrow as [Hrow Hp].
    apply joinCooccurrence_In in Hrow as (Hc & He & Hlink).
    cbn [fst snd] in Hp. apply andb_true_iff in Hp as [Hin Hrole].
    unfold differentiatorOf in Hd.
    destruct (inArray (ent_id e) inputEntityIds) eqn:Ein; [contradiction|].
    destruct (Qltb tenth _) eqn:Emag; [|contradiction].
    destruct Hd as [<-|[]].
    cbn [df_entity df_magnitude df_effect df_role df_cooccurrenceStrength resolvedOf re_id].
    pose proof (computeOutcomeShift_strong (getOutcomeEdgesForEntity w (ent_id e)))
      as (Hbound & Hmixed).
    cbv zeta in Hbound, Hmixed.
    apply Qltb_lt in Emag. unfold tenth in Emag.
    rewrite (Qabs_pos _ (proj1 Hbound)) in Emag.
    split; [intros H; apply inArray_In in H; congruence|].
    split; [split; [exact Emag | apply Hbound]|].
    split; [exact (Hmixed Emag)|].
    split; [apply differentiatorRole_spec, Hrole|].
    exists c, e. repeat split; try assumption.
    apply orb_true_iff in Hin. rewrite <- !inArray_In. exact Hin.
Qed.

(** *** Comparisons *)

Lemma sumQ_zero l : Forall (fun q => q == 0)%Q l -> (sumQ l == 0)%Q.
Proof.
  intros H. rewrite sumQ_fold. induction H as [|q l Hq _ IH]; cbn [fold_right]; [reflexivity|].
  rewrite Hq, IH. reflexivity.
Qed.

(** X24: comparing a simulation with itself moves nothing: every outcome
    shift is 0, and the net effect is [uncertain] below five observations and
    [neutral] from five on, never [positive] or [negative]. *)
Theorem compareOutcomes_self result change :
  let comparison := compareOutcomes result result change in
  Forall (fun s => sh_delta s == 0)%Q (cmp_outcomeShifts comparison)
  /\ cmp_netEffect comparison
     = if sim_totalObservations result <? 5 then Uncertain else Neutral.
Proof.
  intros comparison. unfold comparison, compareOutcomes.
  cbn [cmp_outcomeShifts cmp_netEffect].
  set (shifts := Js.sortBy _ _).
  assert (Hzero : Forall (fun s => sh_delta s == 0)%Q shifts).
  { apply List.Forall_forall. intros s Hs. unfold shifts in Hs.
    apply sortBy_In, in_map_iff in Hs as (o & <- & _). cbn [sh_delta]. lra. }
  split; [exact Hzero|].
  rewrite Nat.min_id. destruct (sim_totalObservations result <? 5); [reflexivity|].
  match goal with |- (if Qltb (Qabs ?x) _ then _ else _) = _ =>
    assert (Hx : (x == 0)%Q)
  end.
  { apply sumQ_zero. apply List.Forall_forall. intros q Hq.
    apply in_map_iff in Hq as (s & <- & Hs). apply filter_In in Hs as [Hs _].
    rewrite List.Forall_forall in Hzero. apply Hzero, Hs. }
  match goal with |- (if ?b then _ else _) = _ => assert (Hb : b = true) end.
  { apply Qltb_lt. rewrite Hx. reflexivity. }
  rewrite Hb. reflexivity.
Qed.

(** X25: whatever the base, the alternative inputs of a counterfactual
    contain [to]; no element that matches [from] is left in them unless it is
    [to] itself; every other element comes from the base; and the list is at
    most one element longer than the base. *)
Theorem alternativeInputs_swapped baseInputs change :
  let alternative := alternativeInputs baseInputs change in
  In (change_to change) alternative
  /\ (forall input, In input alternative ->
        input = change_to change
        \/ (In input baseInputs /\ matchesFrom (change_from change) input = false))
  /\ List.length alternative <= S (List.length baseInputs).
Proof.
  intros alternative. unfold alternative. rewrite alternativeInputs_renames.
  destruct (existsb (renames change) baseInputs) eqn:E.
  - split; [|split].
    + apply existsb_exists in E as (input & Hin & Hr).
      unfold renames in Hr. apply andb_true_iff in Hr as [Hm _].
      apply in_map_iff. exists input. split; [|exact Hin].
      unfold replaceFrom. rewrite Hm. reflexivity.
    + intros input Hin. apply in_map_iff in Hin as (x & <- & Hx).
      unfold replaceFrom. destruct (matchesFrom (change_from change) x) eqn:Em; auto.
    + rewrite length_map. lia.
  - split; [|split].
    + apply in_or_app. right. left. reflexivity.
    + intros input Hin. apply in_app_or in Hin as [Hin|[<-|[]]]; [|auto].
      apply filter_In in Hin as [Hin Hn]. right. split; [exact Hin|].
      unfold matchesFrom. unfold namedLikeFrom in Hn.
      apply negb_true_iff in Hn. rewrite Hn. reflexivity.
    + rewrite length_app. cbn [List.length].
      pose proof (List.filter_length_le
                    (fun input => negb (namedLikeFrom change input)) baseInputs). lia.
Qed.

(** ** Tags *)

Lemma matchTypedAt_opens s :
  Js.startsWith s "[[" = false -> matchTypedAt s = None.
Proof.
  intros H. destruct (matchTypedAt s) as [[[w c] n]|] eqn:E; [|reflexivity].
  apply matchTypedAt_spec in E as (rest & -> & _).
  change (Js.startsWith (String "[" (String "[" (w +:+ ":" +:+ c +:+ "]]" +:+ rest))) "[["
          = false) in H.
  discriminate.
Qed.

Lemma typed_quiet_without_open s :
  Js.includes s "[[" = false -> quiet matchTypedAt s.
Proof.
  induction s as [|c r IH]; intros H.
  - split; [reflexivity | exact I].
  - cbn [Js.includes] in H. apply orb_false_iff in H as [Hp Hr].
    split; [apply matchTypedAt_opens; exact Hp | apply IH, Hr].
Qed.

(** X26: a text that contains no [[ mentions nothing: [extractEntities]
    returns the empty list. *)
Theorem extractEntities_plain text :
  Js.includes text "[[" = false -> extractEntities text = [].
Proof.
  intros H. unfold extractEntities, untypedPass, typedPass, typedMatches, untypedMatches.
  rewrite (execAll_quiet matchTypedAt text (typed_quiet_without_open text H)).
  rewrite (execAll_quiet matchUntypedAt text (quiet_without_open text H)).
  reflexivity.
Qed.

Lemma extractEntities_plain_witness :
  extractEntities "How do I teach fractions? [see notes]" = [].
Proof.
  apply extractEntities_plain. vm_compute. reflexivity.
Defined.

(** X27: every mention that [extractEntities] yields is in normal form: its
    type is a non-empty lower-case word, its name is trimmed, lower-case and
    without a closing bracket.  Normalising the name or the type again, as
    [findOrCreateEntity] does with the name, changes nothing, so an entity
    created from a mention is stored with [normalizedName = name]. *)
Theorem extractEntities_normal text :
  Forall (fun e => wellFormed e
                   /\ normalizedNameOf (ee_name e) = ee_name e
                   /\ normalizedNameOf (ee_type e) = ee_type e)
         (extractEntities text).
Proof.
  apply List.Forall_forall. intros e He.
  pose proof (extractEntities_wellFormed text e He) as Hwf.
  split; [exact Hwf|]. destruct Hwf as (_ & _ & Hty & _ & Hname).
  unfold normalizedNameOf. rewrite trim_toLowerCase. auto.
Qed.

(** ** The chat turn, step by step *)

Lemma hoare_bind {A B} P (c : M A) (k : A -> M B) Q R :
  hoare P c Q -> (forall x, hoare (Q x) (k x) R) -> hoare P (bind c k) R.
Proof.
  intros Hc Hk w Hw. rewrite eval_bind, exec_bind. apply Hk, Hc, Hw.
Qed.

Lemma hoare_ret {A} (P : World -> Prop) (x : A) (Q : A -> World -> Prop) :
  (forall w, P w -> Q x w) -> hoare P (ret x) Q.
Proof. intros H w Hw. apply H, Hw. Qed.

Lemma hoare_weaken {A} (P P' : World -> Prop) (c : M A) Q :
  (forall w, P w -> P' w) -> hoare P' c Q -> hoare P c Q.
Proof. intros H Hc w Hw. apply Hc, H, Hw. Qed.

(** An operation that leaves two views alone keeps what is said of them. *)
Lemma hoare_leaves {A T1 T2} (p1 : World -> T1) (p2 : World -> T2)
    (L : T1 -> T2 -> Prop) (c : M A) :
  leaves p1 c -> leaves p2 c ->
  hoare (fun w => L (p1 w) (p2 w)) c (fun _ w => L (p1 w) (p2 w)).
Proof. intros H1 H2 w Hw. rewrite H1, H2. exact Hw. Qed.

Lemma hoare_quiet {A B T1 T2} (p1 : World -> T1) (p2 : World -> T2)
    (L : T1 -> T2 -> Prop) (c : M A) (k : A -> M B) R :
  leaves p1 c -> leaves p2 c ->
  (forall x, hoare (fun w => L (p1 w) (p2 w)) (k x) R) ->
  hoare (fun w => L (p1 w) (p2 w)) (bind c k) R.
Proof.
  intros H1 H2 Hk. eapply hoare_bind; [apply hoare_leaves; assumption | exact Hk].
Qed.

(** Discharges [leaves] for the operations of a turn and a concrete view. *)
Ltac quiet :=
  unfold createConversation, getConversationHistory;
  repeat first
    [ apply leaves_ret
    | apply leaves_gets
    | apply findOrCreateEntity_leaves
    | apply logEvent_leaves
    | apply completeTrajectory_leaves
    | apply startTrajectory_leaves
    | apply leaves_foldM; intros ? ?
    | apply leaves_bind; [|intros ?]
    | match goal with
      | |- leaves _ (match ?x with _ => _ end) => destruct x
      | |- timeless _ => split; intros ?; reflexivity
      | |- apart _ _ => intros ? ?; reflexivity
      | |- leaves _ _ => intros ?; reflexivity
      end ].

Lemma hoare_modify (P : World -> Prop) (f : World -> World) (Q : unit -> World -> Prop) :
  (forall w, P w -> Q tt (f w)) -> hoare P (modify f) Q.
Proof. intros H w Hw. apply H, Hw. Qed.

Lemma logEvent_walked before trajectoryId k event :
  hoare (fun w => walked before trajectoryId k (events w) (sequenceCounters w))
    (logEvent trajectoryId event)
    (fun _ w => walked before trajectoryId (S k) (events w) (sequenceCounters w)).
Proof.
  intros w (Hk & appended & Hlog & Hlen & Hid & Hseq).
  rewrite logEvent_events, logEvent_counters. split.
  - rewrite Hk. simpl. rewrite lookup_insert_eq. f_equal. lia.
  - exists (appended ++ [storedEvent trajectoryId event w]).
    rewrite Hlog, <- app_assoc. split; [reflexivity|]. split; [|split].
    + rewrite length_app, Hlen. cbn. lia.
    + apply Forall_app. split; [exact Hid|]. repeat constructor.
    + rewrite map_app, Hseq, seq_S. cbn [map storedEvent ev_sequenceNum].
      rewrite Hk. reflexivity.
Qed.

Lemma foldM_walked {A St} before trajectoryId (xs : list A) (body : St -> A -> M St) :
  (forall k s x,
     hoare (fun w => walked before trajectoryId k (events w) (sequenceCounters w))
       (body s x)
       (fun _ w => walked before trajectoryId (S k) (events w) (sequenceCounters w))) ->
  forall k s,
    hoare (fun w => walked before trajectoryId k (events w) (sequenceCounters w))
      (foldM xs body s)
      (fun _ w => walked before trajectoryId (k + List.length xs)
                    (events w) (sequenceCounters w)).
Proof.
  intros Hbody. induction xs as [|x r IH]; intros k s.
  - apply hoare_ret. intros w Hw. rewrite Nat.add_0_r. exact Hw.
  - cbn [foldM List.length]. eapply hoare_bind; [apply Hbody|].
    intros s'. rewrite <- Nat.add_succ_comm. apply IH.
Qed.

Lemma startTrajectory_walked before nearAccountId inputText conversationId :
  hoare (fun w => events w = before)
    (startTrajectory nearAccountId inputText conversationId)
    (fun trajectoryId w => walked before trajectoryId 0 (events w) (sequenceCounters w)).
Proof.
  intros w Hw.
  destruct (startTrajectory_spec nearAccountId inputText conversationId w)
    as (Hid & Hev & _ & Hctr).
  rewrite Hev, Hctr, Hid, Hw. split; [apply lookup_insert_eq|].
  exists []. rewrite app_nil_r. repeat split; constructor.
Qed.

Lemma completeTrajectory_closed before trajectoryId k nearAccountId summary :
  hoare (fun w => walked before trajectoryId k (events w) (sequenceCounters w))
    (completeTrajectory trajectoryId nearAccountId summary)
    (fun _ w => closed before trajectoryId k (events w) (sequenceCounters w)).
Proof.
  intros w (_ & Happ).
  rewrite completeTrajectory_events, completeTrajectory_counters.
  split; [apply lookup_delete_eq | exact Happ].
Qed.

Ltac skip L := apply (hoare_quiet events sequenceCounters L); [quiet | quiet | intros ?].

(** X28: the walk of a chat turn, for a conversation id that is absent or
    has a row.  A turn appends to the event log exactly
    one event per tag of the message, one per tag of the reply, and the two
    events that frame the reply; they all belong to the turn's trajectory,
    carry the sequence numbers 0, 1, 2, ... in order, and when the turn returns
    the trajectory's counter is gone: the walk is completed. *)
Theorem processMessage_walk nearAccountId message conversationId messageContext llm w :
  refers hasConversation conversationId w = true ->
  let turn := processMessage nearAccountId message conversationId messageContext llm in
  let response := eval turn w in
  exists appended,
    events (exec turn w) = events w ++ appended
    /\ List.length appended
       = List.length (extractEntities message)
         + List.length (extractEntities (cm_content (cr_message response))) + 2
    /\ Forall (fun e => ev_trajectoryId e = cr_trajectoryId response) appended
    /\ map ev_sequenceNum appended = seq 0 (List.length appended)
    /\ sequenceCounters (exec turn w) !! cr_trajectoryId response = None.
Proof.
  intros _ turn response.
  assert (H : hoare (fun w1 => events w1 = events w) turn
                (fun r w' =>
                   closed (events w) (cr_trajectoryId r)
                     (List.length (extractEntities message)
                      + List.length (extractEntities (cm_content (cr_message r))) + 2)
                     (events w') (sequenceCounters w'))).
  { unfold turn, processMessage. cbv zeta.
    set (m := List.length (extractEntities message)).
    skip (fun (log : list Event) (_ : gmap string nat) => log = events w).
    skip (fun (log : list Event) (_ : gmap string nat) => log = events w).
    eapply hoare_bind; [apply startTrajectory_walked|]. intros trajectoryId.
    skip (walked (events w) trajectoryId 0).
    skip (walked (events w) trajectoryId 0).
    eapply hoare_bind.
    { apply (foldM_walked (events w) trajectoryId). intros k s entity.
      skip (walked (events w) trajectoryId k).
      eapply hoare_bind; [apply logEvent_walked|]. intros ?.
      apply hoare_ret. auto. }
    intros entitiesTouched. cbn [Nat.add]. fold m.
    skip (walked (events w) trajectoryId m).
    skip (walked (events w) trajectoryId m).
    eapply hoare_bind; [apply logEvent_walked|]. intros ?.
    eapply hoare_bind.
    { apply (foldM_walked (events w) trajectoryId). intros k s entity.
      skip (walked (events w) trajectoryId k).
      destruct (negb _);
        (eapply hoare_bind; [apply logEvent_walked|]; intros ?; apply hoare_ret; auto). }
    intros entitiesDiscovered.
    eapply hoare_bind; [apply logEvent_walked|]. intros ?.
    eapply hoare_bind; [apply completeTrajectory_closed|]. intros trajectoryResult.
    set (n := List.length (extractEntities _)).
    skip (closed (events w) trajectoryId (S (S m + n))).
    skip (closed (events w) trajectoryId (S (S m + n))).
    skip (closed (events w) trajectoryId (S (S m + n))).
    skip (closed (events w) trajectoryId (S (S m + n))).
    skip (closed (events w) trajectoryId (S (S m + n))).
    apply hoare_ret. intros w' Hw'. cbn [cr_trajectoryId cr_message cm_content].
    fold n. replace (m + n + 2) with (S (S m + n)) by lia. exact Hw'. }
  destruct (H w eq_refl) as (Hnone & appended & Hlog & Hlen & Hid & Hseq).
  fold response in Hnone, Hlen, Hid, Hseq.
  exists appended. rewrite Hlen. auto.
Qed.

Lemma processMessage_walk_witness :
  hasConversation "id0" labWorld = true
  /\ exists appended,
       events (exec secondTurn labWorld) = events labWorld ++ appended
       /\ map ev_sequenceNum appended = [0; 1; 2].
Proof.
  split; [vm_compute; reflexivity|].
  destruct (processMessage_walk "bob.near" "Trying [[strategy:worked examples]] today"
              (Some "id0") [] Threw labWorld) as (appended & Hlog & Hlen & _ & Hseq & _).
  - vm_compute. reflexivity.
  - exists appended. split; [exact Hlog|]. rewrite Hseq, Hlen. vm_compute. reflexivity.
Defined.

Ltac calm L := apply (hoare_quiet messages messages L); [quiet | quiet | ].

(** X29: the messages of a chat turn, for a conversation id that is absent
    or has a row.  A turn stores exactly two messages, in this order and in
    the conversation it reports: the user's text, and the reply, which carries
    the id of the turn's trajectory and is the model's content or, when the
    model gave none or the call failed, an apology.  A conversation id that is
    given is the one reported. *)
Theorem processMessage_messages nearAccountId message conversationId messageContext llm w :
  refers hasConversation conversationId w = true ->
  let turn := processMessage nearAccountId message conversationId messageContext llm in
  let response := eval turn w in
  (exists user reply,
     messages (exec turn w) = messages w ++ [user; reply]
     /\ msg_role user = RoleUser /\ msg_content user = message
     /\ msg_trajectoryId user = None
     /\ msg_conversationId user = cr_conversationId response
     /\ msg_role reply = RoleAssistant /\ msg_content reply = replyOf llm
     /\ msg_trajectoryId reply = Some (cr_trajectoryId response)
     /\ msg_conversationId reply = cr_conversationId response
     /\ msg_id reply = cm_id (cr_message response))
  /\ cm_content (cr_message response) = replyOf llm
  /\ forall c, conversationId = Some c -> cr_conversationId response = c.
Proof.
  intros _ turn response.
  assert (H : hoare (fun w1 => messages w1 = messages w) turn
                (fun r w' =>
                   (exists user reply,
                      messages w' = messages w ++ [user; reply]
                      /\ msg_role user = RoleUser /\ msg_content user = message
                      /\ msg_trajectoryId user = None
                      /\ msg_conversationId user = cr_conversationId r
                      /\ msg_role reply = RoleAssistant /\ msg_content reply = replyOf llm
                      /\ msg_trajectoryId reply = Some (cr_trajectoryId r)
                      /\ msg_conversationId reply = cr_conversationId r
                      /\ msg_id reply = cm_id (cr_message r))
                   /\ cm_content (cr_message r) = replyOf llm
                   /\ forall c, conversationId = Some c -> cr_conversationId r = c)).
  2:{ apply H. reflexivity. }
  unfold turn, processMessage. cbv zeta. fold (replyOf llm).
  calm (fun (l _ : list Message) => l = messages w). intros now.
  eapply hoare_bind with
    (Q := fun convId w1 => messages w1 = messages w
                           /\ forall c, conversationId = Some c -> convId = c).
  { intros w1 Hw1. destruct conversationId as [c|].
    - split; [exact Hw1 | intros c' [= ->]; reflexivity].
    - split; [exact Hw1 | discriminate]. }
  intros convId.
  set (given := forall c, conversationId = Some c -> convId = c).
  calm (fun (l _ : list Message) => l = messages w /\ given). intros trajectoryId.
  calm (fun (l _ : list Message) => l = messages w /\ given). intros userMessageId.
  set (user := {| msg_id := userMessageId; msg_conversationId := convId;
                  msg_role := RoleUser; msg_content := message;
                  msg_trajectoryId := None; msg_createdAt := now |}).
  eapply hoare_bind with
    (Q := fun _ w1 => messages w1 = messages w ++ [user] /\ given).
  { apply hoare_modify. intros w1 [Hw1 Hc]. fields. rewrite Hw1. split; [reflexivity | exact Hc]. }
  intros _.
  calm (fun (l _ : list Message) => l = messages w ++ [user] /\ given).
  intros entitiesTouched.
  calm (fun (l _ : list Message) => l = messages w ++ [user] /\ given). intros simulation.
  calm (fun (l _ : list Message) => l = messages w ++ [user] /\ given). intros history.
  calm (fun (l _ : list Message) => l = messages w ++ [user] /\ given). intros _.
  calm (fun (l _ : list Message) => l = messages w ++ [user] /\ given).
  intros entitiesDiscovered.
  calm (fun (l _ : list Message) => l = messages w ++ [user] /\ given). intros _.
  calm (fun (l _ : list Message) => l = messages w ++ [user] /\ given).
  intros trajectoryResult.
  calm (fun (l _ : list Message) => l = messages w ++ [user] /\ given).
  intros assistantMessageId.
  calm (fun (l _ : list Message) => l = messages w ++ [user] /\ given). intros savedAt.
  set (reply := {| msg_id := assistantMessageId; msg_conversationId := convId;
                   msg_role := RoleAssistant; msg_content := replyOf llm;
                   msg_trajectoryId := Some trajectoryId; msg_createdAt := savedAt |}).
  eapply hoare_bind with
    (Q := fun _ w1 => messages w1 = messages w ++ [user; reply] /\ given).
  { apply hoare_modify. intros w1 [Hw1 Hc]. fields. rewrite Hw1. unfold insertRow.
    rewrite <- app_assoc. split; [reflexivity | exact Hc]. }
  intros _.
  calm (fun (l _ : list Message) => l = messages w ++ [user; reply] /\ given). intros _.
  calm (fun (l _ : list Message) => l = messages w ++ [user; reply] /\ given).
  intros createdAt.
  apply hoare_ret. intros w' [Hw' Hc].
  cbn [cr_conversationId cr_trajectoryId cr_message cm_content cm_id].
  split; [|split; [reflexivity | exact Hc]].
  exists user, reply. repeat split. exact Hw'.
Qed.

Lemma processMessage_messages_witness :
  hasConversation "id0" labWorld = true
  /\ exists user reply,
       messages (exec secondTurn labWorld) = messages labWorld ++ [user; reply]
       /\ msg_conversationId user = "id0" /\ msg_conversationId reply = "id0".
Proof.
  split; [vm_compute; reflexivity|].
  destruct (processMessage_messages "bob.near" "Trying [[strategy:worked examples]] today"
              (Some "id0") [] Threw labWorld)
    as ((user & reply & Hm & _ & _ & _ & Hu & _ & _ & _ & Hr & _) & _ & Hgiven).
  - vm_compute. reflexivity.
  - exists user, reply. rewrite Hu, Hr, (Hgiven "id0" eq_refl). auto.
Defined.

Ltac still L := apply (hoare_quiet conversations conversations L); [quiet | quiet | ].

(** X30: the conversation of a chat turn.  When the non-empty id of a
    conversation that has a row is given, the turn leaves the table of
    conversations as it is: no row is added, and neither the title nor
    [updatedAt] of the conversation is refreshed.  When none is given, the turn
    adds exactly one conversation, reports its id, and titles it with the first
    50 characters of the message, followed by an ellipsis when the message is
    longer. *)
Theorem processMessage_conversation nearAccountId message conversationId messageContext llm w :
  refers hasConversation conversationId w = true ->
  let turn := processMessage nearAccountId message conversationId messageContext llm in
  let response := eval turn w in
  (forall c, conversationId = Some c -> c <> EmptyString ->
     conversations (exec turn w) = conversations w)
  /\ (conversationId = None ->
      List.length (conversations (exec turn w)) = S (List.length (conversations w))
      /\ exists row,
           In row (conversations (exec turn w))
           /\ conv_id row = cr_conversationId response
           /\ conv_nearAccountId row = nearAccountId
           /\ conv_title row = Some (titleOf message)).
Proof.
  intros _ turn response. split.
  - intros c -> Hc.
    assert (H : hoare (fun w1 => conversations w1 = conversations w) turn
                  (fun _ w' => conversations w' = conversations w)).
    2:{ apply H. reflexivity. }
    unfold turn, processMessage. cbv zeta.
    apply String.eqb_neq in Hc. cbn [Js.truthy]. rewrite Hc. cbn [negb].
    repeat (still (fun (l _ : list Conversation) => l = conversations w); intros ?).
    apply hoare_ret. auto.
  - intros ->.
    assert (H : hoare (fun w1 => conversations w1 = conversations w) turn
                  (fun r w' =>
                     List.length (conversations w') = S (List.length (conversations w))
                     /\ exists row,
                          In row (conversations w')
                          /\ conv_id row = cr_conversationId r
                          /\ conv_nearAccountId row = nearAccountId
                          /\ conv_title row = Some (titleOf message))).
    2:{ apply H. reflexivity. }
    unfold turn, processMessage. cbv zeta. cbn [Js.truthy].
    still (fun (l _ : list Conversation) => l = conversations w). intros now.
    eapply hoare_bind with
      (Q := fun convId w1 =>
              exists created,
                conversations w1
                = conversations w
                  ++ [ {| conv_id := convId; conv_nearAccountId := nearAccountId;
                          conv_title := None; conv_createdAt := created;
                          conv_updatedAt := created |} ]).
    { intros w1 Hw1. unfold createConversation. autorewrite with store. fields.
      exists (clock (exec newId w1) (ticks (exec newId w1))).
      change (conversations (exec newDate (exec newId w1))) with (conversations w1).
      rewrite Hw1. reflexivity. }
    intros convId.
    set (L := fun (l _ : list Conversation) =>
                exists created,
                  l = conversations w
                      ++ [ {| conv_id := convId; conv_nearAccountId := nearAccountId;
                              conv_title := None; conv_createdAt := created;
                              conv_updatedAt := created |} ]).
    do 13 (still L; intros ?).
    eapply hoare_bind with
      (Q := fun _ w1 =>
              List.length (conversations w1) = S (List.length (conversations w))
              /\ exists row,
                   In row (conversations w1)
                   /\ conv_id row = convId
                   /\ conv_nearAccountId row = nearAccountId
                   /\ conv_title row = Some (titleOf message)).
    { intros w1 (created & Hw1). autorewrite with store. fields.
      change (conversations (exec newDate w1)) with (conversations w1).
      rewrite Hw1. split.
      - rewrite updateWhere_length, length_app. cbn [List.length]. lia.
      - eexists. split.
        + unfold updateWhere. apply in_map_iff. eexists. split; [reflexivity|].
          apply in_or_app. right. left. reflexivity.
        + cbn [conv_id]. rewrite String.eqb_refl. repeat split. }
    intros ?.
    apply (hoare_quiet conversations conversations
             (fun (l _ : list Conversation) =>
                List.length l = S (List.length (conversations w))
                /\ exists row,
                     In row l /\ conv_id row = convId
                     /\ conv_nearAccountId row = nearAccountId
                     /\ conv_title row = Some (titleOf message))); [quiet | quiet |].
    intros createdAt. apply hoare_ret. auto.
Qed.

Lemma processMessage_conversation_witness :
  hasConversation "id0" labWorld = true
  /\ conversations (exec secondTurn labWorld) = conversations labWorld.
Proof.
  split; [vm_compute; reflexivity|].
  apply (proj1 (processMessage_conversation "bob.near"
                  "Trying [[strategy:worked examples]] today" (Some "id0") [] Threw labWorld
                  ltac:(vm_compute; reflexivity)) "id0" eq_refl).
  discriminate.
Defined.
